(** * Parallel block-blob transfers: highlevel.node.ts

    A shallow embedding of [blob/lib/highlevel.node.ts]: the upload
    orchestrator [UploadResetableStreamToBlockBlob] (behind
    [UploadFileToBlockBlob]), the download orchestrator
    [DownloadBlobToBuffer] and the streaming upload
    [UploadStreamToBlockBlob].

    Conventions.
    - JavaScript numbers are integers of [Z]; every quantity of the file
      (sizes, offsets, counts, block indices) stays far inside the range in
      which doubles are exact, so [Math.ceil (a / b)] and
      [Math.floor (a / b)] are the integer ceiling and floor quotients.
    - An [async] function is cut at its [await]s into synchronous segments.
      Segments of different tasks interleave; which suspended task is
      resumed next is chosen by a schedule, and whether the awaited remote
      call fulfils or rejects is chosen by a [Remote] environment.
    - Every remote call and every progress callback is appended to the
      [calls] log of the heap, in the order in which it is issued. *)

From Stdlib Require Import ZArith List Lia Bool Arith PeanoNat Permutation.
Import ListNotations.
Open Scope Z_scope.

(** ** Values shared by the three orchestrators *)

(** The constants the file imports from [utils/constants], which is not
    among the sources: they are parameters of the whole development.
    [BATCH_DEFAULT_CONCURRENCY] stands for the concurrency [new Batch (undefined)]
    falls back to. *)
Record Constants : Type := mkConstants {
  BLOB_DEFAULT_DOWNLOAD_BLOCK_BYTES : Z;
  BLOCK_BLOB_MAX_BLOCKS : Z;
  BLOCK_BLOB_MAX_STAGE_BLOCK_BYTES : Z;
  BLOCK_BLOB_MAX_UPLOAD_BLOB_BYTES : Z;
  BATCH_DEFAULT_CONCURRENCY : positive
}.

(** The limits of the storage service: single-shot uploads up to 256MB (the
    figure the doc comments of the file give), staged blocks up to 100MB,
    50000 blocks per blob, 4MB download blocks. Used for the closed examples. *)
Definition service_constants : Constants :=
  {| BLOB_DEFAULT_DOWNLOAD_BLOCK_BYTES := 4 * 1024 * 1024;
     BLOCK_BLOB_MAX_BLOCKS := 50000;
     BLOCK_BLOB_MAX_STAGE_BLOCK_BYTES := 100 * 1024 * 1024;
     BLOCK_BLOB_MAX_UPLOAD_BLOB_BYTES := 256 * 1024 * 1024;
     BATCH_DEFAULT_CONCURRENCY := 5 |}.

(** Every constant is a positive number. *)
Definition positive_constants (K : Constants) : Prop :=
  0 < BLOB_DEFAULT_DOWNLOAD_BLOCK_BYTES K /\
  0 < BLOCK_BLOB_MAX_BLOCKS K /\
  0 < BLOCK_BLOB_MAX_STAGE_BLOCK_BYTES K /\
  0 < BLOCK_BLOB_MAX_UPLOAD_BLOB_BYTES K.

(** Modelled from the spec: [generateBlockID] of [utils/utils.common] is not
    among the sources. The spec's data model makes a chunk's id an opaque
    token derived deterministically and reversibly from its index: a
    constructor applied to the index. *)
Inductive BlockID : Type :=
| generateBlockID (blockIndex : Z).

(** The errors the file throws, one constructor per [throw], and the
    failure of a remote operation. *)
Inductive Error : Type :=
| BlockSizeOutOfRange
| SizeTooLarge (size : Z)
| TooManyBlocks
| NegativeBlockSize
| NegativeOffset
| NegativeCount
| NegativeResolvedCount (count : Z)
| BufferTooSmall (count : Z)
| TransferFailure (code : nat).

(** The state of the promise an [async] function returns. *)
Inductive Promise (A : Type) : Type :=
| Fulfilled (a : A)
| Rejected (e : Error)
| Unsettled.
Arguments Fulfilled {A} a.
Arguments Rejected {A} e.
Arguments Unsettled {A}.

Inductive Response : Type :=
| BlockBlobUploadResponse
| BlockBlobCommitBlockListResponse
| Void.

(** The body handed to [stageBlock]: a re-openable range of the source, or
    a filled buffer. *)
Inductive Body : Type :=
| streamFactory (offset count : Z)
| Buffer (length : Z).

(** What the orchestrators do to the outside world: the remote operations
    of [BlockBlobURL] and [BlobURL], the progress callback, and
    [streamToBuffer] of [utils/utils.node] (not among the sources), taken as
    one more awaited operation, which copies the response stream into the
    buffer from [offset] up to [end_]. *)
Inductive Call : Type :=
| upload (size : Z)
| stageBlock (blockID : BlockID) (body : Body) (contentLength : Z)
| commitBlockList (blockList : list BlockID)
| getProperties
| download (rangeOffset rangeCount : Z)
| streamToBuffer (offset end_ : Z)
| progress (loadedBytes : Z) (totalBytes : option Z).

(** The variables the task closures share, and the log of calls. *)
Record Heap : Type := mkHeap {
  blockList : list BlockID;
  blockNum : Z;
  transferProgress : Z;
  calls : list Call
}.

Definition empty_heap : Heap :=
  {| blockList := []; blockNum := 0; transferProgress := 0; calls := [] |}.

Definition call (c : Call) (h : Heap) : Heap :=
  {| blockList := blockList h; blockNum := blockNum h;
     transferProgress := transferProgress h; calls := calls h ++ [c] |}.

(** [Math.ceil (a / b)] and [Math.floor (a / b)]. *)
Definition Math_ceil_div (a b : Z) : Z := - ((- a) / b).
Definition Math_floor_div (a b : Z) : Z := a / b.

(** ** The batch executor *)

Module Batch.
Section Executor.

Context {St : Type}.

(** Modelled from the spec: [utils/Batch] is not among the sources; the
    whole module follows the Batch Executor of the spec (4.1).

    An operation is the list of the synchronous segments of an [async]
    function: the first runs when the operation is started, each later one
    when the [await] before it fulfils. *)
Definition Operation : Type := list (St -> St).

Variable operations : list Operation.
Variable concurrency : positive.

(** The environment: [settles i k] is how the [k]-th [await] of operation
    [i] ends, [None] for fulfilled and [Some e] for rejected with [e]. *)
Variable settles : nat -> nat -> option Error.

(** Modelled from the spec: an active task, a started operation that is
    suspended at its [a_await]-th [await]. *)
Record Active : Type := mkActive {
  a_index : nat;
  a_await : nat;
  a_rest : list (St -> St)
}.

(** Modelled from the spec: the Batch Job keeps a cursor into the
    operations, the active tasks and the failures; [completed] and the tail
    of [rejected] are kept for the proofs (the spec's [firstError] is the
    head of [rejected]). *)
Record Job : Type := mkJob {
  cursor : nat;
  actives : list Active;
  completed : list nat;
  rejected : list (nat * Error);
  store : St
}.

(** Modelled from the spec: a job is created per call, with nothing
    started. *)
Definition init (st : St) : Job :=
  {| cursor := 0; actives := []; completed := []; rejected := []; store := st |}.

(** Modelled from the spec: a pending operation is started when no failure
    was seen and fewer than [concurrency] tasks are active. *)
Definition can_start (j : Job) : bool :=
  match rejected j with
  | [] => (length (actives j) <? Pos.to_nat concurrency)%nat
          && (cursor j <? length operations)%nat
  | _ :: _ => false
  end.

(** Modelled from the spec: starting the operation under the cursor runs
    its first segment, up to its first [await]. *)
Definition start_next (j : Job) : Job :=
  match nth_error operations (cursor j) with
  | None => j
  | Some op =>
      {| cursor := S (cursor j);
         actives := actives j ++ [mkActive (cursor j) 0 (tl op)];
         completed := completed j;
         rejected := rejected j;
         store := match op with [] => store j | s :: _ => s (store j) end |}
  end.

(** Modelled from the spec: pending operations are started one after the
    other while [can_start] allows; [fuel] bounds the number of starts. *)
Fixpoint fill (fuel : nat) (j : Job) : Job :=
  match fuel with
  | O => j
  | S fuel' => if can_start j then fill fuel' (start_next j) else j
  end.

(** Modelled from the spec: the sliding window, which starts pending
    operations, in the order of the list, until the cap is reached. *)
Definition parallelExecute (j : Job) : Job :=
  fill (Pos.to_nat concurrency) j.

(** Modelled from the spec: the awaited call of [a] settles. A rejection
    ends the task and is recorded; otherwise the next segment runs, and the
    task is complete after its last segment. *)
Definition resume (a : Active) (others : list Active) (j : Job) : Job :=
  match settles (a_index a) (a_await a) with
  | Some e =>
      mkJob (cursor j) others (completed j)
            (rejected j ++ [(a_index a, e)]) (store j)
  | None =>
      match a_rest a with
      | [] =>
          mkJob (cursor j) others (completed j ++ [a_index a])
                (rejected j) (store j)
      | [s] =>
          mkJob (cursor j) others (completed j ++ [a_index a])
                (rejected j) (s (store j))
      | s :: rest =>
          mkJob (cursor j)
                (others ++ [mkActive (a_index a) (S (a_await a)) rest])
                (completed j) (rejected j) (s (store j))
      end
  end.

(** Modelled from the spec: completion order is unconstrained; the choice
    [pick] of the schedule names the active task that is resumed next. *)
Definition deliver (pick : nat) (j : Job) : Job :=
  let p := (pick mod length (actives j))%nat in
  match nth_error (actives j) p with
  | None => j
  | Some a => resume a (firstn p (actives j) ++ skipn (S p) (actives j)) j
  end.

(** Modelled from the spec: one entry of the schedule per settled [await];
    as a task finishes the next pending one is started. The job is at rest
    when no task is active. *)
Fixpoint drive (sched : list nat) (j : Job) : Job :=
  match sched with
  | [] => j
  | pick :: sched' =>
      match actives j with
      | [] => j
      | _ :: _ => drive sched' (parallelExecute (deliver pick j))
      end
  end.

(** Modelled from the spec: [do] starts the first tasks and lets the
    schedule run; the job it returns is the state when the schedule is used
    up. *)
Definition do (sched : list nat) (st : St) : Job :=
  drive sched (parallelExecute (init st)).

(** Modelled from the spec: the batch returns once the started tasks have
    drained, with the first error if there was one. *)
Definition outcome (j : Job) : Promise unit :=
  match actives j with
  | _ :: _ => Unsettled
  | [] =>
      match rejected j with
      | (_, e) :: _ => Rejected e
      | [] => Fulfilled tt
      end
  end.

(** *** Vocabulary for the proofs about the executor *)

(** The [await]s a suspended task has still to pass: one per remaining
    segment, and one for a task without any. *)
Definition weight (rest : list (St -> St)) : nat := Nat.max 1 (length rest).

(** The [await]s that have still to settle before the job is at rest. *)
Definition pending (j : Job) : nat :=
  (list_sum (map (fun a => weight (a_rest a)) (actives j)) +
   match rejected j with
   | [] => list_sum (map (fun op => weight (tl op)) (skipn (cursor j) operations))
   | _ :: _ => 0
   end)%nat.

(** A suspended task holds the segments of its operation that follow the
    [await] it is at, and its earlier [await]s were fulfilled. *)
Definition linked (a : Active) : Prop :=
  a_rest a = skipn (S (a_await a)) (nth (a_index a) operations []) /\
  (a_await a = 0%nat \/ a_rest a <> []) /\
  (forall k, (k < a_await a)%nat -> settles (a_index a) k = None).

(** The bookkeeping of a job: the operations before the cursor are the
    completed, the rejected and the active ones; a rejection carries the
    error of an [await] of its task; a completed task had all its [await]s
    fulfilled. *)
Definition wf (j : Job) : Prop :=
  (cursor j <= length operations)%nat /\
  Permutation (completed j ++ map fst (rejected j) ++ map a_index (actives j))
              (seq 0 (cursor j)) /\
  Forall linked (actives j) /\
  (forall i e, In (i, e) (rejected j) -> exists k, settles i k = Some e) /\
  (forall i, In i (completed j) ->
     forall k, (k < weight (tl (nth i operations [])))%nat -> settles i k = None).

(** A property of jobs that starting a task and resuming a task keep. *)
Definition preserved (Inv : Job -> Prop) : Prop :=
  (forall j, Inv j -> can_start j = true -> Inv (start_next j)) /\
  (forall j a pre post,
     Inv j -> actives j = pre ++ a :: post -> Inv (resume a (pre ++ post) j)).

End Executor.
End Batch.

(** ** Options objects and the remote service *)

(** [BlobHTTPHeaders] and [IBlobAccessConditions] are declared outside the
    sources; all that matters of them here is whether an object is there and
    that the empty object [{}] has nothing set. *)
Record BlobHTTPHeaders : Type := mkHeaders {
  blobContentType : option nat
}.

Record IBlobAccessConditions : Type := mkConditions {
  leaseAccessConditions : option nat
}.

Definition empty_headers : BlobHTTPHeaders := {| blobContentType := None |}.
Definition empty_conditions : IBlobAccessConditions :=
  {| leaseAccessConditions := None |}.

(** [!v] for an optional number: [undefined] and [0] are falsy. *)
Definition falsy (v : option Z) : bool :=
  match v with
  | None => true
  | Some n => n =? 0
  end.

(** The number a field holds once it was defaulted. *)
Definition number (v : option Z) : Z :=
  match v with
  | None => 0
  | Some n => n
  end.

(** How the remote operations end: [None] when the operation succeeds,
    [Some code] when it fails with the service error [code];
    [getProperties] answers with the content length. The chunk operations
    are indexed by the position of their task in the batch. *)
Record Remote : Type := mkRemote {
  upload_settles : option nat;
  stageBlock_settles : nat -> option nat;
  commitBlockList_settles : option nat;
  getProperties_settles : nat + Z;
  download_settles : nat -> option nat;
  streamToBuffer_settles : nat -> option nat
}.

Definition failure (s : option nat) : option Error :=
  match s with
  | None => None
  | Some code => Some (TransferFailure code)
  end.

Definition settled (r : Response) (s : option nat) : Promise Response :=
  match s with
  | None => Fulfilled r
  | Some code => Rejected (TransferFailure code)
  end.

Definition push (blockID : BlockID) (h : Heap) : Heap :=
  {| blockList := blockList h ++ [blockID]; blockNum := blockNum h;
     transferProgress := transferProgress h; calls := calls h |}.

Definition add_progress (n : Z) (h : Heap) : Heap :=
  {| blockList := blockList h; blockNum := blockNum h;
     transferProgress := transferProgress h + n; calls := calls h |}.

Definition next_blockNum (h : Heap) : Heap :=
  {| blockList := blockList h; blockNum := blockNum h + 1;
     transferProgress := transferProgress h; calls := calls h |}.

(** [if (options.progress) options.progress ({loadedBytes, totalBytes})]. *)
Definition report (callback : bool) (totalBytes : option Z) (h : Heap) : Heap :=
  if callback then call (progress (transferProgress h) totalBytes) h else h.

(** A promise of the batch seen from the orchestrator: [await] passes a
    rejection on and continues with [k] after a fulfilment. *)
Definition await {A B : Type} (p : Promise A) (k : A -> Promise B) : Promise B :=
  match p with
  | Fulfilled a => k a
  | Rejected e => Rejected e
  | Unsettled => Unsettled
  end.

(** ** UploadResetableStreamToBlockBlob (and UploadFileToBlockBlob) *)

Module IUploadToBlockBlobOptions.

Record t : Type := mk {
  blockSize : option Z;
  parallelism : option positive;
  progress : bool;
  blobHTTPHeaders : option BlobHTTPHeaders;
  blobAccessConditions : option IBlobAccessConditions
}.

Definition set_blockSize (n : Z) (o : t) : t :=
  {| blockSize := Some n; parallelism := parallelism o; progress := progress o;
     blobHTTPHeaders := blobHTTPHeaders o;
     blobAccessConditions := blobAccessConditions o |}.

Definition set_blobHTTPHeaders (v : BlobHTTPHeaders) (o : t) : t :=
  {| blockSize := blockSize o; parallelism := parallelism o; progress := progress o;
     blobHTTPHeaders := Some v;
     blobAccessConditions := blobAccessConditions o |}.

Definition set_blobAccessConditions (v : IBlobAccessConditions) (o : t) : t :=
  {| blockSize := blockSize o; parallelism := parallelism o; progress := progress o;
     blobHTTPHeaders := blobHTTPHeaders o;
     blobAccessConditions := Some v |}.

End IUploadToBlockBlobOptions.

Module Upload.
Import IUploadToBlockBlobOptions.

Section WithConstants.

Variable K : Constants.

(** Lines 92-119: the statements that validate and default the options
    object. The result is the object as they leave it and the error thrown,
    if any. *)
Definition configure (size : Z) (options : t) : t * option Error :=
  let options :=
    if falsy (blockSize options) then set_blockSize 0 options else options in
  if (number (blockSize options) <? 0)
     || (number (blockSize options) >? BLOCK_BLOB_MAX_UPLOAD_BLOB_BYTES K)
  then (options, Some BlockSizeOutOfRange)
  else
    let '(options, thrown) :=
      if number (blockSize options) =? 0 then
        if size >? BLOCK_BLOB_MAX_STAGE_BLOCK_BYTES K * BLOCK_BLOB_MAX_BLOCKS K
        then (options, Some (SizeTooLarge size))
        else if size >? BLOCK_BLOB_MAX_UPLOAD_BLOB_BYTES K then
          let options :=
            set_blockSize (Math_ceil_div size (BLOCK_BLOB_MAX_BLOCKS K)) options in
          (if number (blockSize options) <? BLOB_DEFAULT_DOWNLOAD_BLOCK_BYTES K
           then set_blockSize (BLOB_DEFAULT_DOWNLOAD_BLOCK_BYTES K) options
           else options, None)
        else (options, None)
      else (options, None) in
    match thrown with
    | Some e => (options, Some e)
    | None =>
        let options :=
          match blobHTTPHeaders options with
          | None => set_blobHTTPHeaders empty_headers options
          | Some _ => options
          end in
        let options :=
          match blobAccessConditions options with
          | None => set_blobAccessConditions empty_conditions options
          | Some _ => options
          end in
        (options, None)
    end.

(** [numBlocks] of line 125. *)
Definition numBlocks (size : Z) (options : t) : Z :=
  Math_floor_div (size - 1) (number (blockSize options)) + 1.

(** [contentLength] of the [i]-th chunk task, lines 141-143. *)
Definition contentLength (size : Z) (options : t) (i : Z) : Z :=
  let start := number (blockSize options) * i in
  let end_ :=
    if i =? numBlocks size options - 1 then size
    else start + number (blockSize options) in
  end_ - start.

(** The operation line 138 adds for index [i]: up to the [await] it records
    the block id and calls [stageBlock]; after it, progress is updated.
    [options.blockSize] and [options.progress] are not written after line
    119, so the task reads them as they are then. *)
Definition stageTask (size : Z) (options : t) (i : Z) : Batch.Operation :=
  let blockID := generateBlockID i in
  let start := number (blockSize options) * i in
  [ fun h =>
      call (stageBlock blockID
              (streamFactory start (contentLength size options i))
              (contentLength size options i))
           (push blockID h);
    fun h =>
      report (progress options) (Some size)
             (add_progress (contentLength size options i) h) ].

(** The loop of lines 137-162. *)
Definition operations (size : Z) (options : t) : list (@Batch.Operation Heap) :=
  map (fun i => stageTask size options (Z.of_nat i))
      (seq 0 (Z.to_nat (numBlocks size options))).

Definition concurrency (options : t) : positive :=
  match parallelism options with
  | Some c => c
  | None => BATCH_DEFAULT_CONCURRENCY K
  end.

(** The job of [batch.do ()] of line 163 under a schedule. *)
Definition batch (R : Remote) (sched : list nat) (size : Z) (options : t)
  : @Batch.Job Heap :=
  Batch.do (operations size options) (concurrency options)
           (fun i _ => failure (stageBlock_settles R i)) sched empty_heap.

(** The function: the promise it returns, the caller's options object and
    the heap when the schedule is used up. *)
Definition UploadResetableStreamToBlockBlob
  (R : Remote) (sched : list nat) (size : Z) (options : t)
  : Promise Response * t * Heap :=
  match configure size options with
  | (options, Some e) => (Rejected e, options, empty_heap)
  | (options, None) =>
      if size <=? BLOCK_BLOB_MAX_UPLOAD_BLOB_BYTES K then
        (settled BlockBlobUploadResponse (upload_settles R), options,
         call (upload size) empty_heap)
      else if numBlocks size options >? BLOCK_BLOB_MAX_BLOCKS K then
        (Rejected TooManyBlocks, options, empty_heap)
      else
        let job := batch R sched size options in
        let h := Batch.store job in
        match Batch.outcome job with
        | Fulfilled _ =>
            (settled BlockBlobCommitBlockListResponse (commitBlockList_settles R),
             options, call (commitBlockList (blockList h)) h)
        | Rejected e => (Rejected e, options, h)
        | Unsettled => (Unsettled, options, h)
        end
  end.

(** The call takes the chunked path: the options are accepted, the size
    is over the single-shot limit and the block count within its limit. *)
Definition chunked (size : Z) (options : t) : Prop :=
  snd (configure size options) = None /\
  BLOCK_BLOB_MAX_UPLOAD_BLOB_BYTES K < size /\
  numBlocks size (fst (configure size options)) <= BLOCK_BLOB_MAX_BLOCKS K.

(** The number of chunk tasks of the call. *)
Definition chunks (size : Z) (options : t) : nat :=
  Z.to_nat (numBlocks size (fst (configure size options))).

(** [UploadFileToBlockBlob] passes the size of the file and its options on. *)
Definition UploadFileToBlockBlob
  (R : Remote) (sched : list nat) (fileSize : Z) (options : t)
  : Promise Response * t * Heap :=
  UploadResetableStreamToBlockBlob R sched fileSize options.

End WithConstants.
End Upload.

(** ** DownloadBlobToBuffer *)

Module IDownloadFromBlobOptions.

Record t : Type := mk {
  blockSize : option Z;
  parallelism : option positive;
  progress : bool;
  blobAccessConditions : option IBlobAccessConditions
}.

Definition set_blockSize (n : Z) (o : t) : t :=
  {| blockSize := Some n; parallelism := parallelism o; progress := progress o;
     blobAccessConditions := blobAccessConditions o |}.

Definition set_blobAccessConditions (v : IBlobAccessConditions) (o : t) : t :=
  {| blockSize := blockSize o; parallelism := parallelism o; progress := progress o;
     blobAccessConditions := Some v |}.

End IDownloadFromBlobOptions.

Module Download.
Import IDownloadFromBlobOptions.

Section WithConstants.

Variable K : Constants.

(** Lines 192-212: validation and defaulting, before the first [await]. *)
Definition configure (offset count : Z) (options : t) : t * option Error :=
  let options :=
    if falsy (blockSize options) then set_blockSize 0 options else options in
  if number (blockSize options) <? 0 then (options, Some NegativeBlockSize)
  else
    let options :=
      if number (blockSize options) =? 0
      then set_blockSize (BLOB_DEFAULT_DOWNLOAD_BLOCK_BYTES K) options
      else options in
    if offset <? 0 then (options, Some NegativeOffset)
    else if count <? 0 then (options, Some NegativeCount)
    else
      let options :=
        match blobAccessConditions options with
        | None => set_blobAccessConditions empty_conditions options
        | Some _ => options
        end in
      (options, None).

(** The values [off] takes in the loop of line 231. The loop runs at most
    [count] times when the block size is positive, which it is after the
    defaulting when the default is. *)
Fixpoint loop (fuel : nat) (off limit blockSize : Z) : list Z :=
  match fuel with
  | O => []
  | S fuel' =>
      if off <? limit then off :: loop fuel' (off + blockSize) limit blockSize
      else []
  end.

Definition offsets (offset count : Z) (options : t) : list Z :=
  loop (Z.to_nat count) offset (offset + count) (number (blockSize options)).

(** [chunkEnd] of lines 233-234. *)
Definition chunkEnd (count : Z) (options : t) (off : Z) : Z :=
  if off + number (blockSize options) <? count
  then off + number (blockSize options)
  else count.

(** The operation line 232 adds for [off]: the ranged read, then the copy
    of the response stream into the buffer from [off - offset] up to
    [chunkEnd - offset], then the progress update. *)
Definition rangeTask (offset count : Z) (options : t) (off : Z)
  : Batch.Operation :=
  [ fun h =>
      call (download off (chunkEnd count options off - off + 1)) h;
    fun h =>
      call (streamToBuffer (off - offset) (chunkEnd count options off - offset)) h;
    fun h =>
      report (progress options) (Some count)
             (add_progress (chunkEnd count options off - off) h) ].

Definition operations (offset count : Z) (options : t)
  : list (@Batch.Operation Heap) :=
  map (rangeTask offset count options) (offsets offset count options).

(** The range asked by the [i]-th task, the region of the buffer it copies
    into, and the bytes it adds to the progress. *)
Definition range_of (offset count : Z) (options : t) (i : nat) : Z * Z :=
  let off := nth i (offsets offset count options) 0 in
  (off, off + (chunkEnd count options off - off + 1)).

Definition region_of (offset count : Z) (options : t) (i : nat) : Z * Z :=
  let off := nth i (offsets offset count options) 0 in
  (off - offset, chunkEnd count options off - offset).

Definition length_of (offset count : Z) (options : t) (i : nat) : Z :=
  let off := nth i (offsets offset count options) 0 in
  chunkEnd count options off - off.

Definition concurrency (options : t) : positive :=
  match parallelism options with
  | Some c => c
  | None => BATCH_DEFAULT_CONCURRENCY K
  end.

Definition range_settles (R : Remote) (i k : nat) : option Error :=
  match k with
  | O => failure (download_settles R i)
  | S _ => failure (streamToBuffer_settles R i)
  end.

(** Lines 223-250, once [count] is known: the buffer check and the batch,
    started from heap [h]. *)
Definition transfer
  (R : Remote) (sched : list nat) (offset count bufferLength : Z)
  (options : t) (h : Heap) : Promise Response * Heap :=
  if bufferLength <? count then (Rejected (BufferTooSmall count), h)
  else
    let job :=
      Batch.do (operations offset count options) (concurrency options)
               (range_settles R) sched h in
    (await (Batch.outcome job) (fun _ => Fulfilled Void), Batch.store job).

(** The function; [bufferLength] is [buffer.length]. *)
Definition DownloadBlobToBuffer
  (R : Remote) (sched : list nat) (offset count bufferLength : Z) (options : t)
  : Promise Response * t * Heap :=
  match configure offset count options with
  | (options, Some e) => (Rejected e, options, empty_heap)
  | (options, None) =>
      if count =? 0 then
        let h := call getProperties empty_heap in
        match getProperties_settles R with
        | inl code => (Rejected (TransferFailure code), options, h)
        | inr contentLength =>
            let count := contentLength - offset in
            if count <? 0 then (Rejected (NegativeResolvedCount count), options, h)
            else
              let '(p, h) := transfer R sched offset count bufferLength options h in
              (p, options, h)
        end
      else
        let '(p, h) :=
          transfer R sched offset count bufferLength options empty_heap in
        (p, options, h)
  end.

End WithConstants.
End Download.

(** ** UploadStreamToBlockBlob *)

Module IUploadStreamToBlockBlobOptions.

Record t : Type := mk {
  blobHTTPHeaders : option BlobHTTPHeaders;
  accessConditions : option IBlobAccessConditions;
  progress : bool
}.

Definition set_blobHTTPHeaders (v : BlobHTTPHeaders) (o : t) : t :=
  {| blobHTTPHeaders := Some v; accessConditions := accessConditions o;
     progress := progress o |}.

Definition set_accessConditions (v : IBlobAccessConditions) (o : t) : t :=
  {| blobHTTPHeaders := blobHTTPHeaders o; accessConditions := Some v;
     progress := progress o |}.

End IUploadStreamToBlockBlobOptions.

Module BufferScheduler.

(** Modelled from the spec: [utils/BufferScheduler] is not among the
    sources. The stream is read once, in order, into buffers of
    [bufferSize] bytes; at the end of the stream a partially filled buffer
    is still dispatched. The result is the lengths of the buffers handed to
    the outgoing handler, in source order. *)
Definition buffers (streamLength bufferSize : Z) : list Z :=
  repeat bufferSize (Z.to_nat (streamLength / bufferSize))
  ++ (if 0 <? streamLength mod bufferSize
      then [streamLength mod bufferSize] else []).

(** Modelled from the spec: the filled buffers are dispatched to the
    handler in source order under the cap [parallelism]; a failure halts
    further dispatch, lets the dispatches in flight drain and surfaces the
    first error. That is the discipline of the batch executor. *)
Definition do {St : Type}
  (streamLength bufferSize : Z) (outgoingHandler : Z -> @Batch.Operation St)
  (parallelism : positive) (settles : nat -> nat -> option Error)
  (sched : list nat) (st : St) : @Batch.Job St :=
  Batch.do (map outgoingHandler (buffers streamLength bufferSize))
           parallelism settles sched st.

End BufferScheduler.

Module UploadStream.
Import IUploadStreamToBlockBlobOptions.

(** Lines 320-325. *)
Definition configure (options : t) : t :=
  let options :=
    match blobHTTPHeaders options with
    | None => set_blobHTTPHeaders empty_headers options
    | Some _ => options
    end in
  match accessConditions options with
  | None => set_accessConditions empty_conditions options
  | Some _ => options
  end.

(** The outgoing handler of lines 335-349 for a buffer of [length] bytes. *)
Definition outgoingHandler (options : t) (length : Z) : Batch.Operation :=
  [ fun h =>
      let blockID := generateBlockID (blockNum h) in
      call (stageBlock blockID (Buffer length) length)
           (next_blockNum (push blockID h));
    fun h =>
      report (progress options) None (add_progress length h) ].

(** [Math.ceil ((maxBuffers / 4) * 3)] of line 354. *)
Definition outgoingConcurrency (maxBuffers : Z) : positive :=
  Z.to_pos (Math_ceil_div (maxBuffers * 3) 4).

Definition scheduler
  (R : Remote) (sched : list nat) (streamLength bufferSize maxBuffers : Z)
  (options : t) : @Batch.Job Heap :=
  BufferScheduler.do streamLength bufferSize (outgoingHandler options)
    (outgoingConcurrency maxBuffers)
    (fun i _ => failure (stageBlock_settles R i)) sched empty_heap.

(** The function; the stream is given by the number of bytes it delivers. *)
Definition UploadStreamToBlockBlob
  (R : Remote) (sched : list nat) (streamLength bufferSize maxBuffers : Z)
  (options : t) : Promise Response * t * Heap :=
  let options := configure options in
  let job := scheduler R sched streamLength bufferSize maxBuffers options in
  let h := Batch.store job in
  match Batch.outcome job with
  | Fulfilled _ =>
      (settled BlockBlobCommitBlockListResponse (commitBlockList_settles R),
       options, call (commitBlockList (blockList h)) h)
  | Rejected e => (Rejected e, options, h)
  | Unsettled => (Unsettled, options, h)
  end.

End UploadStream.

(** ** Vocabulary of the claims *)

(** The block lists handed to [commitBlockList], in call order. *)
Fixpoint commits (cs : list Call) : list (list BlockID) :=
  match cs with
  | [] => []
  | commitBlockList l :: cs' => l :: commits cs'
  | _ :: cs' => commits cs'
  end.

(** The ranges asked of [download] and the regions of the buffer handed to
    [streamToBuffer], in call order; a pair is (first position, position
    after the last). *)
Fixpoint ranges (cs : list Call) : list (Z * Z) :=
  match cs with
  | [] => []
  | download off cnt :: cs' => (off, off + cnt) :: ranges cs'
  | _ :: cs' => ranges cs'
  end.

Fixpoint regions (cs : list Call) : list (Z * Z) :=
  match cs with
  | [] => []
  | streamToBuffer lo hi :: cs' => (lo, hi) :: regions cs'
  | _ :: cs' => regions cs'
  end.

(** The content lengths handed to [stageBlock], in call order. *)
Fixpoint staged_lengths (cs : list Call) : list Z :=
  match cs with
  | [] => []
  | stageBlock _ _ n :: cs' => n :: staged_lengths cs'
  | _ :: cs' => staged_lengths cs'
  end.

(** The block ids handed to [stageBlock], in call order. *)
Fixpoint staged_ids (cs : list Call) : list BlockID :=
  match cs with
  | [] => []
  | stageBlock blockID _ _ :: cs' => blockID :: staged_ids cs'
  | _ :: cs' => staged_ids cs'
  end.

(** The ids of the first [n] chunks, in index order. *)
Definition blockIDs (n : nat) : list BlockID :=
  map (fun i => generateBlockID (Z.of_nat i)) (seq 0 n).

(** The sum of [f] over the indices of [l]. *)
Definition total (f : nat -> Z) (l : list nat) : Z :=
  fold_right (fun i acc => f i + acc) 0 l.

(** Every one of the first [n] chunk tasks has its [stageBlock] fulfilled. *)
Definition all_staged (R : Remote) (n : nat) : Prop :=
  forall i, (i < n)%nat -> stageBlock_settles R i = None.

(** What the staging tasks keep true of the heap at every moment of a batch:
    the block list holds the ids of the tasks started so far, the progress
    is the sum of the lengths of the completed ones, nothing was committed,
    and the block list is the list of the ids [stageBlock] was called with. *)
Definition staging (len : nat -> Z) (j : @Batch.Job Heap) : Prop :=
  blockList (Batch.store j) = blockIDs (Batch.cursor j) /\
  transferProgress (Batch.store j) = total len (Batch.completed j) /\
  commits (calls (Batch.store j)) = [] /\
  staged_ids (calls (Batch.store j)) = blockList (Batch.store j).

(** The upload commits once exactly when every chunk was staged, and
    otherwise returns the error of a chunk that failed. *)
Definition commits_iff_all_staged
  (R : Remote) (n : nat) (p : Promise Response) (h : Heap) : Prop :=
  (all_staged R n ->
     p = settled BlockBlobCommitBlockListResponse (commitBlockList_settles R) /\
     length (commits (calls h)) = 1%nat) /\
  (length (commits (calls h)) = 1%nat -> all_staged R n) /\
  ((exists i, (i < n)%nat /\ stageBlock_settles R i <> None) ->
     length (commits (calls h)) = 0%nat /\
     exists i code, (i < n)%nat /\ stageBlock_settles R i = Some code /\
                    p = Rejected (TransferFailure code)).

(** The counter of the streaming upload is the number of handlers started. *)
Definition numbered (j : @Batch.Job Heap) : Prop :=
  blockNum (Batch.store j) = Z.of_nat (Batch.cursor j).

(** What holds of a chunk task's bookkeeping at every moment: the block list
    is the list of the ids [stageBlock] was called with, which are the ids
    of all the tasks started so far, so that a task that failed or is still
    waiting for [stageBlock] has its id in the list; the progress is the sum
    of the lengths of the completed tasks, and a task only completes after
    its [stageBlock] succeeded. *)
Definition recorded_at_call (R : Remote) (len : nat -> Z) (j : @Batch.Job Heap)
  : Prop :=
  staged_ids (calls (Batch.store j)) = blockList (Batch.store j) /\
  blockList (Batch.store j) = blockIDs (Batch.cursor j) /\
  (forall i,
     In i (map fst (Batch.rejected j)) \/ In i (map Batch.a_index (Batch.actives j)) ->
     In (generateBlockID (Z.of_nat i)) (blockList (Batch.store j))) /\
  transferProgress (Batch.store j) = total len (Batch.completed j) /\
  (forall i, In i (Batch.completed j) -> stageBlock_settles R i = None).

(** An optional field after [if (!options.field) options.field = d]. *)
Definition defaulted {A : Type} (d : A) (v : option A) : option A :=
  match v with
  | Some x => Some x
  | None => Some d
  end.

(** The tasks of a download whose ranged read was answered: the completed
    ones and the ones suspended in [streamToBuffer]. *)
Definition copying (j : @Batch.Job Heap) : list nat :=
  Batch.completed j
  ++ map Batch.a_index
       (filter (fun a => negb (Batch.a_await a =? 0)%nat) (Batch.actives j)).

(** What the ranged-read tasks keep true of the heap at every moment of a
    batch: the reads were issued in task order, the buffer regions written
    are those of the tasks whose read was answered, and the progress is the
    sum of the lengths of the completed tasks. *)
Definition reading (range_of region_of : nat -> Z * Z) (len : nat -> Z)
  (j : @Batch.Job Heap) : Prop :=
  ranges (calls (Batch.store j)) = map range_of (seq 0 (Batch.cursor j)) /\
  (Batch.rejected j = [] ->
   Permutation (regions (calls (Batch.store j))) (map region_of (copying j))) /\
  transferProgress (Batch.store j) = total len (Batch.completed j).

(** The [k]-th of the consecutive blocks of [blockSize] bytes that make
    [0, count), the last one possibly shorter. *)
Definition tile (blockSize count : Z) (k : nat) : Z * Z :=
  (Z.of_nat k * blockSize, Z.min ((Z.of_nat k + 1) * blockSize) count).

(** [l] is a list of non-empty consecutive intervals from [lo] to [hi]:
    they are pairwise disjoint and their union is [lo, hi). *)
Fixpoint tiles (lo hi : Z) (l : list (Z * Z)) : Prop :=
  match l with
  | [] => lo = hi
  | (a, b) :: l' => a = lo /\ a < b /\ tiles b hi l'
  end.

(** ** Inputs of the closed examples *)

Definition MB : Z := 1024 * 1024.

(** A service on which every operation succeeds, with a blob of [L] bytes. *)
Definition blob_of (L : Z) : Remote :=
  {| upload_settles := None;
     stageBlock_settles := fun _ => None;
     commitBlockList_settles := None;
     getProperties_settles := inr L;
     download_settles := fun _ => None;
     streamToBuffer_settles := fun _ => None |}.

(** A service on which staging the chunk of task [i] fails with [code]. *)
Definition chunk_fails (i code : nat) : Remote :=
  {| upload_settles := None;
     stageBlock_settles := fun k => if Nat.eqb k i then Some code else None;
     commitBlockList_settles := None;
     getProperties_settles := inr 0;
     download_settles := fun _ => None;
     streamToBuffer_settles := fun _ => None |}.

Definition upload_options (blockSize : option Z) : IUploadToBlockBlobOptions.t :=
  {| IUploadToBlockBlobOptions.blockSize := blockSize;
     IUploadToBlockBlobOptions.parallelism := None;
     IUploadToBlockBlobOptions.progress := false;
     IUploadToBlockBlobOptions.blobHTTPHeaders := None;
     IUploadToBlockBlobOptions.blobAccessConditions := None |}.

Definition download_options (blockSize : option Z) : IDownloadFromBlobOptions.t :=
  {| IDownloadFromBlobOptions.blockSize := blockSize;
     IDownloadFromBlobOptions.parallelism := None;
     IDownloadFromBlobOptions.progress := false;
     IDownloadFromBlobOptions.blobAccessConditions := None |}.

Definition stream_options : IUploadStreamToBlockBlobOptions.t :=
  {| IUploadStreamToBlockBlobOptions.blobHTTPHeaders := None;
     IUploadStreamToBlockBlobOptions.accessConditions := None;
     IUploadStreamToBlockBlobOptions.progress := false |}.

(** ** Vocabulary of the further properties *)

(** The stream factory [UploadFileToBlockBlob] hands on, lines 52-57: the
    positions of the file that [fs.createReadStream] is asked for, from
    [start] to [end] inclusive, with [None] for [Infinity]. A [count] that
    is absent or 0 is falsy. *)
Definition fileStreamFactory (offset : Z) (count : option Z) : Z * option Z :=
  (offset, if falsy count then None else Some (offset + number count - 1)).

(** The positions of the file a body of [stageBlock] reads when it comes
    from that factory. *)
Definition body_stream (body : Body) : option (Z * option Z) :=
  match body with
  | streamFactory offset count => Some (fileStreamFactory offset (Some count))
  | Buffer _ => None
  end.

(** The arguments of the [stageBlock] calls, in call order. *)
Fixpoint stages (cs : list Call) : list (BlockID * Body * Z) :=
  match cs with
  | [] => []
  | stageBlock blockID body n :: cs' => (blockID, body, n) :: stages cs'
  | _ :: cs' => stages cs'
  end.

(** The arguments of the progress callbacks, in call order. *)
Fixpoint reports (cs : list Call) : list (Z * option Z) :=
  match cs with
  | [] => []
  | progress loadedBytes totalBytes :: cs' => (loadedBytes, totalBytes) :: reports cs'
  | _ :: cs' => reports cs'
  end.

(** [l] increases strictly, from above [lo]. *)
Fixpoint increasing (lo : Z) (l : list Z) : Prop :=
  match l with
  | [] => True
  | x :: l' => lo < x /\ increasing x l'
  end.

(** What line 145 hands to [stageBlock] for chunk [i] of a ranged upload. *)
Definition stage_of (size : Z) (options : IUploadToBlockBlobOptions.t) (i : nat)
  : BlockID * Body * Z :=
  (generateBlockID (Z.of_nat i),
   streamFactory (number (IUploadToBlockBlobOptions.blockSize options) * Z.of_nat i)
                 (Upload.contentLength size options (Z.of_nat i)),
   Upload.contentLength size options (Z.of_nat i)).

(** What the chunk tasks keep true of the log at every moment of a batch:
    the [stageBlock] calls are those of the chunks started so far, in index
    order; with a progress callback, one report was made per completed
    chunk, the reports increase strictly up to the progress, and each names
    the size as the total. *)
Definition logging (size : Z) (options : IUploadToBlockBlobOptions.t)
  (j : @Batch.Job Heap) : Prop :=
  stages (calls (Batch.store j)) = map (stage_of size options) (seq 0 (Batch.cursor j)) /\
  (IUploadToBlockBlobOptions.progress options = true ->
   length (reports (calls (Batch.store j))) = length (Batch.completed j) /\
   increasing 0 (map fst (reports (calls (Batch.store j)))) /\
   last (map fst (reports (calls (Batch.store j)))) 0 = transferProgress (Batch.store j) /\
   Forall (fun r => snd r = Some size) (reports (calls (Batch.store j)))) /\
  (IUploadToBlockBlobOptions.progress options = false ->
   reports (calls (Batch.store j)) = []).

(** Two heaps that differ by the calls [cs] made before the first one's. *)
Definition behind (cs : list Call) (h h' : Heap) : Prop :=
  blockList h = blockList h' /\ blockNum h = blockNum h' /\
  transferProgress h = transferProgress h' /\ calls h = cs ++ calls h'.

(** Two jobs of a batch that differ by their stores only, which are
    [related], and whose suspended tasks keep the stores related. *)
Definition alike {St : Type} (related : St -> St -> Prop) (j j' : @Batch.Job St)
  : Prop :=
  Batch.cursor j = Batch.cursor j' /\
  Batch.actives j = Batch.actives j' /\
  Batch.completed j = Batch.completed j' /\
  Batch.rejected j = Batch.rejected j' /\
  related (Batch.store j) (Batch.store j') /\
  Forall (fun a => forall s, In s (Batch.a_rest a) ->
                   forall st st', related st st' -> related (s st) (s st'))
         (Batch.actives j).

(** * Properties *)

(** ** The batch executor *)

Ltac job_simpl :=
  cbn [Batch.cursor Batch.actives Batch.completed Batch.rejected Batch.store
       Batch.a_index Batch.a_await Batch.a_rest] in *.

Ltac case_if :=
  match goal with
  | |- context [if ?b then _ else _] => destruct b eqn:?
  | H : context [if ?b then _ else _] |- _ => destruct b eqn:?
  end.

Ltac comparisons :=
  repeat match goal with
  | H : (_ <? _) = true |- _ => apply Z.ltb_lt in H
  | H : (_ <? _) = false |- _ => apply Z.ltb_ge in H
  | H : (_ =? _) = true |- _ => apply Z.eqb_eq in H
  | H : (_ =? _) = false |- _ => apply Z.eqb_neq in H
  | H : (_ >? _) = true |- _ => rewrite Z.gtb_ltb in H
  | H : (_ >? _) = false |- _ => rewrite Z.gtb_ltb in H
  | H : (_ <=? _) = true |- _ => apply Z.leb_le in H
  | H : (_ <=? _) = false |- _ => apply Z.leb_gt in H
  end.

Section BatchFacts.

Context {St : Type}.
Variable operations : list (@Batch.Operation St).
Variable concurrency : positive.
Variable settles : nat -> nat -> option Error.

Local Abbreviation Job := (@Batch.Job St).
Local Abbreviation can_start := (@Batch.can_start St operations concurrency).
Local Abbreviation start_next := (@Batch.start_next St operations).
Local Abbreviation fill := (@Batch.fill St operations concurrency).
Local Abbreviation parallelExecute := (@Batch.parallelExecute St operations concurrency).
Local Abbreviation resume := (@Batch.resume St settles).
Local Abbreviation deliver := (@Batch.deliver St settles).
Local Abbreviation drive := (@Batch.drive St operations concurrency settles).
Local Abbreviation run := (@Batch.do St operations concurrency settles).
Local Abbreviation wf := (@Batch.wf St operations settles).
Local Abbreviation preserved := (@Batch.preserved St operations concurrency settles).
Local Abbreviation pending := (@Batch.pending St operations).

Lemma nth_error_middle (A : Type) (l : list A) (p : nat) (a : A) :
  nth_error l p = Some a -> l = firstn p l ++ a :: skipn (S p) l.
Proof.
  revert p; induction l as [|x l IH]; intros [|p] H; simpl in *; try discriminate.
  - now inversion H.
  - f_equal. now apply IH.
Qed.

Lemma deliver_cases (pick : nat) (j : Job) :
  (Batch.actives j = [] /\ deliver pick j = j) \/
  (exists a pre post,
      Batch.actives j = pre ++ a :: post /\ deliver pick j = resume a (pre ++ post) j).
Proof.
  unfold Batch.deliver.
  destruct (Batch.actives j) as [|a0 l] eqn:E.
  - left. split; [reflexivity|]. now destruct (pick mod length (@nil Batch.Active))%nat.
  - right.
    assert (Hp : (pick mod length (a0 :: l) < length (a0 :: l))%nat)
      by (apply Nat.mod_upper_bound; simpl; lia).
    destruct (nth_error (a0 :: l) (pick mod length (a0 :: l))) as [a|] eqn:N.
    + exists a, (firstn (pick mod length (a0 :: l)) (a0 :: l)),
        (skipn (S (pick mod length (a0 :: l))) (a0 :: l)).
      split; [now apply nth_error_middle | reflexivity].
    + apply nth_error_None in N. lia.
Qed.

Lemma fill_preserves (Inv : Job -> Prop) :
  preserved Inv -> forall fuel j, Inv j -> Inv (fill fuel j).
Proof.
  intros [Hs _]; induction fuel as [|fuel IH]; intros j Hj; simpl; [assumption|].
  destruct (can_start j) eqn:E; [|assumption].
  apply IH. now apply Hs.
Qed.

Lemma drive_preserves (Inv : Job -> Prop) :
  preserved Inv -> forall sched j, Inv j -> Inv (drive sched j).
Proof.
  intros HP; induction sched as [|pick sched IH]; intros j Hj; simpl; [assumption|].
  destruct (Batch.actives j) as [|a0 l] eqn:E; [assumption|].
  apply IH. unfold Batch.parallelExecute. apply fill_preserves; [assumption|].
  destruct (deliver_cases pick j) as [[E' _]|(a & pre & post & Ea & ->)].
  - congruence.
  - destruct HP as [_ Hr]. now apply Hr.
Qed.

Lemma do_preserves (Inv : Job -> Prop) (sched : list nat) (st : St) :
  preserved Inv -> Inv (Batch.init st) -> Inv (run sched st).
Proof.
  intros HP H0. unfold Batch.do. apply drive_preserves; [assumption|].
  unfold Batch.parallelExecute. now apply fill_preserves.
Qed.

(** A later moment of a run is reached from an earlier one by further
    steps of the schedule. *)
Lemma drive_app (s1 s2 : list nat) (j : Job) :
  drive (s1 ++ s2) j = drive s2 (drive s1 j).
Proof.
  revert j; induction s1 as [|pick s1 IH]; intros j; simpl; [reflexivity|].
  destruct (Batch.actives j) eqn:E; [|apply IH].
  destruct s2; simpl; [reflexivity|]. now rewrite E.
Qed.

Lemma can_start_true (j : Job) :
  can_start j = true ->
  Batch.rejected j = [] /\
  (length (Batch.actives j) < Pos.to_nat concurrency)%nat /\
  exists op, nth_error operations (Batch.cursor j) = Some op.
Proof.
  unfold Batch.can_start. destruct (Batch.rejected j); [|discriminate].
  rewrite andb_true_iff, !Nat.ltb_lt. intros [H1 H2]. repeat split; try assumption.
  destruct (nth_error operations (Batch.cursor j)) eqn:E; [eauto|].
  apply nth_error_None in E. lia.
Qed.

Lemma skipn_S_tl (A : Type) (n : nat) (l : list A) :
  skipn (S n) l = tl (skipn n l).
Proof.
  revert l; induction n as [|n IH]; intros [|x l]; try reflexivity.
  change (skipn (S (S n)) (x :: l)) with (skipn (S n) l). now rewrite IH.
Qed.

Lemma perm_to_rejected (C Rj P Q : list nat) (i : nat) :
  Permutation (C ++ (Rj ++ [i]) ++ P ++ Q) (C ++ Rj ++ P ++ i :: Q).
Proof.
  apply Permutation_app_head. rewrite <- app_assoc. apply Permutation_app_head.
  simpl. apply Permutation_middle.
Qed.

Lemma perm_to_completed (C Rj P Q : list nat) (i : nat) :
  Permutation ((C ++ [i]) ++ Rj ++ P ++ Q) (C ++ Rj ++ P ++ i :: Q).
Proof.
  rewrite <- app_assoc. apply Permutation_app_head. simpl.
  rewrite !app_assoc. apply Permutation_middle.
Qed.

Lemma perm_stay_active (C Rj P Q : list nat) (i : nat) :
  Permutation (C ++ Rj ++ (P ++ Q) ++ [i]) (C ++ Rj ++ P ++ i :: Q).
Proof.
  do 2 apply Permutation_app_head.
  eapply Permutation_trans; [apply Permutation_app_comm|].
  simpl. apply Permutation_middle.
Qed.

Lemma wf_start (j : Job) : wf j -> can_start j = true -> wf (start_next j).
Proof.
  intros (Hc & Hp & Hl & Hr & Hd) Hs.
  destruct (can_start_true j Hs) as (_ & _ & op & Eop).
  assert (Hlt : (Batch.cursor j < length operations)%nat)
    by (apply nth_error_Some; congruence).
  unfold Batch.start_next. rewrite Eop.
  repeat split; job_simpl.
  - lia.
  - rewrite map_app, seq_S. simpl. rewrite !app_assoc.
    apply Permutation_app_tail. rewrite <- !app_assoc. exact Hp.
  - apply Forall_app. split; [assumption|]. constructor; [|constructor].
    repeat split; job_simpl.
    + erewrite nth_error_nth by exact Eop. now destruct op.
    + now left.
    + intros k Hk. lia.
  - assumption.
  - assumption.
Qed.

Lemma wf_resume (j : Job) (a : Batch.Active) (pre post : list Batch.Active) :
  wf j -> Batch.actives j = pre ++ a :: post -> wf (resume a (pre ++ post) j).
Proof.
  intros (Hc & Hp & Hl & Hr & Hd) Ea.
  rewrite Ea in Hp, Hl. rewrite map_app in Hp. simpl in Hp.
  pose proof (Forall_elt _ _ _ Hl) as (Ha1 & Ha2 & Ha3).
  apply Forall_app in Hl. destruct Hl as [Hpre Hpost].
  apply Forall_inv_tail in Hpost.
  assert (Hothers : Forall (Batch.linked operations settles) (pre ++ post))
    by (apply Forall_app; now split).
  unfold Batch.resume.
  destruct (settles (Batch.a_index a) (Batch.a_await a)) as [e|] eqn:Es.
  - repeat split; job_simpl; try assumption.
    + rewrite !map_app. simpl.
      eapply Permutation_trans; [apply perm_to_rejected | exact Hp].
    + intros i e' Hin. apply in_app_or in Hin. destruct Hin as [Hin|[Hin|[]]].
      * now apply Hr.
      * inversion Hin; subst. eauto.
  - assert (Hdone : forall k,
               (k <= Batch.a_await a)%nat -> settles (Batch.a_index a) k = None).
    { intros k Hk. destruct (Nat.eq_dec k (Batch.a_await a)) as [->|Hne];
        [assumption | apply Ha3; lia]. }
    assert (Hcomplete : (length (Batch.a_rest a) <= 1)%nat ->
              forall i, In i (Batch.completed j ++ [Batch.a_index a]) ->
              forall k, (k < Batch.weight (tl (nth i operations [])))%nat ->
                        settles i k = None).
    { intros Hlen i Hin k Hk. apply in_app_or in Hin. destruct Hin as [Hin|[<-|[]]].
      - now apply Hd.
      - apply Hdone. unfold Batch.weight, Batch.Operation in *.
        assert (El : length (Batch.a_rest a)
                     = (length (nth (Batch.a_index a) operations [])
                        - S (Batch.a_await a))%nat)
          by (rewrite Ha1 at 1; apply length_skipn).
        assert (Et : length (tl (nth (Batch.a_index a) operations []))
                     = (length (nth (Batch.a_index a) operations []) - 1)%nat)
          by (destruct (nth (Batch.a_index a) operations []); simpl; lia).
        destruct Ha2 as [E0|Hne].
        + lia.
        + destruct (Batch.a_rest a); [congruence|]. cbn [length] in *. lia. }
    destruct (Batch.a_rest a) as [|s [|s' rest]] eqn:Er.
    + repeat split; job_simpl; try assumption.
      * rewrite !map_app.
        eapply Permutation_trans; [apply perm_to_completed | exact Hp].
      * apply Hcomplete. simpl. lia.
    + repeat split; job_simpl; try assumption.
      * rewrite !map_app.
        eapply Permutation_trans; [apply perm_to_completed | exact Hp].
      * apply Hcomplete. simpl. lia.
    + repeat split; job_simpl; try assumption.
      * rewrite !map_app. simpl.
        eapply Permutation_trans; [apply perm_stay_active | exact Hp].
      * apply Forall_app. split; [assumption|]. constructor; [|constructor].
        repeat split; job_simpl.
        -- rewrite skipn_S_tl, <- Ha1. reflexivity.
        -- right. discriminate.
        -- intros k Hk. apply Hdone. lia.
Qed.

Lemma wf_preserved : preserved wf.
Proof.
  split; [exact wf_start | exact wf_resume].
Qed.

Lemma wf_init (st : St) : wf (Batch.init st).
Proof.
  repeat split; simpl; try constructor; try lia; intros; contradiction.
Qed.

Lemma wf_do (sched : list nat) (st : St) : wf (run sched st).
Proof.
  apply do_preserves; [exact wf_preserved | apply wf_init].
Qed.

(** An invariant may rely on the bookkeeping. *)
Lemma do_preserves_wf (Inv : Job -> Prop) (sched : list nat) (st : St) :
  preserved (fun j => wf j /\ Inv j) -> Inv (Batch.init st) -> Inv (run sched st).
Proof.
  intros HP H0.
  apply (do_preserves (fun j => wf j /\ Inv j)); [assumption|].
  split; [apply wf_init | assumption].
Qed.

(** *** The window is refilled eagerly *)

Lemma fill_saturates (fuel : nat) (j : Job) :
  (Pos.to_nat concurrency - length (Batch.actives j) <= fuel)%nat ->
  can_start (fill fuel j) = false.
Proof.
  revert j; induction fuel as [|fuel IH]; intros j H; simpl.
  - unfold Batch.can_start. destruct (Batch.rejected j); [|reflexivity].
    apply andb_false_iff. left. apply Nat.ltb_ge. lia.
  - destruct (can_start j) eqn:E; [|assumption].
    apply IH. destruct (can_start_true j E) as (_ & Hlt & op & Eop).
    unfold Batch.start_next. rewrite Eop. job_simpl.
    rewrite length_app. simpl. lia.
Qed.

Lemma parallelExecute_saturates (j : Job) : can_start (parallelExecute j) = false.
Proof.
  apply fill_saturates. lia.
Qed.

Lemma drive_saturated (sched : list nat) (j : Job) :
  can_start j = false -> can_start (drive sched j) = false.
Proof.
  revert j; induction sched as [|pick sched IH]; intros j H; simpl; [assumption|].
  destruct (Batch.actives j); [assumption|].
  apply IH, parallelExecute_saturates.
Qed.

Lemma do_saturated (sched : list nat) (st : St) : can_start (run sched st) = false.
Proof.
  apply drive_saturated, parallelExecute_saturates.
Qed.

(** At rest without a failure, every operation was started and completed. *)
Lemma rest_all_completed (j : Job) :
  wf j -> can_start j = false ->
  Batch.actives j = [] -> Batch.rejected j = [] ->
  Batch.cursor j = length operations /\
  Permutation (Batch.completed j) (seq 0 (length operations)).
Proof.
  intros (Hc & Hp & _) Hs Ea Er.
  unfold Batch.can_start in Hs. rewrite Ea, Er in Hs. simpl in Hs.
  assert (Hconc : (0 <? Pos.to_nat concurrency)%nat = true)
    by (apply Nat.ltb_lt; lia).
  rewrite Hconc in Hs. simpl in Hs. apply Nat.ltb_ge in Hs.
  assert (E : Batch.cursor j = length operations) by lia.
  split; [assumption|].
  rewrite Ea, Er in Hp. simpl in Hp. rewrite app_nil_r in Hp. now rewrite <- E.
Qed.

(** *** Every schedule that is long enough brings the job to rest *)

Lemma weight_pos (rest : list (St -> St)) : (1 <= Batch.weight rest)%nat.
Proof.
  unfold Batch.weight. lia.
Qed.

Lemma actives_le_pending (j : Job) : (length (Batch.actives j) <= pending j)%nat.
Proof.
  unfold Batch.pending.
  induction (Batch.actives j) as [|a l IH]; simpl; [lia|].
  pose proof (weight_pos (Batch.a_rest a)). lia.
Qed.

Lemma skipn_nth_error (A : Type) (l : list A) (n : nat) (x : A) :
  nth_error l n = Some x -> skipn n l = x :: skipn (S n) l.
Proof.
  revert n; induction l as [|y l IH]; intros [|n] H; simpl in *; try discriminate.
  - now inversion H.
  - now apply IH.
Qed.

Lemma pending_start (j : Job) :
  can_start j = true -> pending (start_next j) = pending j.
Proof.
  intros E. destruct (can_start_true j E) as (Er & _ & op & Eop).
  unfold Batch.pending, Batch.start_next. rewrite Eop. job_simpl. rewrite Er.
  rewrite (skipn_nth_error _ _ _ _ Eop), map_app, list_sum_app. simpl. lia.
Qed.

Lemma pending_fill (fuel : nat) (j : Job) : pending (fill fuel j) = pending j.
Proof.
  revert j; induction fuel as [|fuel IH]; intros j; simpl; [reflexivity|].
  destruct (can_start j) eqn:E; [|reflexivity].
  rewrite IH. now apply pending_start.
Qed.

Lemma pending_resume (j : Job) (a : Batch.Active) (pre post : list Batch.Active) :
  Batch.actives j = pre ++ a :: post ->
  (S (pending (resume a (pre ++ post) j)) <= pending j)%nat.
Proof.
  intros Ea. unfold Batch.pending, Batch.resume. rewrite Ea.
  rewrite map_app, list_sum_app. simpl.
  pose proof (weight_pos (Batch.a_rest a)) as Hw.
  destruct (settles (Batch.a_index a) (Batch.a_await a)).
  - job_simpl. rewrite map_app, list_sum_app.
    destruct (Batch.rejected j); simpl; lia.
  - destruct (Batch.a_rest a) as [|s [|s' rest]]; job_simpl;
      rewrite ?map_app, ?list_sum_app; unfold Batch.weight in *; simpl in *; lia.
Qed.

Lemma drive_rests (sched : list nat) (j : Job) :
  (pending j <= length sched)%nat -> Batch.actives (drive sched j) = [].
Proof.
  revert j; induction sched as [|pick sched IH]; intros j H; simpl in *.
  - pose proof (actives_le_pending j). destruct (Batch.actives j); simpl in *; [reflexivity|lia].
  - destruct (Batch.actives j) as [|a0 l] eqn:E; [assumption|].
    apply IH. unfold Batch.parallelExecute. rewrite pending_fill.
    destruct (deliver_cases pick j) as [[E' _]|(a & pre & post & Ea & ->)];
      [congruence|].
    pose proof (pending_resume j a pre post Ea). lia.
Qed.

(** The [await]s of a whole batch. *)
Lemma do_rests (sched : list nat) (st : St) :
  (list_sum (map (fun op => Batch.weight (tl op)) operations) <= length sched)%nat ->
  Batch.actives (run sched st) = [].
Proof.
  intros H. unfold Batch.do. apply drive_rests.
  unfold Batch.parallelExecute. rewrite pending_fill.
  unfold Batch.pending. simpl. exact H.
Qed.

(** The outcome of a batch that came to rest. *)
Lemma outcome_fulfilled (j : Job) :
  Batch.outcome j = Fulfilled tt <->
  Batch.actives j = [] /\ Batch.rejected j = [].
Proof.
  unfold Batch.outcome.
  destruct (Batch.actives j); [|split; [discriminate | intros [? _]; discriminate]].
  destruct (Batch.rejected j) as [|[i e] l];
    split; try discriminate; try tauto. intros [_ ?]; discriminate.
Qed.

Lemma outcome_rejected (j : Job) (e : Error) :
  Batch.outcome j = Rejected e <->
  Batch.actives j = [] /\ exists i l, Batch.rejected j = (i, e) :: l.
Proof.
  unfold Batch.outcome.
  destruct (Batch.actives j);
    [|split; [discriminate | intros [? _]; discriminate]].
  destruct (Batch.rejected j) as [|[i e'] l]; split.
  - discriminate.
  - intros [_ (i & l & H)]. discriminate.
  - intros H. inversion H; subst. eauto.
  - intros [_ (i' & l' & H)]. inversion H; subst. reflexivity.
Qed.

(** *** Suspended tasks of operations with one or two [await]s *)

Lemma active_in_range (j : Job) (a : Batch.Active) (pre post : list Batch.Active) :
  wf j -> Batch.actives j = pre ++ a :: post ->
  (Batch.a_index a < Batch.cursor j)%nat /\
  (Batch.a_index a < length operations)%nat /\
  Batch.linked operations settles a.
Proof.
  intros (Hc & Hp & Hl & _) Ea. rewrite Ea in Hp, Hl.
  assert (Hin : In (Batch.a_index a) (seq 0 (Batch.cursor j))).
  { eapply Permutation_in; [exact Hp|].
    apply in_or_app; right. apply in_or_app; right.
    rewrite map_app. apply in_or_app; right. now left. }
  apply in_seq in Hin. repeat split; try lia.
  - exact (proj1 (Forall_elt _ _ _ Hl)).
  - exact (proj1 (proj2 (Forall_elt _ _ _ Hl))).
  - exact (proj2 (proj2 (Forall_elt _ _ _ Hl))).
Qed.

Lemma rest_of_two (a : Batch.Active) (s1 s2 : St -> St) :
  Batch.linked operations settles a ->
  nth (Batch.a_index a) operations [] = [s1; s2] ->
  Batch.a_await a = 0%nat /\ Batch.a_rest a = [s2].
Proof.
  intros (H1 & H2 & _) E. unfold Batch.Operation in *. rewrite E in H1.
  destruct (Batch.a_await a) as [|k]; [now split|].
  destruct H2 as [H2|H2]; [discriminate|].
  exfalso. apply H2. rewrite H1. now destruct k.
Qed.

Lemma rest_of_three (a : Batch.Active) (s1 s2 s3 : St -> St) :
  Batch.linked operations settles a ->
  nth (Batch.a_index a) operations [] = [s1; s2; s3] ->
  (Batch.a_await a = 0%nat /\ Batch.a_rest a = [s2; s3]) \/
  (Batch.a_await a = 1%nat /\ Batch.a_rest a = [s3]).
Proof.
  intros (H1 & H2 & _) E. unfold Batch.Operation in *. rewrite E in H1.
  destruct (Batch.a_await a) as [|[|k]]; [now left | now right |].
  destruct H2 as [H2|H2]; [discriminate|].
  exfalso. apply H2. rewrite H1. now destruct k.
Qed.

End BatchFacts.

(** ** Lists of calls and sums *)

Lemma commits_app (cs cs' : list Call) :
  commits (cs ++ cs') = commits cs ++ commits cs'.
Proof.
  induction cs as [|c cs IH]; simpl; [reflexivity|].
  destruct c; simpl; now rewrite IH.
Qed.

Lemma ranges_app (cs cs' : list Call) :
  ranges (cs ++ cs') = ranges cs ++ ranges cs'.
Proof.
  induction cs as [|c cs IH]; simpl; [reflexivity|].
  destruct c; simpl; now rewrite IH.
Qed.

Lemma regions_app (cs cs' : list Call) :
  regions (cs ++ cs') = regions cs ++ regions cs'.
Proof.
  induction cs as [|c cs IH]; simpl; [reflexivity|].
  destruct c; simpl; now rewrite IH.
Qed.

Lemma staged_ids_app (cs cs' : list Call) :
  staged_ids (cs ++ cs') = staged_ids cs ++ staged_ids cs'.
Proof.
  induction cs as [|c cs IH]; simpl; [reflexivity|].
  destruct c; simpl; now rewrite IH.
Qed.

Lemma total_app (f : nat -> Z) (l l' : list nat) :
  total f (l ++ l') = total f l + total f l'.
Proof.
  unfold total. induction l as [|i l IH]; simpl; [reflexivity|]. rewrite IH. lia.
Qed.

Lemma total_perm (f : nat -> Z) (l l' : list nat) :
  Permutation l l' -> total f l = total f l'.
Proof.
  unfold total. induction 1; simpl; lia.
Qed.

Lemma blockIDs_S (n : nat) :
  blockIDs (S n) = blockIDs n ++ [generateBlockID (Z.of_nat n)].
Proof.
  unfold blockIDs. now rewrite seq_S, map_app.
Qed.

Lemma report_heap (cb : bool) (tot : option Z) (h : Heap) :
  blockList (report cb tot h) = blockList h /\
  blockNum (report cb tot h) = blockNum h /\
  transferProgress (report cb tot h) = transferProgress h /\
  commits (calls (report cb tot h)) = commits (calls h) /\
  staged_ids (calls (report cb tot h)) = staged_ids (calls h) /\
  ranges (calls (report cb tot h)) = ranges (calls h) /\
  regions (calls (report cb tot h)) = regions (calls h).
Proof.
  unfold report. destruct cb; simpl;
    rewrite ?commits_app, ?staged_ids_app, ?ranges_app, ?regions_app, ?app_nil_r;
    simpl; rewrite ?app_nil_r; repeat split; reflexivity.
Qed.

Lemma total_ext_in (f g : nat -> Z) (l : list nat) :
  (forall i, In i l -> f i = g i) -> total f l = total g l.
Proof.
  unfold total. induction l as [|i l IH]; intros H; simpl; [reflexivity|].
  rewrite (H i (or_introl eq_refl)), IH; [reflexivity|].
  intros k Hk. apply H. now right.
Qed.

(** ** The chunk tasks of UploadResetableStreamToBlockBlob *)

Section UploadFacts.

Variable K : Constants.
Variable R : Remote.
Variable size : Z.
Variable options : IUploadToBlockBlobOptions.t.

Local Abbreviation ops := (Upload.operations size options).
Local Abbreviation conc := (Upload.concurrency K options).
Local Abbreviation stage_settles := (fun (i _ : nat) => failure (stageBlock_settles R i)).
Local Abbreviation len := (fun i : nat => Upload.contentLength size options (Z.of_nat i)).

Lemma upload_nth (i : nat) (op : Batch.Operation) :
  nth_error ops i = Some op -> op = Upload.stageTask size options (Z.of_nat i).
Proof.
  unfold Upload.operations. rewrite nth_error_map, nth_error_seq.
  destruct (i <? _)%nat; simpl; [|discriminate]. now inversion 1.
Qed.

Lemma upload_staging_preserved :
  Batch.preserved ops conc stage_settles
    (fun j => Batch.wf ops stage_settles j /\ staging len j).
Proof.
  split.
  - intros j [Hwf (H1 & H2 & H3 & H5)] Hs. split; [eapply wf_start; eassumption|].
    destruct (can_start_true _ _ _ Hs) as (_ & _ & op & Eop).
    pose proof (upload_nth _ _ Eop) as ->.
    unfold staging, Batch.start_next. rewrite Eop. job_simpl. simpl.
    rewrite blockIDs_S, commits_app, staged_ids_app, H3, H5, H1.
    repeat split; assumption.
  - intros j a pre post [Hwf (H1 & H2 & H3 & H5)] Ea.
    split; [eapply wf_resume; eassumption|].
    destruct (active_in_range _ _ _ _ _ _ Hwf Ea) as (_ & Hlt & Hl).
    assert (Eop : nth (Batch.a_index a) ops []
                  = Upload.stageTask size options (Z.of_nat (Batch.a_index a))).
    { apply upload_nth. now apply nth_error_nth'. }
    destruct (rest_of_two _ _ _ _ _ Hl Eop) as [E0 Er].
    unfold staging, Batch.resume. rewrite Er.
    destruct (failure _); job_simpl; [repeat split; assumption|].
    destruct (report_heap (IUploadToBlockBlobOptions.progress options) (Some size)
                (add_progress (len (Batch.a_index a)) (Batch.store j)))
      as (-> & _ & -> & -> & -> & _).
    simpl. rewrite total_app, H2. simpl. repeat split; try assumption. lia.
Qed.

Lemma upload_batch_staging (sched : list nat) :
  staging len (Upload.batch K R sched size options).
Proof.
  unfold Upload.batch.
  apply (do_preserves_wf ops conc stage_settles (staging len));
    [exact upload_staging_preserved | now repeat split].
Qed.

End UploadFacts.

(** ** A batch of staging tasks, and the commit after it *)

Section StagingFacts.

Variable ops : list (@Batch.Operation Heap).
Variable conc : positive.
Variable R : Remote.
Variable len : nat -> Z.

Local Abbreviation stage_settles := (fun (i _ : nat) => failure (stageBlock_settles R i)).

(** Every task has one [await]: the call of [stageBlock]. *)
Hypothesis one_await : forall i op, nth_error ops i = Some op -> length op = 2%nat.

Lemma one_await_weight (i : nat) :
  (i < length ops)%nat -> Batch.weight (tl (nth i ops [])) = 1%nat.
Proof.
  intros Hi. pose proof (one_await i _ (nth_error_nth' ops [] Hi)) as H.
  destruct (nth i ops []) as [|s1 [|s2 [|s3 l]]]; simpl in H; try lia. reflexivity.
Qed.

Lemma awaits_of_staging : list_sum (map (fun op => Batch.weight (tl op)) ops) = length ops.
Proof.
  revert one_await. clear. induction ops as [|op l IH]; intros H; simpl; [reflexivity|].
  rewrite IH by (intros i op' E; exact (H (S i) op' E)).
  pose proof (H 0%nat op eq_refl) as Hop.
  destruct op as [|s1 [|s2 [|s3 r]]]; simpl in Hop; try lia. reflexivity.
Qed.

(** With a schedule entry for every task, the batch settles. *)
Lemma staging_settles (sched : list nat) (st : Heap) :
  (length ops <= length sched)%nat ->
  Batch.outcome (Batch.do ops conc stage_settles sched st) <> Unsettled.
Proof.
  intros H. unfold Batch.outcome.
  rewrite (do_rests ops conc stage_settles sched st)
    by (rewrite awaits_of_staging; exact H).
  destruct (Batch.rejected _) as [|[i e] l]; discriminate.
Qed.

Lemma rejection_is_failed_stage (j : @Batch.Job Heap) (i : nat) (e : Error) :
  Batch.wf ops stage_settles j -> In (i, e) (Batch.rejected j) ->
  (i < length ops)%nat /\
  exists code, stageBlock_settles R i = Some code /\ e = TransferFailure code.
Proof.
  intros (Hc & Hp & _ & Hr & _) Hin. split.
  - assert (Hi : In i (seq 0 (Batch.cursor j))).
    { eapply Permutation_in; [exact Hp|].
      apply in_or_app; right. apply in_or_app; left.
      apply in_map_iff. exists (i, e). now split. }
    apply in_seq in Hi. lia.
  - destruct (Hr i e Hin) as [_ Hk]. unfold failure in Hk.
    destruct (stageBlock_settles R i) as [code|]; [|discriminate].
    exists code. split; [reflexivity|]. now inversion Hk.
Qed.

(** A fulfilled batch: every chunk was staged, the block list is the list
    of all ids in index order, and the progress is the sum of all lengths. *)
Lemma fulfilled_batch (sched : list nat) :
  let j := Batch.do ops conc stage_settles sched empty_heap in
  staging len j ->
  Batch.outcome j = Fulfilled tt ->
  all_staged R (length ops) /\
  blockList (Batch.store j) = blockIDs (length ops) /\
  transferProgress (Batch.store j) = total len (seq 0 (length ops)) /\
  commits (calls (Batch.store j)) = [].
Proof.
  intros j (H1 & H2 & H3 & _) Ho. apply outcome_fulfilled in Ho. destruct Ho as [Ea Er].
  pose proof (wf_do ops conc stage_settles sched empty_heap) as Hwf.
  pose proof (do_saturated ops conc stage_settles sched empty_heap) as Hs.
  destruct (rest_all_completed _ _ _ _ Hwf Hs Ea Er) as [Ec Hperm].
  fold j in Hwf, Ec, Hperm.
  repeat split.
  - intros i Hi. destruct Hwf as (_ & _ & _ & _ & Hd).
    assert (Hin : In i (Batch.completed j))
      by (eapply Permutation_in; [apply Permutation_sym; exact Hperm | apply in_seq; lia]).
    specialize (Hd i Hin 0%nat). rewrite one_await_weight in Hd by assumption.
    specialize (Hd ltac:(lia)). unfold failure in Hd.
    now destruct (stageBlock_settles R i).
  - now rewrite H1, Ec.
  - rewrite H2. now apply total_perm.
  - assumption.
Qed.

(** A rejected batch: the error is the failure of one of its chunks. *)
Lemma rejected_batch (sched : list nat) (e : Error) :
  let j := Batch.do ops conc stage_settles sched empty_heap in
  Batch.outcome j = Rejected e ->
  exists i code, (i < length ops)%nat /\ stageBlock_settles R i = Some code /\
                 e = TransferFailure code.
Proof.
  intros j Ho. apply outcome_rejected in Ho. destruct Ho as (_ & i & l & Er).
  pose proof (wf_do ops conc stage_settles sched empty_heap) as Hwf. fold j in Hwf.
  destruct (rejection_is_failed_stage j i e Hwf) as (Hi & code & Hc & ->);
    [rewrite Er; now left|].
  exists i, code. now repeat split.
Qed.

(** When every chunk can be staged, no task is rejected. *)
Lemma all_staged_no_rejection (sched : list nat) (e : Error) :
  all_staged R (length ops) ->
  Batch.outcome (Batch.do ops conc stage_settles sched empty_heap) <> Rejected e.
Proof.
  intros Hall Ho. destruct (rejected_batch sched e Ho) as (i & code & Hi & Hc & _).
  rewrite (Hall i Hi) in Hc. discriminate.
Qed.

(** What the orchestrators do with the outcome of the batch. *)
Lemma commit_follows_batch (sched : list nat) :
  let j := Batch.do ops conc stage_settles sched empty_heap in
  let h := Batch.store j in
  let verdict p h' :=
    commits_iff_all_staged R (length ops) p h' /\
    (forall l, In l (commits (calls h')) -> l = blockIDs (length ops)) /\
    (all_staged R (length ops) -> commits (calls h') = [blockIDs (length ops)]) in
  staging len j ->
  (length ops <= length sched)%nat ->
  match Batch.outcome j with
  | Fulfilled _ =>
      verdict (settled BlockBlobCommitBlockListResponse (commitBlockList_settles R))
              (call (commitBlockList (blockList h)) h)
  | Rejected e => verdict (Rejected e) h
  | Unsettled => False
  end.
Proof.
  intros j h verdict Hst Hlen.
  pose proof (staging_settles sched empty_heap Hlen) as Hsettles. fold j in Hsettles.
  destruct (Batch.outcome j) as [[]|e|] eqn:Ho; [| |congruence].
  - destruct (fulfilled_batch sched Hst Ho) as (Hall & Hbl & _ & Hc).
    fold j in Hall, Hbl, Hc. fold h in Hbl, Hc.
    assert (Ecs : commits (calls (call (commitBlockList (blockList h)) h))
                  = [blockIDs (length ops)])
      by (simpl; rewrite commits_app, Hc, Hbl; reflexivity).
    unfold verdict, commits_iff_all_staged. rewrite Ecs.
    split; [split; [|split]|split].
    + intros _. now split.
    + intros _. exact Hall.
    + intros (i & Hi & Hne). now rewrite (Hall i Hi) in Hne.
    + intros l [<-|[]]. reflexivity.
    + reflexivity.
  - destruct Hst as (_ & _ & Hc & _). fold h in Hc.
    unfold verdict, commits_iff_all_staged. rewrite Hc.
    split; [split; [|split]|split].
    + intros Hall. exfalso. exact (all_staged_no_rejection sched e Hall Ho).
    + discriminate.
    + intros _. split; [reflexivity|].
      destruct (rejected_batch sched e Ho) as (i & code & Hi & Hc' & ->).
      now exists i, code.
    + intros l [].
    + intros Hall. exfalso. exact (all_staged_no_rejection sched e Hall Ho).
Qed.

(** The bookkeeping of the chunk tasks at every moment of a batch. *)
Lemma staging_recorded (j : @Batch.Job Heap) :
  Batch.wf ops stage_settles j -> staging len j -> recorded_at_call R len j.
Proof.
  intros Hwf (H1 & H2 & _ & H5).
  assert (Hstarted : forall i,
             In i (Batch.completed j ++ map fst (Batch.rejected j)
                   ++ map Batch.a_index (Batch.actives j)) ->
             (i < Batch.cursor j)%nat /\ (i < length ops)%nat).
  { intros i Hin. destruct Hwf as (Hc & Hp & _).
    apply (Permutation_in _ Hp), in_seq in Hin. lia. }
  repeat split; try assumption.
  - intros i Hin. rewrite H1. unfold blockIDs.
    apply (in_map (fun i => generateBlockID (Z.of_nat i))), in_seq.
    destruct (Hstarted i); [|lia].
    apply in_or_app; right. now apply in_or_app.
  - intros i Hin. destruct (Hstarted i) as [_ Hi]; [now apply in_or_app; left|].
    destruct Hwf as (_ & _ & _ & _ & Hd).
    specialize (Hd i Hin 0%nat). rewrite one_await_weight in Hd by assumption.
    specialize (Hd ltac:(lia)). unfold failure in Hd.
    now destruct (stageBlock_settles R i).
Qed.

End StagingFacts.

(** ** The outgoing handlers of UploadStreamToBlockBlob *)

Section UploadStreamFacts.

Variable R : Remote.
Variable streamLength bufferSize maxBuffers : Z.
Variable options : IUploadStreamToBlockBlobOptions.t.

Local Abbreviation bufs := (BufferScheduler.buffers streamLength bufferSize).
Local Abbreviation ops := (map (UploadStream.outgoingHandler options) bufs).
Local Abbreviation conc := (UploadStream.outgoingConcurrency maxBuffers).
Local Abbreviation stage_settles := (fun (i _ : nat) => failure (stageBlock_settles R i)).
Local Abbreviation len := (fun i : nat => nth i bufs 0).

Lemma stream_nth (i : nat) (op : Batch.Operation) :
  nth_error ops i = Some op -> op = UploadStream.outgoingHandler options (len i).
Proof.
  rewrite nth_error_map. destruct (nth_error bufs i) as [b|] eqn:E; simpl; [|discriminate].
  inversion 1. now rewrite (nth_error_nth _ _ 0 E).
Qed.

Lemma stream_staging_preserved :
  Batch.preserved ops conc stage_settles
    (fun j => Batch.wf ops stage_settles j /\ staging len j /\ numbered j).
Proof.
  split.
  - intros j (Hwf & (H1 & H2 & H3 & H5) & H4) Hs.
    split; [eapply wf_start; eassumption|].
    destruct (can_start_true _ _ _ Hs) as (_ & _ & op & Eop).
    pose proof (stream_nth _ _ Eop) as ->.
    unfold staging, numbered, Batch.start_next in *. rewrite Eop. job_simpl. simpl.
    rewrite blockIDs_S, commits_app, staged_ids_app, H3, H5, H4, H1.
    repeat split; try assumption. lia.
  - intros j a pre post (Hwf & (H1 & H2 & H3 & H5) & H4) Ea.
    split; [eapply wf_resume; eassumption|].
    destruct (active_in_range _ _ _ _ _ _ Hwf Ea) as (_ & Hlt & Hl).
    assert (Eop : nth (Batch.a_index a) ops []
                  = UploadStream.outgoingHandler options (len (Batch.a_index a))).
    { apply stream_nth. now apply nth_error_nth'. }
    destruct (rest_of_two _ _ _ _ _ Hl Eop) as [E0 Er].
    unfold staging, numbered, Batch.resume in *. rewrite Er.
    destruct (failure _); job_simpl; [repeat split; assumption|].
    destruct (report_heap (IUploadStreamToBlockBlobOptions.progress options) None
                (add_progress (len (Batch.a_index a)) (Batch.store j)))
      as (-> & -> & -> & -> & -> & _).
    simpl. rewrite total_app, H2. simpl. repeat split; try assumption. lia.
Qed.

Lemma stream_scheduler_staging (sched : list nat) :
  let j := UploadStream.scheduler R sched streamLength bufferSize maxBuffers options in
  staging len j /\ numbered j.
Proof.
  unfold UploadStream.scheduler, BufferScheduler.do.
  apply (do_preserves_wf ops conc stage_settles (fun j => staging len j /\ numbered j));
    [exact stream_staging_preserved | now repeat split].
Qed.

Lemma stream_one_await (i : nat) (op : Batch.Operation) :
  nth_error ops i = Some op -> length op = 2%nat.
Proof.
  intros E. now rewrite (stream_nth _ _ E).
Qed.

End UploadStreamFacts.

Lemma upload_one_await (size : Z) (options : IUploadToBlockBlobOptions.t)
  (i : nat) (op : Batch.Operation) :
  nth_error (Upload.operations size options) i = Some op -> length op = 2%nat.
Proof.
  intros E. now rewrite (upload_nth _ _ _ _ E).
Qed.

Lemma upload_operations_length (size : Z) (options : IUploadToBlockBlobOptions.t) :
  length (Upload.operations size options)
  = Z.to_nat (Upload.numBlocks size options).
Proof.
  unfold Upload.operations. now rewrite length_map, length_seq.
Qed.

(** ** Claims about the uploads *)

Lemma chunked_call (K : Constants) (R : Remote) (sched : list nat) (size : Z)
  (options : IUploadToBlockBlobOptions.t) :
  Upload.chunked K size options ->
  Upload.UploadResetableStreamToBlockBlob K R sched size options =
  let o := fst (Upload.configure K size options) in
  let job := Upload.batch K R sched size o in
  let h := Batch.store job in
  match Batch.outcome job with
  | Fulfilled _ =>
      (settled BlockBlobCommitBlockListResponse (commitBlockList_settles R),
       o, call (commitBlockList (blockList h)) h)
  | Rejected e => (Rejected e, o, h)
  | Unsettled => (Unsettled, o, h)
  end.
Proof.
  unfold Upload.chunked, Upload.UploadResetableStreamToBlockBlob.
  destruct (Upload.configure K size options) as [o thrown]. simpl.
  intros (-> & Hsize & Hblocks).
  destruct (Z.leb_spec size (BLOCK_BLOB_MAX_UPLOAD_BLOB_BYTES K)); [lia|].
  rewrite Z.gtb_ltb.
  destruct (Z.ltb_spec (BLOCK_BLOB_MAX_BLOCKS K) (Upload.numBlocks size o)); [lia|].
  reflexivity.
Qed.

Lemma upload_verdict (K : Constants) (R : Remote) (sched : list nat) (size : Z)
  (options : IUploadToBlockBlobOptions.t) :
  Upload.chunked K size options ->
  (Upload.chunks K size options <= length sched)%nat ->
  let '(p, _, h) := Upload.UploadResetableStreamToBlockBlob K R sched size options in
  commits_iff_all_staged R (Upload.chunks K size options) p h /\
  (forall l, In l (commits (calls h)) -> l = blockIDs (Upload.chunks K size options)) /\
  (all_staged R (Upload.chunks K size options) ->
   commits (calls h) = [blockIDs (Upload.chunks K size options)]).
Proof.
  intros Hch Hlen. rewrite (chunked_call K R sched size options Hch). cbv zeta.
  unfold Upload.chunks in *.
  set (o := fst (Upload.configure K size options)) in *.
  rewrite <- (upload_operations_length size o) in *.
  pose proof (commit_follows_batch (Upload.operations size o) (Upload.concurrency K o) R
                (fun i => Upload.contentLength size o (Z.of_nat i))
                (upload_one_await size o) sched
                (upload_batch_staging K R size o sched) Hlen) as H.
  cbv zeta in H. unfold Upload.batch.
  destruct (Batch.outcome _) as [[]|e|]; [exact H | exact H | contradiction].
Qed.

Lemma stream_verdict (R : Remote) (sched : list nat)
  (streamLength bufferSize maxBuffers : Z)
  (options : IUploadStreamToBlockBlobOptions.t) :
  let n := length (BufferScheduler.buffers streamLength bufferSize) in
  (n <= length sched)%nat ->
  let '(p, _, h) :=
    UploadStream.UploadStreamToBlockBlob R sched streamLength bufferSize maxBuffers options in
  commits_iff_all_staged R n p h /\
  (forall l, In l (commits (calls h)) -> l = blockIDs n) /\
  (all_staged R n -> commits (calls h) = [blockIDs n]).
Proof.
  intros n Hlen. unfold UploadStream.UploadStreamToBlockBlob. cbv zeta.
  set (o := UploadStream.configure options).
  unfold n in *. clear n.
  rewrite <- (length_map (UploadStream.outgoingHandler o)) in *.
  pose proof (commit_follows_batch
                (map (UploadStream.outgoingHandler o)
                     (BufferScheduler.buffers streamLength bufferSize))
                (UploadStream.outgoingConcurrency maxBuffers) R
                (fun i => nth i (BufferScheduler.buffers streamLength bufferSize) 0)
                (stream_one_await streamLength bufferSize o) sched
                (proj1 (stream_scheduler_staging R streamLength bufferSize maxBuffers o sched))
                Hlen) as H.
  cbv zeta in H. unfold UploadStream.scheduler, BufferScheduler.do.
  destruct (Batch.outcome _) as [[]|e|]; [exact H | exact H | contradiction].
Qed.

(** C1. An upload on the chunked path commits the block list exactly once
    when every chunk task succeeds, and only then; when a chunk task fails
    it returns the failure of a failed chunk and [commitBlockList] is never
    called. Both the ranged upload of a file and the streaming upload
    behave so, under every schedule that lets every task settle. *)
Theorem upload_commits_iff_every_chunk_staged :
  (forall K R sched size options,
     Upload.chunked K size options ->
     (Upload.chunks K size options <= length sched)%nat ->
     let '(p, _, h) :=
       Upload.UploadResetableStreamToBlockBlob K R sched size options in
     commits_iff_all_staged R (Upload.chunks K size options) p h) /\
  (forall R sched streamLength bufferSize maxBuffers options,
     (length (BufferScheduler.buffers streamLength bufferSize) <= length sched)%nat ->
     let '(p, _, h) :=
       UploadStream.UploadStreamToBlockBlob
         R sched streamLength bufferSize maxBuffers options in
     commits_iff_all_staged
       R (length (BufferScheduler.buffers streamLength bufferSize)) p h).
Proof.
  split.
  - intros K R sched size options Hch Hlen.
    pose proof (upload_verdict K R sched size options Hch Hlen) as H.
    destruct (Upload.UploadResetableStreamToBlockBlob K R sched size options)
      as [[p o] h].
    exact (proj1 H).
  - intros R sched streamLength bufferSize maxBuffers options Hlen.
    pose proof (stream_verdict R sched streamLength bufferSize maxBuffers options Hlen)
      as H.
    destruct (UploadStream.UploadStreamToBlockBlob
                R sched streamLength bufferSize maxBuffers options) as [[p o] h].
    exact (proj1 H).
Qed.

(** C1 at a run of three chunks that complete in the order 2, 0, 1, and C1
    at a stream of three buffers. *)
Lemma upload_commits_iff_every_chunk_staged_example :
  Upload.chunked service_constants (300 * MB) (upload_options (Some (100 * MB))) /\
  (let '(p, _, h) :=
     Upload.UploadResetableStreamToBlockBlob
       service_constants (blob_of 0) [2; 0; 0]%nat (300 * MB)
       (upload_options (Some (100 * MB))) in
   commits_iff_all_staged (blob_of 0) 3 p h) /\
  (let '(p, _, h) :=
     UploadStream.UploadStreamToBlockBlob
       (chunk_fails 1 7) [0; 0; 0]%nat 10 4 4 stream_options in
   commits_iff_all_staged (chunk_fails 1 7) 3 p h).
Proof.
  assert (Hch : Upload.chunked service_constants (300 * MB)
                  (upload_options (Some (100 * MB))))
    by (repeat split; discriminate).
  split; [exact Hch|]. split.
  - exact (proj1 upload_commits_iff_every_chunk_staged
             service_constants (blob_of 0) [2; 0; 0]%nat (300 * MB)
             (upload_options (Some (100 * MB))) Hch (le_n 3)).
  - exact (proj2 upload_commits_iff_every_chunk_staged
             (chunk_fails 1 7) [0; 0; 0]%nat 10 4 4 stream_options (le_n 3)).
Defined.

(** C2. The list handed to [commitBlockList] is the list of the ids of the
    chunks [0], [1], ..., [numBlocks - 1] in index order, whatever the order
    in which the chunk tasks complete: no other list is ever committed, and
    it is committed when every chunk is staged. *)
Theorem commit_receives_ids_in_index_order :
  (forall K R sched size options,
     Upload.chunked K size options ->
     (Upload.chunks K size options <= length sched)%nat ->
     let '(_, _, h) :=
       Upload.UploadResetableStreamToBlockBlob K R sched size options in
     (forall l, In l (commits (calls h)) ->
                l = blockIDs (Upload.chunks K size options)) /\
     (all_staged R (Upload.chunks K size options) ->
      commits (calls h) = [blockIDs (Upload.chunks K size options)])) /\
  (forall R sched streamLength bufferSize maxBuffers options,
     let n := length (BufferScheduler.buffers streamLength bufferSize) in
     (n <= length sched)%nat ->
     let '(_, _, h) :=
       UploadStream.UploadStreamToBlockBlob
         R sched streamLength bufferSize maxBuffers options in
     (forall l, In l (commits (calls h)) -> l = blockIDs n) /\
     (all_staged R n -> commits (calls h) = [blockIDs n])).
Proof.
  split.
  - intros K R sched size options Hch Hlen.
    pose proof (upload_verdict K R sched size options Hch Hlen) as H.
    destruct (Upload.UploadResetableStreamToBlockBlob K R sched size options)
      as [[p o] h].
    exact (proj2 H).
  - intros R sched streamLength bufferSize maxBuffers options n Hlen.
    pose proof (stream_verdict R sched streamLength bufferSize maxBuffers options Hlen)
      as H.
    destruct (UploadStream.UploadStreamToBlockBlob
                R sched streamLength bufferSize maxBuffers options) as [[p o] h].
    exact (proj2 H).
Qed.

(** C2 at a run of three chunks that complete in the order 2, 1, 0. *)
Lemma commit_receives_ids_in_index_order_example :
  Upload.chunked service_constants (300 * MB) (upload_options (Some (100 * MB))) /\
  all_staged (blob_of 0) 3 /\
  (let '(_, _, h) :=
     Upload.UploadResetableStreamToBlockBlob
       service_constants (blob_of 0) [2; 1; 0]%nat (300 * MB)
       (upload_options (Some (100 * MB))) in
   commits (calls h) = [blockIDs 3]) /\
  (let '(_, _, h) :=
     UploadStream.UploadStreamToBlockBlob
       (blob_of 0) [2; 1; 0]%nat 10 4 4 stream_options in
   commits (calls h) = [blockIDs 3]).
Proof.
  assert (Hch : Upload.chunked service_constants (300 * MB)
                  (upload_options (Some (100 * MB))))
    by (repeat split; discriminate).
  assert (Hall : all_staged (blob_of 0) 3) by (intros i _; reflexivity).
  split; [exact Hch|]. split; [exact Hall|]. split.
  - pose proof (proj1 commit_receives_ids_in_index_order
                  service_constants (blob_of 0) [2; 1; 0]%nat (300 * MB)
                  (upload_options (Some (100 * MB))) Hch (le_n 3)) as H.
    destruct (Upload.UploadResetableStreamToBlockBlob _ _ _ _ _) as [[p o] h].
    exact (proj2 H Hall).
  - pose proof (proj2 commit_receives_ids_in_index_order
                  (blob_of 0) [2; 1; 0]%nat 10 4 4 stream_options (le_n 3)) as H.
    destruct (UploadStream.UploadStreamToBlockBlob _ _ _ _ _ _) as [[p o] h].
    exact (proj2 H Hall).
Defined.

(** The heap of the counterexample of C7: chunk 1 of three fails. *)
Lemma failed_chunk_leaves_its_id_in_the_block_list :
  let R := chunk_fails 1 7 in
  let '(p, _, h) :=
    Upload.UploadResetableStreamToBlockBlob
      service_constants R [1; 0; 0]%nat (300 * MB) (upload_options (Some (100 * MB))) in
  stageBlock_settles R 1 = Some 7%nat /\
  p = Rejected (TransferFailure 7) /\
  blockList h = [generateBlockID 0; generateBlockID 1; generateBlockID 2] /\
  let '(p0, _, h0) :=
    Upload.UploadResetableStreamToBlockBlob
      service_constants (blob_of 0) [] (300 * MB) (upload_options (Some (100 * MB))) in
  p0 = Unsettled /\
  blockList h0 = [generateBlockID 0; generateBlockID 1; generateBlockID 2] /\
  transferProgress h0 = 0.
Proof.
  vm_compute. repeat split.
Qed.

(** C7, as the code has it. In every chunk task the block id is appended to
    the shared block list when [stageBlock] is called, not when it
    succeeds: at every moment the block list is the list of the ids
    [stageBlock] was called with, the ids of all tasks started so far, so a
    failed chunk keeps its id in the list. The progress accumulator is
    incremented only after [stageBlock] succeeded: it is the sum of the
    lengths of the completed tasks, each of which had its [stageBlock]
    fulfilled. *)
Theorem block_id_recorded_at_call_progress_after_success :
  (forall K R sched size options,
     recorded_at_call R (fun i => Upload.contentLength size options (Z.of_nat i))
       (Upload.batch K R sched size options)) /\
  (forall R sched streamLength bufferSize maxBuffers options,
     recorded_at_call R
       (fun i => nth i (BufferScheduler.buffers streamLength bufferSize) 0)
       (UploadStream.scheduler R sched streamLength bufferSize maxBuffers options)).
Proof.
  split.
  - intros K R sched size options.
    apply (staging_recorded (Upload.operations size options) R _
             (upload_one_await size options)).
    + apply wf_do.
    + apply upload_batch_staging.
  - intros R sched streamLength bufferSize maxBuffers options.
    apply (staging_recorded
             (map (UploadStream.outgoingHandler options)
                  (BufferScheduler.buffers streamLength bufferSize)) R _
             (stream_one_await streamLength bufferSize options)).
    + apply wf_do.
    + apply stream_scheduler_staging.
Qed.

(** ** Block size and block count of the ranged upload *)

Lemma ceil_div_le (a b m : Z) :
  0 < b -> (Math_ceil_div a b <= m <-> a <= m * b).
Proof.
  intros Hb. unfold Math_ceil_div. split; intros H.
  - assert (H1 : - m <= (- a) / b) by lia.
    pose proof (Z.mul_div_le (- a) b Hb).
    assert (b * - m <= b * ((- a) / b)) by (apply Z.mul_le_mono_nonneg_l; lia).
    lia.
  - assert (- m <= (- a) / b) by (apply Z.div_le_lower_bound; lia). lia.
Qed.

Lemma ceil_div_pos (a b : Z) : 0 < b -> 0 < a -> 0 < Math_ceil_div a b.
Proof.
  intros Hb Ha. destruct (Z.lt_ge_cases 0 (Math_ceil_div a b)) as [H|H]; [assumption|].
  apply (ceil_div_le a b 0 Hb) in H. lia.
Qed.

(** The least block size that keeps the block count within [blocks]. *)
Lemma ceil_div_least (size blocks : Z) :
  0 < blocks -> 0 < size ->
  let least := Math_ceil_div size blocks in
  0 < least /\
  Math_ceil_div size least <= blocks /\
  (forall s, 0 < s -> Math_ceil_div size s <= blocks -> least <= s).
Proof.
  intros Hb Hs least.
  assert (Hpos : 0 < least) by now apply ceil_div_pos.
  repeat split; [assumption | |].
  - apply ceil_div_le; [assumption|].
    assert (least <= least) as H by lia.
    apply (ceil_div_le size blocks least Hb) in H. lia.
  - intros s Hspos H. apply (ceil_div_le size s blocks Hspos) in H.
    apply ceil_div_le; [assumption | lia].
Qed.

(** The options object and the promise go together: the function returns
    the object [configure] leaves, and rejects with the error it throws. *)
Lemma upload_returns_configured (K : Constants) (R : Remote) (sched : list nat)
  (size : Z) (options : IUploadToBlockBlobOptions.t) :
  let '(p, o, h) := Upload.UploadResetableStreamToBlockBlob K R sched size options in
  o = fst (Upload.configure K size options) /\
  (forall e, snd (Upload.configure K size options) = Some e ->
             p = Rejected e /\ h = empty_heap).
Proof.
  unfold Upload.UploadResetableStreamToBlockBlob.
  destruct (Upload.configure K size options) as [o [e|]]; simpl.
  - split; [reflexivity|]. intros e' H. inversion H; subst. now split.
  - destruct (size <=? _); [split; [reflexivity | discriminate]|].
    destruct (_ >? _); [split; [reflexivity | discriminate]|].
    destruct (Batch.outcome _); split; try reflexivity; discriminate.
Qed.

Lemma configure_unspecified (K : Constants) (size : Z)
  (options : IUploadToBlockBlobOptions.t) :
  positive_constants K ->
  falsy (IUploadToBlockBlobOptions.blockSize options) = true ->
  BLOCK_BLOB_MAX_UPLOAD_BLOB_BYTES K < size ->
  (BLOCK_BLOB_MAX_STAGE_BLOCK_BYTES K * BLOCK_BLOB_MAX_BLOCKS K < size ->
   snd (Upload.configure K size options) = Some (SizeTooLarge size)) /\
  (size <= BLOCK_BLOB_MAX_STAGE_BLOCK_BYTES K * BLOCK_BLOB_MAX_BLOCKS K ->
   snd (Upload.configure K size options) = None /\
   IUploadToBlockBlobOptions.blockSize (fst (Upload.configure K size options))
   = Some (Z.max (Math_ceil_div size (BLOCK_BLOB_MAX_BLOCKS K))
                 (BLOB_DEFAULT_DOWNLOAD_BLOCK_BYTES K))).
Proof.
  intros (Hd & Hb & Hs & Hu) Hf Hsize. unfold Upload.configure. rewrite Hf. simpl.
  destruct (Z.ltb_spec 0 0); [lia|]. rewrite Z.gtb_ltb.
  destruct (Z.ltb_spec (BLOCK_BLOB_MAX_UPLOAD_BLOB_BYTES K) 0); [lia|]. simpl.
  rewrite !Z.gtb_ltb.
  destruct (Z.ltb_spec (BLOCK_BLOB_MAX_STAGE_BLOCK_BYTES K * BLOCK_BLOB_MAX_BLOCKS K) size).
  - split; [reflexivity | lia].
  - split; [lia|]. intros _.
    destruct (Z.ltb_spec (BLOCK_BLOB_MAX_UPLOAD_BLOB_BYTES K) size); [|lia]. simpl.
    destruct (Z.ltb_spec (Math_ceil_div size (BLOCK_BLOB_MAX_BLOCKS K))
                (BLOB_DEFAULT_DOWNLOAD_BLOCK_BYTES K));
      unfold IUploadToBlockBlobOptions.set_blockSize,
        IUploadToBlockBlobOptions.set_blobHTTPHeaders,
        IUploadToBlockBlobOptions.set_blobAccessConditions; simpl;
      destruct (IUploadToBlockBlobOptions.blobHTTPHeaders options),
        (IUploadToBlockBlobOptions.blobAccessConditions options); simpl;
      (split; [reflexivity | f_equal; lia]).
Qed.

(** C6. When the caller leaves the block size unspecified and the size is
    over the single-shot limit, the block size chosen is the least positive
    [s] with [ceil (size / s)] within the maximum block count, raised to the
    default block size when it is smaller; and a size over
    [BLOCK_BLOB_MAX_STAGE_BLOCK_BYTES * BLOCK_BLOB_MAX_BLOCKS] is rejected
    before any call is made. *)
Theorem unspecified_block_size_is_least_within_block_count
  (K : Constants) (R : Remote) (sched : list nat) (size : Z)
  (options : IUploadToBlockBlobOptions.t) :
  positive_constants K ->
  falsy (IUploadToBlockBlobOptions.blockSize options) = true ->
  BLOCK_BLOB_MAX_UPLOAD_BLOB_BYTES K < size ->
  let '(p, o, h) := Upload.UploadResetableStreamToBlockBlob K R sched size options in
  let least := Math_ceil_div size (BLOCK_BLOB_MAX_BLOCKS K) in
  (BLOCK_BLOB_MAX_STAGE_BLOCK_BYTES K * BLOCK_BLOB_MAX_BLOCKS K < size ->
   p = Rejected (SizeTooLarge size) /\ calls h = []) /\
  (size <= BLOCK_BLOB_MAX_STAGE_BLOCK_BYTES K * BLOCK_BLOB_MAX_BLOCKS K ->
   IUploadToBlockBlobOptions.blockSize o
   = Some (Z.max least (BLOB_DEFAULT_DOWNLOAD_BLOCK_BYTES K)) /\
   0 < least /\
   Math_ceil_div size least <= BLOCK_BLOB_MAX_BLOCKS K /\
   (forall s, 0 < s -> Math_ceil_div size s <= BLOCK_BLOB_MAX_BLOCKS K -> least <= s)).
Proof.
  intros HK Hf Hsize.
  pose proof (upload_returns_configured K R sched size options) as Hret.
  destruct (configure_unspecified K size options HK Hf Hsize) as [Hbig Hfit].
  destruct (Upload.UploadResetableStreamToBlockBlob K R sched size options)
    as [[p o] h].
  destruct Hret as [-> Hthrown]. cbv zeta. split.
  - intros H. destruct (Hthrown _ (Hbig H)) as [-> ->]. now split.
  - intros H. destruct (Hfit H) as [_ ->]. split; [reflexivity|].
    destruct HK as (_ & Hb & _ & Hu).
    apply (ceil_div_least size (BLOCK_BLOB_MAX_BLOCKS K)); lia.
Qed.

Lemma unspecified_block_size_example :
  positive_constants service_constants /\
  falsy (IUploadToBlockBlobOptions.blockSize (upload_options None)) = true /\
  BLOCK_BLOB_MAX_UPLOAD_BLOB_BYTES service_constants < 300000 * MB /\
  let '(p, o, h) :=
    Upload.UploadResetableStreamToBlockBlob
      service_constants (blob_of 0) [] (300000 * MB) (upload_options None) in
  let least := Math_ceil_div (300000 * MB) (BLOCK_BLOB_MAX_BLOCKS service_constants) in
  (BLOCK_BLOB_MAX_STAGE_BLOCK_BYTES service_constants
   * BLOCK_BLOB_MAX_BLOCKS service_constants < 300000 * MB ->
   p = Rejected (SizeTooLarge (300000 * MB)) /\ calls h = []) /\
  (300000 * MB <= BLOCK_BLOB_MAX_STAGE_BLOCK_BYTES service_constants
                  * BLOCK_BLOB_MAX_BLOCKS service_constants ->
   IUploadToBlockBlobOptions.blockSize o
   = Some (Z.max least (BLOB_DEFAULT_DOWNLOAD_BLOCK_BYTES service_constants)) /\
   0 < least /\
   Math_ceil_div (300000 * MB) least <= BLOCK_BLOB_MAX_BLOCKS service_constants /\
   (forall s, 0 < s ->
      Math_ceil_div (300000 * MB) s <= BLOCK_BLOB_MAX_BLOCKS service_constants ->
      least <= s)).
Proof.
  assert (HK : positive_constants service_constants) by (repeat split).
  assert (Hf : falsy (IUploadToBlockBlobOptions.blockSize (upload_options None)) = true)
    by reflexivity.
  assert (Hs : BLOCK_BLOB_MAX_UPLOAD_BLOB_BYTES service_constants < 300000 * MB)
    by reflexivity.
  split; [exact HK|]. split; [exact Hf|]. split; [exact Hs|].
  exact (unspecified_block_size_is_least_within_block_count
           service_constants (blob_of 0) [] (300000 * MB) (upload_options None)
           HK Hf Hs).
Defined.

(** ** What the validation of the ranged upload does and does not bound *)

Lemma settled_rejection (r : Response) (s : option nat) (e : Error) :
  settled r s = Rejected e -> exists code, e = TransferFailure code.
Proof.
  destruct s as [code|]; simpl; [|discriminate]. inversion 1. eauto.
Qed.

(** Once the options are accepted, an upload is only rejected for too many
    blocks or with the failure of a remote call. *)
Lemma upload_rejection (K : Constants) (R : Remote) (sched : list nat)
  (size : Z) (options : IUploadToBlockBlobOptions.t) :
  snd (Upload.configure K size options) = None ->
  forall e,
    fst (fst (Upload.UploadResetableStreamToBlockBlob K R sched size options))
    = Rejected e ->
    e = TooManyBlocks \/ exists code, e = TransferFailure code.
Proof.
  unfold Upload.UploadResetableStreamToBlockBlob.
  destruct (Upload.configure K size options) as [o thrown]. simpl. intros -> e.
  destruct (size <=? _); simpl; [intros H; right; exact (settled_rejection _ _ _ H)|].
  destruct (_ >? _); simpl; [inversion 1; now left|].
  destruct (Batch.outcome _) as [[]|e'|] eqn:Ho; simpl.
  - intros H; right; exact (settled_rejection _ _ _ H).
  - inversion 1; subst. right.
    destruct (rejected_batch (Upload.operations size o) (Upload.concurrency K o) R
                sched e Ho) as (i & code & _ & _ & ->).
    eauto.
  - discriminate.
Qed.

(** The configuration errors of the upload are raised before any call. *)
Lemma upload_configuration_errors_precede_calls
  (K : Constants) (R : Remote) (sched : list nat) (size : Z)
  (options : IUploadToBlockBlobOptions.t) :
  let '(p, _, h) := Upload.UploadResetableStreamToBlockBlob K R sched size options in
  p = Rejected BlockSizeOutOfRange \/ p = Rejected (SizeTooLarge size)
  \/ p = Rejected TooManyBlocks ->
  calls h = [].
Proof.
  unfold Upload.UploadResetableStreamToBlockBlob.
  destruct (Upload.configure K size options) as [o [e|]]; [reflexivity|].
  destruct (size <=? _).
  - intros [H|[H|H]]; destruct (settled_rejection _ _ _ H); discriminate.
  - destruct (_ >? _); [reflexivity|].
    destruct (Batch.outcome _) as [[]|e|] eqn:Ho.
    + intros [H|[H|H]]; destruct (settled_rejection _ _ _ H); discriminate.
    + destruct (rejected_batch (Upload.operations size o) (Upload.concurrency K o) R
                  sched e Ho) as (i & code & _ & _ & ->).
      intros [H|[H|H]]; discriminate.
    + intros [H|[H|H]]; discriminate.
Qed.

(** A block size up to the single-shot limit passes the validation as it
    is, whatever the limit of a staged block. *)
Lemma block_size_up_to_upload_limit_is_accepted
  (K : Constants) (size b : Z) (options : IUploadToBlockBlobOptions.t) :
  IUploadToBlockBlobOptions.blockSize options = Some b ->
  0 < b <= BLOCK_BLOB_MAX_UPLOAD_BLOB_BYTES K ->
  snd (Upload.configure K size options) = None /\
  IUploadToBlockBlobOptions.blockSize (fst (Upload.configure K size options)) = Some b.
Proof.
  intros Hb Hrange.
  destruct options as [bs par pr [hd|] [ac|]]; simpl in Hb; subst bs;
    unfold Upload.configure, falsy, number,
      IUploadToBlockBlobOptions.set_blockSize,
      IUploadToBlockBlobOptions.set_blobHTTPHeaders,
      IUploadToBlockBlobOptions.set_blobAccessConditions;
    cbn -[Z.eqb Z.ltb Z.gtb Z.mul];
    (destruct (Z.eqb_spec b 0) as [E|E]; [lia|]);
    cbn -[Z.eqb Z.ltb Z.gtb Z.mul];
    (destruct (Z.ltb_spec b 0); [lia|]); rewrite Z.gtb_ltb;
    (destruct (Z.ltb_spec (BLOCK_BLOB_MAX_UPLOAD_BLOB_BYTES K) b); [lia|]);
    cbn -[Z.eqb Z.ltb Z.gtb Z.mul];
    (destruct (Z.eqb_spec b 0); [lia|]); split; reflexivity.
Qed.

(** C4 on the code: a block size of 200MB is over the limit of a staged
    block and under the limit of a single-shot upload, the bound the code
    checks it against; the call is accepted and stages a block of 200MB. *)
Theorem block_size_over_the_stage_limit_is_accepted :
  let '(p, o, h) :=
    Upload.UploadResetableStreamToBlockBlob
      service_constants (blob_of 0) [0; 0]%nat (300 * MB)
      (upload_options (Some (200 * MB))) in
  p = Fulfilled BlockBlobCommitBlockListResponse /\
  IUploadToBlockBlobOptions.blockSize o = Some (200 * MB) /\
  staged_lengths (calls h) = [200 * MB; 100 * MB] /\
  BLOCK_BLOB_MAX_STAGE_BLOCK_BYTES service_constants < 200 * MB.
Proof.
  vm_compute. repeat split.
Qed.

(** ** The progress of the ranged upload *)

Lemma chunked_block_size_positive (K : Constants) (size : Z)
  (o : IUploadToBlockBlobOptions.t) :
  positive_constants K -> Upload.chunked K size o ->
  0 < number (IUploadToBlockBlobOptions.blockSize (fst (Upload.configure K size o))).
Proof.
  intros (Hd & Hb & Hs & Hu) (Hacc & Hsize & _). revert Hacc.
  destruct o as [[b|] par pr [hd|] [ac|]];
    try destruct (b =? 0) eqn:Eb;
    unfold Upload.configure, falsy, number,
      IUploadToBlockBlobOptions.set_blockSize,
      IUploadToBlockBlobOptions.set_blobHTTPHeaders,
      IUploadToBlockBlobOptions.set_blobAccessConditions;
    cbn -[Z.eqb Z.ltb Z.gtb Z.mul]; rewrite ?Eb;
    repeat (case_if; cbn -[Z.eqb Z.ltb Z.gtb Z.mul]; rewrite ?Eb);
    comparisons; cbn -[Z.mul] in *; try discriminate; intros _; lia.
Qed.

Section UploadLengths.

Variable size : Z.
Variable options : IUploadToBlockBlobOptions.t.

Local Abbreviation bs := (number (IUploadToBlockBlobOptions.blockSize options)).
Local Abbreviation q := ((size - 1) / bs).
Local Abbreviation len := (fun i : nat => Upload.contentLength size options (Z.of_nat i)).

Hypothesis blockSize_pos : 0 < bs.
Hypothesis size_pos : 0 < size.

Lemma full_blocks_fit : 0 <= q /\ bs * q <= size - 1 /\ size - 1 < bs * q + bs.
Proof.
  pose proof (Z.div_pos (size - 1) bs ltac:(lia) blockSize_pos).
  pose proof (Z.mul_div_le (size - 1) bs blockSize_pos).
  pose proof (Z.mul_succ_div_gt (size - 1) bs blockSize_pos). lia.
Qed.

Lemma numBlocks_eq : Z.to_nat (Upload.numBlocks size options) = S (Z.to_nat q).
Proof.
  unfold Upload.numBlocks, Math_floor_div. destruct full_blocks_fit as (Hq & _).
  rewrite Z2Nat.inj_add by lia. change (Z.to_nat 1) with 1%nat. lia.
Qed.

Lemma contentLength_cases (i : nat) :
  (i <= Z.to_nat q)%nat ->
  len i = if (i =? Z.to_nat q)%nat then size - bs * q else bs.
Proof.
  intros Hi. unfold Upload.contentLength, Upload.numBlocks, Math_floor_div.
  destruct full_blocks_fit as (Hq & _).
  destruct (Nat.eqb_spec i (Z.to_nat q)) as [E|E].
  - destruct (Z.eqb_spec (Z.of_nat i) (q + 1 - 1)); [|lia].
    rewrite E, Z2Nat.id by lia. reflexivity.
  - destruct (Z.eqb_spec (Z.of_nat i) (q + 1 - 1)); lia.
Qed.

(** Every chunk is non-empty. *)
Lemma contentLength_pos (i : nat) :
  (i < Z.to_nat (Upload.numBlocks size options))%nat -> 0 < len i.
Proof.
  rewrite numBlocks_eq. intros Hi. rewrite contentLength_cases by lia.
  destruct full_blocks_fit as (Hq & Hlo & Hhi).
  destruct (i =? Z.to_nat q)%nat; lia.
Qed.

Lemma full_blocks_total (m : nat) :
  (m <= Z.to_nat q)%nat -> total len (seq 0 m) = bs * Z.of_nat m.
Proof.
  induction m as [|m IH]; intros Hm; [simpl; lia|].
  rewrite seq_S, total_app, IH by lia.
  unfold total. cbn [fold_right Nat.add]. rewrite contentLength_cases by lia.
  destruct (Nat.eqb_spec m (Z.to_nat q)); lia.
Qed.

(** The lengths of the chunks add up to the size. *)
Lemma contentLength_total :
  total len (seq 0 (Z.to_nat (Upload.numBlocks size options))) = size.
Proof.
  rewrite numBlocks_eq, seq_S, total_app, full_blocks_total by lia.
  unfold total. cbn [fold_right Nat.add]. rewrite contentLength_cases by lia.
  rewrite Nat.eqb_refl. destruct full_blocks_fit as (Hq & _).
  rewrite Z2Nat.id by lia. lia.
Qed.

End UploadLengths.

(** The progress of a ranged upload whose chunks are all staged ends at the
    size, under every schedule that lets every task settle. *)
Lemma upload_progress_total (K : Constants) (R : Remote) (sched : list nat)
  (size : Z) (options : IUploadToBlockBlobOptions.t) :
  positive_constants K ->
  Upload.chunked K size options ->
  (Upload.chunks K size options <= length sched)%nat ->
  all_staged R (Upload.chunks K size options) ->
  let '(p, _, h) := Upload.UploadResetableStreamToBlockBlob K R sched size options in
  p = settled BlockBlobCommitBlockListResponse (commitBlockList_settles R) /\
  transferProgress h = size.
Proof.
  intros HK Hch Hlen Hall.
  pose proof (chunked_block_size_positive K size options HK Hch) as Hbs.
  assert (Hsize : 0 < size) by (destruct HK as (_ & _ & _ & Hu), Hch as (_ & Hs & _); lia).
  rewrite (chunked_call K R sched size options Hch). cbv zeta.
  unfold Upload.chunks in *.
  set (o := fst (Upload.configure K size options)) in *.
  pose proof (contentLength_total size o Hbs Hsize) as Htotal.
  rewrite <- (upload_operations_length size o) in *.
  pose proof (staging_settles (Upload.operations size o) (Upload.concurrency K o) R
                (upload_one_await size o) sched empty_heap Hlen) as Hsettles.
  pose proof (all_staged_no_rejection (Upload.operations size o)
                (Upload.concurrency K o) R sched) as Hnorej.
  pose proof (fulfilled_batch (Upload.operations size o) (Upload.concurrency K o) R
                (fun i => Upload.contentLength size o (Z.of_nat i))
                (upload_one_await size o) sched
                (upload_batch_staging K R size o sched)) as Hfull.
  unfold Upload.batch in *.
  destruct (Batch.outcome _) as [[]|e|]; [| |congruence].
  - destruct (Hfull eq_refl) as (_ & _ & Hp & _). simpl. split; [reflexivity|].
    now rewrite Hp.
  - exfalso. exact (Hnorej e Hall eq_refl).
Qed.

(** The progress of a ranged upload never decreases: its value at a moment
    of a run is at most its value at any later moment of the run. *)
Lemma upload_progress_monotone (K : Constants) (R : Remote) (s1 s2 : list nat)
  (size : Z) (options : IUploadToBlockBlobOptions.t) :
  0 < number (IUploadToBlockBlobOptions.blockSize options) -> 0 < size ->
  transferProgress (Batch.store (Upload.batch K R s1 size options))
  <= transferProgress (Batch.store (Upload.batch K R (s1 ++ s2) size options)).
Proof.
  intros Hbs Hsize. unfold Upload.batch, Batch.do. rewrite drive_app.
  set (ops := Upload.operations size options).
  set (settles := fun (i _ : nat) => failure (stageBlock_settles R i)).
  set (j1 := Batch.drive ops (Upload.concurrency K options) settles s1 _).
  assert (Hwf1 : Batch.wf ops settles j1) by apply wf_do.
  apply (drive_preserves ops (Upload.concurrency K options) settles
           (fun j => Batch.wf ops settles j /\
                     transferProgress (Batch.store j1) <= transferProgress (Batch.store j)));
    [|split; [assumption | lia]].
  split.
  - intros j [Hwf Hle] Hs. split; [eapply wf_start; eassumption|].
    destruct (can_start_true _ _ _ Hs) as (_ & _ & op & Eop).
    pose proof (upload_nth _ _ _ _ Eop) as ->.
    unfold Batch.start_next. rewrite Eop. job_simpl. simpl. assumption.
  - intros j a pre post [Hwf Hle] Ea. split; [eapply wf_resume; eassumption|].
    destruct (active_in_range _ _ _ _ _ _ Hwf Ea) as (_ & Hlt & Hl).
    assert (Eop : nth (Batch.a_index a) ops []
                  = Upload.stageTask size options (Z.of_nat (Batch.a_index a))).
    { apply upload_nth. now apply nth_error_nth'. }
    destruct (rest_of_two _ _ _ _ _ Hl Eop) as [E0 Er].
    unfold Batch.resume. rewrite Er.
    destruct (settles _ _); job_simpl; [assumption|].
    match goal with
    | |- context [report ?cb ?t ?h] =>
        destruct (report_heap cb t h) as (_ & _ & -> & _)
    end.
    simpl. unfold ops in Hlt. rewrite upload_operations_length in Hlt.
    pose proof (contentLength_pos size options Hbs Hsize _ Hlt). lia.
Qed.

(** ** Validation and defaulting of DownloadBlobToBuffer *)

(** A batch of ranged reads only fails with the failure of a remote call. *)
Lemma range_batch_rejection (K : Constants) (R : Remote) (sched : list nat)
  (offset count : Z) (options : IDownloadFromBlobOptions.t) (h : Heap) (e : Error) :
  Batch.outcome
    (Batch.do (Download.operations offset count options)
              (Download.concurrency K options) (Download.range_settles R) sched h)
  = Rejected e ->
  exists code, e = TransferFailure code.
Proof.
  intros Ho. apply outcome_rejected in Ho. destruct Ho as (_ & i & l & Er).
  pose proof (wf_do (Download.operations offset count options)
                (Download.concurrency K options) (Download.range_settles R) sched h)
    as (_ & _ & _ & Hr & _).
  destruct (Hr i e) as [k Hk]; [rewrite Er; now left|].
  unfold Download.range_settles, failure in Hk.
  destruct k;
    [destruct (download_settles R i) | destruct (streamToBuffer_settles R i)];
    inversion Hk; eauto.
Qed.

Lemma transfer_rejection (K : Constants) (R : Remote) (sched : list nat)
  (offset count bufferLength : Z) (options : IDownloadFromBlobOptions.t) (h0 : Heap) :
  let '(p, h) := Download.transfer K R sched offset count bufferLength options h0 in
  forall e, p = Rejected e ->
    (e = BufferTooSmall count /\ bufferLength < count /\ h = h0) \/
    (exists code, e = TransferFailure code).
Proof.
  unfold Download.transfer.
  destruct (Z.ltb_spec bufferLength count) as [Hlt|Hge].
  - intros e He. inversion He; subst. left. now repeat split.
  - intros e He. right.
    destruct (Batch.outcome _) as [[]|e'|] eqn:Ho; simpl in He; try discriminate.
    inversion He; subst. exact (range_batch_rejection _ _ _ _ _ _ _ _ Ho).
Qed.

(** How a call of [DownloadBlobToBuffer] can be rejected, and what it has
    called by then. *)
Lemma download_rejection (K : Constants) (R : Remote) (sched : list nat)
  (offset count bufferLength : Z) (options : IDownloadFromBlobOptions.t) :
  let '(p, o, h) :=
    Download.DownloadBlobToBuffer K R sched offset count bufferLength options in
  o = fst (Download.configure K offset count options) /\
  (forall e, snd (Download.configure K offset count options) = Some e ->
             p = Rejected e /\ h = empty_heap) /\
  (snd (Download.configure K offset count options) = None ->
   forall e, p = Rejected e ->
     (exists code, e = TransferFailure code) \/
     (count = 0 /\ (exists c, e = NegativeResolvedCount c)
      /\ calls h = [getProperties]) \/
     (exists c, e = BufferTooSmall c /\
        (count <> 0 -> calls h = []) /\ (count = 0 -> calls h = [getProperties]))).
Proof.
  unfold Download.DownloadBlobToBuffer.
  destruct (Download.configure K offset count options) as [o [e0|]]; simpl.
  - split; [reflexivity|]. split; [|discriminate].
    intros e H. inversion H; subst. now split.
  - destruct (Z.eqb_spec count 0) as [E0|E0].
    + destruct (getProperties_settles R) as [code|L].
      * split; [reflexivity|]. split; [discriminate|]. intros _ e He.
        inversion He; subst. left. eauto.
      * destruct (L - offset <? 0).
        -- split; [reflexivity|]. split; [discriminate|]. intros _ e He.
           inversion He; subst. right. left. eauto.
        -- pose proof (transfer_rejection K R sched offset (L - offset) bufferLength
                         o (call getProperties empty_heap)) as Ht.
           destruct (Download.transfer _ _ _ _ _ _ _ _) as [p h].
           split; [reflexivity|]. split; [discriminate|]. intros _ e He.
           destruct (Ht e He) as [(-> & _ & ->)|Hc]; [|now left].
           right. right. exists (L - offset). repeat split. contradiction.
    + pose proof (transfer_rejection K R sched offset count bufferLength
                    o empty_heap) as Ht.
      destruct (Download.transfer _ _ _ _ _ _ _ _) as [p h].
      split; [reflexivity|]. split; [discriminate|]. intros _ e He.
      destruct (Ht e He) as [(-> & _ & ->)|Hc]; [|now left].
      right. right. exists count. repeat split. contradiction.
Qed.

Lemma download_configure_errors (K : Constants) (offset count : Z)
  (options : IDownloadFromBlobOptions.t) (e : Error) :
  snd (Download.configure K offset count options) = Some e ->
  e = NegativeBlockSize \/ e = NegativeOffset \/ e = NegativeCount.
Proof.
  unfold Download.configure.
  destruct (_ <? 0); simpl; [inversion 1; auto|].
  destruct (offset <? 0); simpl; [inversion 1; auto|].
  destruct (count <? 0); simpl; [inversion 1; auto|]. discriminate.
Qed.

(** The counterexample of C5: with [count = 0] the buffer is found too small
    only after [getProperties] was called. *)
Lemma buffer_check_follows_getProperties_when_count_is_zero :
  let '(p, _, h) :=
    Download.DownloadBlobToBuffer
      service_constants (blob_of 10) [] 0 0 4 (download_options None) in
  p = Rejected (BufferTooSmall 10) /\ calls h = [getProperties].
Proof.
  vm_compute. split; reflexivity.
Qed.

(** C5, as the code has it. The block size, offset and count errors are
    raised before anything is called. The buffer is checked against the
    count before any ranged read; before any call at all when the count is
    given, and after the call of [getProperties] (the only call made by
    then) when the count is 0 and has to be resolved, as is the check that
    the resolved count is not negative. *)
Theorem download_configuration_errors_precede_ranged_reads
  (K : Constants) (R : Remote) (sched : list nat)
  (offset count bufferLength : Z) (options : IDownloadFromBlobOptions.t) :
  let '(p, _, h) :=
    Download.DownloadBlobToBuffer K R sched offset count bufferLength options in
  (p = Rejected NegativeBlockSize \/ p = Rejected NegativeOffset
   \/ p = Rejected NegativeCount -> calls h = []) /\
  (forall c, p = Rejected (BufferTooSmall c) ->
     (count <> 0 -> calls h = []) /\ (count = 0 -> calls h = [getProperties])) /\
  (forall c, p = Rejected (NegativeResolvedCount c) -> calls h = [getProperties]) /\
  (forall e, snd (Download.configure K offset count options) = Some e ->
             p = Rejected e /\ calls h = []).
Proof.
  pose proof (download_rejection K R sched offset count bufferLength options) as H.
  pose proof (download_configure_errors K offset count options) as Hcfg.
  destruct (Download.DownloadBlobToBuffer K R sched offset count bufferLength options)
    as [[p o] h].
  destruct H as (_ & Hthrown & Hlater).
  destruct (snd (Download.configure K offset count options)) as [e0|] eqn:Ecfg.
  - destruct (Hthrown e0 eq_refl) as [-> ->].
    destruct (Hcfg e0 eq_refl) as [-> | [-> | ->]];
      (split; [reflexivity|]); (split; [discriminate|]); (split; [discriminate|]);
      intros e He; inversion He; subst; now split.
  - specialize (Hlater eq_refl).
    assert (Hcase : forall e, p = Rejected e ->
              (exists code, e = TransferFailure code) \/
              ((exists c, e = NegativeResolvedCount c) /\ calls h = [getProperties]) \/
              (exists c, e = BufferTooSmall c /\
                 (count <> 0 -> calls h = []) /\ (count = 0 -> calls h = [getProperties]))).
    { intros e He. destruct (Hlater e He) as [Hc|[Hc|Hc]]; [now left| |now right; right].
      right. left. tauto. }
    split; [|split; [|split]].
    + intros [He|[He|He]];
        destruct (Hcase _ He) as [[c Hc]|[[[c Hc] _]|[c [Hc _]]]]; discriminate.
    + intros c He.
      destruct (Hcase _ He) as [[c' Hc]|[[[c' Hc] _]|[c' [Hc Hcalls]]]];
        try discriminate. exact Hcalls.
    + intros c He.
      destruct (Hcase _ He) as [[c' Hc]|[[[c' Hc] Hcalls]|[c' [Hc _]]]];
        try discriminate. exact Hcalls.
    + discriminate.
Qed.

(** ** The options object after a call *)

Lemma upload_configure_fields (K : Constants) (size : Z)
  (o : IUploadToBlockBlobOptions.t) :
  let o' := fst (Upload.configure K size o) in
  let thrown := snd (Upload.configure K size o) in
  (exists n, IUploadToBlockBlobOptions.blockSize o' = Some n) /\
  (falsy (IUploadToBlockBlobOptions.blockSize o) = false ->
   IUploadToBlockBlobOptions.blockSize o' = IUploadToBlockBlobOptions.blockSize o) /\
  (thrown = None ->
   IUploadToBlockBlobOptions.blobHTTPHeaders o'
   = defaulted empty_headers (IUploadToBlockBlobOptions.blobHTTPHeaders o) /\
   IUploadToBlockBlobOptions.blobAccessConditions o'
   = defaulted empty_conditions (IUploadToBlockBlobOptions.blobAccessConditions o)) /\
  (thrown <> None ->
   IUploadToBlockBlobOptions.blobHTTPHeaders o'
   = IUploadToBlockBlobOptions.blobHTTPHeaders o /\
   IUploadToBlockBlobOptions.blobAccessConditions o'
   = IUploadToBlockBlobOptions.blobAccessConditions o) /\
  (forall e, thrown = Some e -> e = BlockSizeOutOfRange \/ e = SizeTooLarge size).
Proof.
  destruct o as [[n|] par pr [hd|] [ac|]];
    try destruct (n =? 0) eqn:En;
    unfold Upload.configure, falsy, number, defaulted,
      IUploadToBlockBlobOptions.set_blockSize,
      IUploadToBlockBlobOptions.set_blobHTTPHeaders,
      IUploadToBlockBlobOptions.set_blobAccessConditions;
    cbn -[Z.eqb Z.ltb Z.gtb Z.mul]; rewrite ?En;
    repeat (case_if; cbn -[Z.eqb Z.ltb Z.gtb Z.mul]; rewrite ?En);
    repeat split; eauto; try discriminate; try congruence;
    try (intros e He; inversion He; auto).
Qed.

Lemma download_configure_fields (K : Constants) (offset count : Z)
  (o : IDownloadFromBlobOptions.t) :
  let o' := fst (Download.configure K offset count o) in
  let thrown := snd (Download.configure K offset count o) in
  (snd (Download.configure K offset count o) <> Some NegativeBlockSize ->
   IDownloadFromBlobOptions.blockSize o'
   = Some (if falsy (IDownloadFromBlobOptions.blockSize o)
           then BLOB_DEFAULT_DOWNLOAD_BLOCK_BYTES K
           else number (IDownloadFromBlobOptions.blockSize o))) /\
  (exists n, IDownloadFromBlobOptions.blockSize o' = Some n) /\
  (thrown = None ->
   IDownloadFromBlobOptions.blobAccessConditions o'
   = defaulted empty_conditions (IDownloadFromBlobOptions.blobAccessConditions o)) /\
  (thrown <> None ->
   IDownloadFromBlobOptions.blobAccessConditions o'
   = IDownloadFromBlobOptions.blobAccessConditions o).
Proof.
  destruct o as [[n|] par pr [ac|]];
    try destruct (n =? 0) eqn:En;
    unfold Download.configure, falsy, number, defaulted,
      IDownloadFromBlobOptions.set_blockSize,
      IDownloadFromBlobOptions.set_blobAccessConditions;
    cbn -[Z.eqb Z.ltb Z.gtb Z.mul]; rewrite ?En;
    repeat (case_if; cbn -[Z.eqb Z.ltb Z.gtb Z.mul]; rewrite ?En);
    repeat split; eauto; try discriminate; try congruence.
Qed.

(** The counterexample of C10: a call rejected for its block size leaves the
    unset headers and access conditions unset. *)
Lemma rejected_block_size_leaves_headers_unset :
  let '(p, o, _) :=
    Upload.UploadResetableStreamToBlockBlob
      service_constants (blob_of 0) [] (300 * MB) (upload_options (Some (-1))) in
  p = Rejected BlockSizeOutOfRange /\
  IUploadToBlockBlobOptions.blobHTTPHeaders o = None /\
  IUploadToBlockBlobOptions.blobAccessConditions o = None.
Proof.
  vm_compute. repeat split.
Qed.

(** C10, as the code has it. The functions write their defaults into the
    options object they are given, and return it so. An unset (or zero)
    block size is always overwritten. Unset headers and access conditions
    are overwritten with empty objects by [UploadStreamToBlockBlob] on every
    call, and by the two other functions on every call that passes the
    validation that comes first; a call rejected by that validation leaves
    them as they were. Fields that are set are kept. *)
Theorem options_object_is_defaulted_in_place :
  (forall K R sched size o,
     let '(p, o', _) := Upload.UploadFileToBlockBlob K R sched size o in
     (exists n, IUploadToBlockBlobOptions.blockSize o' = Some n) /\
     (falsy (IUploadToBlockBlobOptions.blockSize o) = false ->
      IUploadToBlockBlobOptions.blockSize o' = IUploadToBlockBlobOptions.blockSize o) /\
     (p <> Rejected BlockSizeOutOfRange -> p <> Rejected (SizeTooLarge size) ->
      IUploadToBlockBlobOptions.blobHTTPHeaders o'
      = defaulted empty_headers (IUploadToBlockBlobOptions.blobHTTPHeaders o) /\
      IUploadToBlockBlobOptions.blobAccessConditions o'
      = defaulted empty_conditions (IUploadToBlockBlobOptions.blobAccessConditions o)) /\
     (p = Rejected BlockSizeOutOfRange \/ p = Rejected (SizeTooLarge size) ->
      IUploadToBlockBlobOptions.blobHTTPHeaders o'
      = IUploadToBlockBlobOptions.blobHTTPHeaders o /\
      IUploadToBlockBlobOptions.blobAccessConditions o'
      = IUploadToBlockBlobOptions.blobAccessConditions o)) /\
  (forall K R sched offset count bufferLength o,
     let '(p, o', _) :=
       Download.DownloadBlobToBuffer K R sched offset count bufferLength o in
     (exists n, IDownloadFromBlobOptions.blockSize o' = Some n) /\
     (p <> Rejected NegativeBlockSize ->
      IDownloadFromBlobOptions.blockSize o'
      = Some (if falsy (IDownloadFromBlobOptions.blockSize o)
              then BLOB_DEFAULT_DOWNLOAD_BLOCK_BYTES K
              else number (IDownloadFromBlobOptions.blockSize o))) /\
     (p <> Rejected NegativeBlockSize -> p <> Rejected NegativeOffset ->
      p <> Rejected NegativeCount ->
      IDownloadFromBlobOptions.blobAccessConditions o'
      = defaulted empty_conditions (IDownloadFromBlobOptions.blobAccessConditions o)) /\
     (p = Rejected NegativeBlockSize \/ p = Rejected NegativeOffset
      \/ p = Rejected NegativeCount ->
      IDownloadFromBlobOptions.blobAccessConditions o'
      = IDownloadFromBlobOptions.blobAccessConditions o)) /\
  (forall R sched streamLength bufferSize maxBuffers o,
     let '(_, o', _) :=
       UploadStream.UploadStreamToBlockBlob R sched streamLength bufferSize maxBuffers o in
     IUploadStreamToBlockBlobOptions.blobHTTPHeaders o'
     = defaulted empty_headers (IUploadStreamToBlockBlobOptions.blobHTTPHeaders o) /\
     IUploadStreamToBlockBlobOptions.accessConditions o'
     = defaulted empty_conditions (IUploadStreamToBlockBlobOptions.accessConditions o)).
Proof.
  split; [|split].
  - intros K R sched size o. unfold Upload.UploadFileToBlockBlob.
    pose proof (upload_returns_configured K R sched size o) as Hret.
    pose proof (upload_rejection K R sched size o) as Hrej.
    pose proof (upload_configure_fields K size o) as Hcfg. cbv zeta in Hcfg.
    destruct (Upload.UploadResetableStreamToBlockBlob K R sched size o) as [[p o'] h].
    simpl in Hrej. destruct Hret as [-> Hthrown].
    destruct Hcfg as (Hsome & Hkeep & Hok & Hbad & Herr).
    split; [exact Hsome|]. split; [exact Hkeep|].
    destruct (snd (Upload.configure K size o)) as [e|] eqn:Ecfg.
    + destruct (Hthrown e eq_refl) as [-> _].
      split; [|intros _; apply Hbad; discriminate].
      intros H1 H2. destruct (Herr e eq_refl) as [-> | ->]; congruence.
    + split; [intros _ _; now apply Hok|].
      intros [Hp|Hp]; destruct (Hrej eq_refl _ Hp) as [He|[code He]]; discriminate.
  - intros K R sched offset count bufferLength o.
    pose proof (download_rejection K R sched offset count bufferLength o) as Hret.
    pose proof (download_configure_fields K offset count o) as Hcfg. cbv zeta in Hcfg.
    pose proof (download_configure_errors K offset count o) as Herr.
    destruct (Download.DownloadBlobToBuffer K R sched offset count bufferLength o)
      as [[p o'] h].
    destruct Hret as (-> & Hthrown & Hlater).
    destruct Hcfg as (Hbs & Hsome & Hok & Hbad).
    split; [exact Hsome|].
    destruct (snd (Download.configure K offset count o)) as [e|] eqn:Ecfg.
    + destruct (Hthrown e eq_refl) as [-> _].
      split; [intros Hne; apply Hbs; congruence|].
      split; [|intros _; apply Hbad; discriminate].
      intros H1 H2 H3. destruct (Herr e eq_refl) as [-> | [-> | ->]]; congruence.
    + split; [intros _; apply Hbs; discriminate|].
      split; [intros _ _ _; now apply Hok|].
      intros Hp.
      assert (Hcase : exists e, p = Rejected e /\
                (e = NegativeBlockSize \/ e = NegativeOffset \/ e = NegativeCount))
        by (destruct Hp as [Hp|[Hp|Hp]]; eauto 6).
      destruct Hcase as (e & He & Hkind).
      destruct (Hlater eq_refl e He) as [[c Hc]|[(_ & [c Hc] & _)|(c & Hc & _)]];
        subst e; destruct Hkind as [Hk|[Hk|Hk]]; discriminate.
  - intros R sched streamLength bufferSize maxBuffers o.
    unfold UploadStream.UploadStreamToBlockBlob. cbv zeta.
    destruct (Batch.outcome _);
      unfold UploadStream.configure, defaulted;
      destruct o as [[hd|] [ac|] pr]; simpl; split; reflexivity.
Qed.

(** ** The ranged reads of DownloadBlobToBuffer *)

(** *** The loop of DownloadBlobToBuffer *)

Lemma ceil_div_step (x b : Z) :
  0 < b -> Math_ceil_div x b = 1 + Math_ceil_div (x - b) b.
Proof.
  intros Hb. unfold Math_ceil_div.
  replace (- (x - b)) with (- x + 1 * b) by lia.
  rewrite Z.div_add by lia. lia.
Qed.

Lemma ceil_div_nonpos (x b : Z) : 0 < b -> x <= 0 -> Math_ceil_div x b <= 0.
Proof.
  intros Hb Hx. apply ceil_div_le; lia.
Qed.

Lemma ceil_div_nonneg (x b : Z) : 0 < b -> - b < x -> 0 <= Math_ceil_div x b.
Proof.
  intros Hb Hx. destruct (Z.le_gt_cases 0 (Math_ceil_div x b)) as [H|H]; [assumption|].
  assert (H' : Math_ceil_div x b <= -1) by lia.
  apply (ceil_div_le x b (-1) Hb) in H'. lia.
Qed.

(** With a positive block size the loop runs [ceil (count / blockSize)]
    times, over the offsets [off], [off + blockSize], ... *)
Lemma loop_closed_form (blockSize limit : Z) (fuel : nat) (off : Z) :
  0 < blockSize ->
  (Z.to_nat (limit - off) <= fuel)%nat ->
  Download.loop fuel off limit blockSize
  = map (fun k => off + Z.of_nat k * blockSize)
        (seq 0 (Z.to_nat (Math_ceil_div (limit - off) blockSize))).
Proof.
  intros Hb. revert off. induction fuel as [|fuel IH]; intros off Hfuel; simpl.
  - pose proof (ceil_div_nonpos (limit - off) blockSize Hb ltac:(lia)).
    replace (Z.to_nat _) with 0%nat by lia. reflexivity.
  - destruct (Z.ltb_spec off limit) as [Hlt|Hge].
    + rewrite IH by lia.
      rewrite (ceil_div_step (limit - off) blockSize Hb).
      replace (limit - off - blockSize) with (limit - (off + blockSize)) by lia.
      pose proof (ceil_div_nonneg (limit - (off + blockSize)) blockSize Hb ltac:(lia)).
      rewrite Z2Nat.inj_add by lia. change (Z.to_nat 1) with 1%nat. simpl.
      f_equal; [lia|]. rewrite <- seq_shift, map_map.
      apply map_ext. intros k. lia.
    + pose proof (ceil_div_nonpos (limit - off) blockSize Hb ltac:(lia)).
      replace (Z.to_nat _) with 0%nat by lia. reflexivity.
Qed.

Lemma offsets_closed_form (offset count : Z) (options : IDownloadFromBlobOptions.t) :
  0 < number (IDownloadFromBlobOptions.blockSize options) ->
  Download.offsets offset count options
  = map (fun k => offset + Z.of_nat k
                           * number (IDownloadFromBlobOptions.blockSize options))
        (seq 0 (Z.to_nat (Math_ceil_div count
                            (number (IDownloadFromBlobOptions.blockSize options))))).
Proof.
  intros Hb. unfold Download.offsets.
  rewrite loop_closed_form by (try assumption; lia).
  now replace (offset + count - offset) with count by lia.
Qed.

(** *** The ranged-read tasks *)

Section DownloadFacts.

Variable K : Constants.
Variable R : Remote.
Variable offset count : Z.
Variable options : IDownloadFromBlobOptions.t.

Local Abbreviation ops := (Download.operations offset count options).
Local Abbreviation conc := (Download.concurrency K options).
Local Abbreviation settles := (Download.range_settles R).
Local Abbreviation range_of := (Download.range_of offset count options).
Local Abbreviation region_of := (Download.region_of offset count options).
Local Abbreviation length_of := (Download.length_of offset count options).

Lemma download_nth (i : nat) (op : Batch.Operation) :
  nth_error ops i = Some op ->
  op = Download.rangeTask offset count options
         (nth i (Download.offsets offset count options) 0).
Proof.
  unfold Download.operations. rewrite nth_error_map.
  destruct (nth_error (Download.offsets offset count options) i) as [off|] eqn:E;
    simpl; [|discriminate].
  inversion 1. now rewrite (nth_error_nth _ _ 0 E).
Qed.

Lemma download_two_awaits :
  list_sum (map (fun op => Batch.weight (tl op)) ops) = (2 * length ops)%nat.
Proof.
  unfold Download.operations. rewrite map_map. simpl.
  induction (Download.offsets offset count options) as [|off l IH]; simpl; lia.
Qed.

Lemma reading_preserved :
  Batch.preserved ops conc settles
    (fun j => Batch.wf ops settles j /\ reading range_of region_of length_of j).
Proof.
  split.
  - intros j [Hwf (H1 & H2 & H3)] Hs. split; [eapply wf_start; eassumption|].
    destruct (can_start_true _ _ _ Hs) as (_ & _ & op & Eop).
    pose proof (download_nth _ _ Eop) as ->.
    unfold reading, copying, Batch.start_next in *. rewrite Eop. job_simpl.
    rewrite seq_S, map_app, filter_app. simpl.
    rewrite ranges_app, regions_app, H1. simpl.
    rewrite !app_nil_r. repeat split; assumption.
  - intros j a pre post [Hwf (H1 & H2 & H3)] Ea.
    split; [eapply wf_resume; eassumption|].
    destruct (active_in_range _ _ _ _ _ _ Hwf Ea) as (_ & Hlt & Hl).
    assert (Eop : nth (Batch.a_index a) ops []
                  = Download.rangeTask offset count options
                      (nth (Batch.a_index a) (Download.offsets offset count options) 0)).
    { apply download_nth. now apply nth_error_nth'. }
    unfold reading, copying, Batch.resume in *. rewrite Ea in H2.
    rewrite filter_app in H2. simpl in H2.
    destruct (rest_of_three _ _ _ _ _ _ Hl Eop) as [[E0 Er]|[E1 Er]];
      rewrite Er; rewrite ?E0, ?E1 in *; simpl in H2.
    + destruct (settles _ _); job_simpl.
      * repeat split; try assumption. intros Hrej.
        destruct (Batch.rejected j); discriminate.
      * simpl. rewrite ranges_app, regions_app, !filter_app. simpl.
        rewrite !app_nil_r. repeat split; try assumption.
        intros Hrej. rewrite map_app, !map_app. simpl.
        rewrite !app_assoc. apply Permutation_app_tail.
        rewrite <- !app_assoc, <- !map_app. now apply H2.
    + destruct (settles _ _); job_simpl.
      * repeat split; try assumption. intros Hrej.
        destruct (Batch.rejected j); discriminate.
      * match goal with
        | |- context [report ?cb ?t ?h] =>
            destruct (report_heap cb t h) as (_ & _ & -> & _ & _ & -> & ->)
        end.
        simpl. rewrite total_app, H3, filter_app. simpl.
        repeat split; try assumption; [|unfold Download.length_of; lia].
        intros Hrej. eapply Permutation_trans; [now apply H2|].
        apply Permutation_map. rewrite !map_app. simpl.
        rewrite <- app_assoc. apply Permutation_app_head. simpl.
        apply Permutation_sym, Permutation_middle.
Qed.

Lemma download_batch_reading (sched : list nat) (h : Heap) :
  ranges (calls h) = [] -> regions (calls h) = [] -> transferProgress h = 0 ->
  reading range_of region_of length_of (Batch.do ops conc settles sched h).
Proof.
  intros Hr Hg Hp.
  apply (do_preserves_wf ops conc settles (reading range_of region_of length_of));
    [exact reading_preserved|].
  unfold reading, copying. simpl. rewrite Hr, Hg, Hp. now repeat split.
Qed.

(** A batch of ranged reads that is fulfilled: every read was issued, in
    task order; every task copied into its region; the progress is the sum
    of the lengths of all tasks. *)
Lemma fulfilled_reads (sched : list nat) (h : Heap) :
  let j := Batch.do ops conc settles sched h in
  ranges (calls h) = [] -> regions (calls h) = [] -> transferProgress h = 0 ->
  Batch.outcome j = Fulfilled tt ->
  ranges (calls (Batch.store j)) = map range_of (seq 0 (length ops)) /\
  Permutation (regions (calls (Batch.store j)))
              (map region_of (seq 0 (length ops))) /\
  transferProgress (Batch.store j) = total length_of (seq 0 (length ops)).
Proof.
  intros j Hr Hg Hp Ho.
  destruct (download_batch_reading sched h Hr Hg Hp) as (H1 & H2 & H3). fold j in H1, H2, H3.
  apply outcome_fulfilled in Ho. destruct Ho as [Ea Er].
  pose proof (wf_do ops conc settles sched h) as Hwf.
  pose proof (do_saturated ops conc settles sched h) as Hs.
  destruct (rest_all_completed _ _ _ _ Hwf Hs Ea Er) as [Ec Hperm].
  fold j in Ec, Hperm.
  repeat split.
  - now rewrite H1, Ec.
  - eapply Permutation_trans; [now apply H2|].
    apply Permutation_map. unfold copying. rewrite Ea. simpl.
    now rewrite app_nil_r.
  - rewrite H3. now apply total_perm.
Qed.

(** With two schedule entries for every task, the batch settles. *)
Lemma reads_settle (sched : list nat) (h : Heap) :
  (2 * length ops <= length sched)%nat ->
  Batch.outcome (Batch.do ops conc settles sched h) <> Unsettled.
Proof.
  intros H. unfold Batch.outcome.
  rewrite (do_rests ops conc settles sched h)
    by (rewrite download_two_awaits; exact H).
  destruct (Batch.rejected _) as [|[i e] l]; discriminate.
Qed.

End DownloadFacts.

(** *** Downloads from offset 0 *)

Section Tiling.

Variable blockSize count : Z.
Hypothesis blockSize_pos : 0 < blockSize.
Hypothesis count_nonneg : 0 <= count.

Local Abbreviation n := (Z.to_nat (Math_ceil_div count blockSize)).

Lemma blocks_cover : count <= Z.of_nat n * blockSize.
Proof.
  pose proof (ceil_div_nonneg count blockSize blockSize_pos ltac:(lia)).
  rewrite Z2Nat.id by assumption.
  apply (ceil_div_le count blockSize _ blockSize_pos). lia.
Qed.

Lemma blocks_needed (m : nat) : (m < n)%nat -> Z.of_nat m * blockSize < count.
Proof.
  intros Hm. destruct (Z.lt_ge_cases (Z.of_nat m * blockSize) count) as [H|H];
    [assumption|].
  apply (ceil_div_le count blockSize _ blockSize_pos) in H. lia.
Qed.

Lemma tiles_from (m : nat) :
  (m <= n)%nat ->
  tiles (Z.min (Z.of_nat m * blockSize) count) count
        (map (tile blockSize count) (seq m (n - m))).
Proof.
  intros Hm. remember (n - m)%nat as d eqn:Ed. revert m Hm Ed.
  induction d as [|d IH]; intros m Hm Ed; simpl.
  - assert (m = n) by lia. subst m. pose proof blocks_cover. lia.
  - pose proof (blocks_needed m ltac:(lia)) as Hlt.
    split; [lia|]. split; [lia|].
    replace ((Z.of_nat m + 1) * blockSize) with (Z.of_nat (S m) * blockSize) by lia.
    apply IH; lia.
Qed.

(** The blocks are non-empty, pairwise disjoint, and cover [0, count). *)
Lemma tiles_all : tiles 0 count (map (tile blockSize count) (seq 0 n)).
Proof.
  pose proof (tiles_from 0 ltac:(lia)) as H. simpl in H.
  rewrite Nat.sub_0_r in H. now replace (Z.min 0 count) with 0 in H by lia.
Qed.

Lemma tile_lengths (m : nat) :
  (m <= n)%nat ->
  total (fun k => snd (tile blockSize count k) - fst (tile blockSize count k)) (seq 0 m)
  = Z.min (Z.of_nat m * blockSize) count.
Proof.
  induction m as [|m IH]; intros Hm.
  - simpl. lia.
  - rewrite seq_S, total_app, IH by lia.
    unfold total, tile. cbn [fold_right fst snd Nat.add].
    pose proof (blocks_needed m ltac:(lia)). lia.
Qed.

Lemma tile_lengths_all :
  total (fun k => snd (tile blockSize count k) - fst (tile blockSize count k)) (seq 0 n)
  = count.
Proof.
  rewrite tile_lengths by lia. pose proof blocks_cover. lia.
Qed.

End Tiling.

Section DownloadFromZero.

Variable K : Constants.
Variable R : Remote.
Variable count : Z.
Variable options : IDownloadFromBlobOptions.t.

Local Abbreviation bs := (number (IDownloadFromBlobOptions.blockSize options)).
Local Abbreviation n := (Z.to_nat (Math_ceil_div count bs)).

Hypothesis blockSize_pos : 0 < bs.
Hypothesis count_nonneg : 0 <= count.

Lemma nth_offset (i : nat) :
  (i < n)%nat -> nth i (Download.offsets 0 count options) 0 = Z.of_nat i * bs.
Proof.
  intros Hi. rewrite offsets_closed_form by assumption.
  erewrite nth_error_nth; [reflexivity|].
  rewrite nth_error_map, nth_error_seq.
  destruct (Nat.ltb_spec i n); [reflexivity | lia].
Qed.

Lemma operations_from_zero :
  length (Download.operations 0 count options) = n.
Proof.
  unfold Download.operations.
  rewrite length_map, offsets_closed_form, length_map, length_seq by assumption.
  reflexivity.
Qed.

Lemma chunkEnd_from_zero (i : nat) :
  Download.chunkEnd count options (Z.of_nat i * bs)
  = Z.min ((Z.of_nat i + 1) * bs) count.
Proof.
  unfold Download.chunkEnd.
  destruct (Z.ltb_spec (Z.of_nat i * bs + bs) count); lia.
Qed.

Lemma region_from_zero (i : nat) :
  (i < n)%nat -> Download.region_of 0 count options i = tile bs count i.
Proof.
  intros Hi. unfold Download.region_of, tile.
  rewrite (nth_offset i Hi), chunkEnd_from_zero. f_equal; lia.
Qed.

Lemma range_from_zero (i : nat) :
  (i < n)%nat ->
  Download.range_of 0 count options i
  = (fst (tile bs count i), snd (tile bs count i) + 1).
Proof.
  intros Hi. unfold Download.range_of, tile.
  rewrite (nth_offset i Hi), chunkEnd_from_zero. simpl. f_equal; lia.
Qed.

Lemma length_from_zero (i : nat) :
  (i < n)%nat ->
  Download.length_of 0 count options i
  = snd (tile bs count i) - fst (tile bs count i).
Proof.
  intros Hi. unfold Download.length_of, tile.
  rewrite (nth_offset i Hi), chunkEnd_from_zero. reflexivity.
Qed.

(** A download from offset 0 whose remote calls all succeed, under a
    schedule that lets every task settle: one read per block of
    [0, count), each asking for one byte more than its block; the regions
    written are the blocks; the progress ends at [count]. *)
Lemma transfer_from_zero (sched : list nat) (bufferLength : Z) (h0 : Heap) :
  (forall i, download_settles R i = None /\ streamToBuffer_settles R i = None) ->
  count <= bufferLength ->
  (2 * n <= length sched)%nat ->
  ranges (calls h0) = [] -> regions (calls h0) = [] -> transferProgress h0 = 0 ->
  let '(p, h) := Download.transfer K R sched 0 count bufferLength options h0 in
  p = Fulfilled Void /\
  ranges (calls h)
  = map (fun k => (fst (tile bs count k), snd (tile bs count k) + 1)) (seq 0 n) /\
  Permutation (regions (calls h)) (map (tile bs count) (seq 0 n)) /\
  tiles 0 count (map (tile bs count) (seq 0 n)) /\
  transferProgress h = count.
Proof.
  intros Hok Hbuf Hsched Hr Hg Hp. unfold Download.transfer.
  destruct (Z.ltb_spec bufferLength count); [lia|].
  pose proof (reads_settle K R 0 count options sched h0) as Hsettle.
  rewrite operations_from_zero in Hsettle. specialize (Hsettle Hsched).
  pose proof (fulfilled_reads K R 0 count options sched h0) as Hfull.
  cbv zeta in Hfull. rewrite operations_from_zero in Hfull.
  destruct (Batch.outcome _) as [[]|e|] eqn:Ho; [| |congruence].
  - destruct (Hfull Hr Hg Hp eq_refl) as (H1 & H2 & H3). simpl.
    split; [reflexivity|]. split; [|split; [|split]].
    + rewrite H1. apply map_ext_in. intros k Hk. apply in_seq in Hk.
      apply range_from_zero. lia.
    + eapply Permutation_trans; [exact H2|].
      erewrite map_ext_in; [reflexivity|].
      intros k Hk. apply in_seq in Hk. apply region_from_zero. lia.
    + now apply tiles_all.
    + rewrite H3. erewrite total_ext_in; [now apply tile_lengths_all|].
      intros k Hk. apply in_seq in Hk. apply length_from_zero. lia.
  - exfalso. apply outcome_rejected in Ho. destruct Ho as (_ & i & l & Er).
    pose proof (wf_do (Download.operations 0 count options)
                  (Download.concurrency K options) (Download.range_settles R) sched h0)
      as (_ & _ & _ & Hrej & _).
    destruct (Hrej i e) as [k Hk]; [rewrite Er; now left|].
    unfold Download.range_settles in Hk. destruct (Hok i) as [Hd Hs].
    destruct k; rewrite ?Hd, ?Hs in Hk; discriminate.
Qed.

End DownloadFromZero.

Lemma download_configure_accepts (K : Constants) (offset count : Z)
  (o : IDownloadFromBlobOptions.t) :
  positive_constants K ->
  0 <= number (IDownloadFromBlobOptions.blockSize o) -> 0 <= offset -> 0 <= count ->
  snd (Download.configure K offset count o) = None /\
  0 < number (IDownloadFromBlobOptions.blockSize (fst (Download.configure K offset count o))).
Proof.
  intros (Hd & _) Hbs Hoff Hcount.
  destruct o as [[b|] par pr [ac|]];
    try destruct (b =? 0) eqn:Eb;
    unfold Download.configure, falsy, number,
      IDownloadFromBlobOptions.set_blockSize,
      IDownloadFromBlobOptions.set_blobAccessConditions in *;
    cbn -[Z.eqb Z.ltb Z.gtb Z.mul] in *; rewrite ?Eb;
    repeat (case_if; cbn -[Z.eqb Z.ltb Z.gtb Z.mul]; rewrite ?Eb);
    comparisons; cbn -[Z.mul] in *; try (split; [reflexivity | lia]); lia.
Qed.

(** The download of a whole blob of [L] bytes ([offset = 0], [count = 0])
    when every remote call succeeds: the count is resolved to [L], one read
    is issued per block, [ceil (L / blockSize)] in all, the regions written
    are the blocks of [0, L), and the progress ends at [L]; each read asks
    for one byte more than its block. *)
Lemma download_whole_blob (K : Constants) (R : Remote) (sched : list nat)
  (L bufferLength : Z) (o : IDownloadFromBlobOptions.t) :
  positive_constants K ->
  0 <= number (IDownloadFromBlobOptions.blockSize o) ->
  getProperties_settles R = inr L -> 0 < L -> L <= bufferLength ->
  (forall i, download_settles R i = None /\ streamToBuffer_settles R i = None) ->
  let bs := number (IDownloadFromBlobOptions.blockSize
                      (fst (Download.configure K 0 0 o))) in
  let n := Z.to_nat (Math_ceil_div L bs) in
  (2 * n <= length sched)%nat ->
  let '(p, _, h) := Download.DownloadBlobToBuffer K R sched 0 0 bufferLength o in
  p = Fulfilled Void /\
  length (ranges (calls h)) = n /\
  ranges (calls h)
  = map (fun k => (fst (tile bs L k), snd (tile bs L k) + 1)) (seq 0 n) /\
  Permutation (regions (calls h)) (map (tile bs L) (seq 0 n)) /\
  tiles 0 L (map (tile bs L) (seq 0 n)) /\
  transferProgress h = L.
Proof.
  intros HK Hbs Hget HL Hbuf Hok bs n Hsched.
  destruct (download_configure_accepts K 0 0 o HK Hbs ltac:(lia) ltac:(lia))
    as [Hacc Hpos].
  unfold Download.DownloadBlobToBuffer. subst n bs.
  destruct (Download.configure K 0 0 o) as [o' thrown]. simpl in *. subst thrown.
  rewrite Hget. rewrite Z.sub_0_r.
  destruct (Z.ltb_spec L 0); [lia|].
  pose proof (transfer_from_zero K R L o' Hpos ltac:(lia) sched bufferLength
                (call getProperties empty_heap) Hok Hbuf Hsched
                eq_refl eq_refl eq_refl) as Hrun.
  destruct (Download.transfer _ _ _ _ _ _ _ _) as [p h].
  destruct Hrun as (Hp & Hr & Hg & Ht & Hprog).
  repeat split; try assumption.
  now rewrite Hr, length_map, length_seq.
Qed.

(** A download of [count > 0] bytes from offset 0: the regions written are
    the blocks of [0, count) and the progress ends at [count]. *)
Lemma download_from_zero (K : Constants) (R : Remote) (sched : list nat)
  (count bufferLength : Z) (o : IDownloadFromBlobOptions.t) :
  positive_constants K ->
  0 <= number (IDownloadFromBlobOptions.blockSize o) ->
  0 < count -> count <= bufferLength ->
  (forall i, download_settles R i = None /\ streamToBuffer_settles R i = None) ->
  let bs := number (IDownloadFromBlobOptions.blockSize
                      (fst (Download.configure K 0 count o))) in
  let n := Z.to_nat (Math_ceil_div count bs) in
  (2 * n <= length sched)%nat ->
  let '(p, _, h) := Download.DownloadBlobToBuffer K R sched 0 count bufferLength o in
  p = Fulfilled Void /\
  Permutation (regions (calls h)) (map (tile bs count) (seq 0 n)) /\
  tiles 0 count (map (tile bs count) (seq 0 n)) /\
  transferProgress h = count.
Proof.
  intros HK Hbs Hcount Hbuf Hok bs n Hsched.
  destruct (download_configure_accepts K 0 count o HK Hbs ltac:(lia) ltac:(lia))
    as [Hacc Hpos].
  unfold Download.DownloadBlobToBuffer. subst n bs.
  destruct (Download.configure K 0 count o) as [o' thrown]. simpl in *. subst thrown.
  destruct (Z.eqb_spec count 0); [lia|].
  pose proof (transfer_from_zero K R count o' Hpos ltac:(lia) sched bufferLength
                empty_heap Hok Hbuf Hsched eq_refl eq_refl eq_refl) as Hrun.
  destruct (Download.transfer _ _ _ _ _ _ _ _) as [p h].
  destruct Hrun as (Hp & Hr & Hg & Ht & Hprog).
  repeat split; assumption.
Qed.

(** *** What the ranged reads do for every offset *)

(** No task of a download copies past position [count - offset] of the
    buffer, or adds more than [count - off] to the progress. *)
Lemma chunkEnd_le_count (count : Z) (options : IDownloadFromBlobOptions.t) (off : Z) :
  Download.chunkEnd count options off <= count.
Proof.
  unfold Download.chunkEnd.
  destruct (off + number (IDownloadFromBlobOptions.blockSize options) <? count) eqn:E;
    comparisons; lia.
Qed.

Lemma region_ends_by_count_minus_offset
  (offset count : Z) (options : IDownloadFromBlobOptions.t) (i : nat) :
  snd (Download.region_of offset count options i) <= count - offset.
Proof.
  unfold Download.region_of. simpl.
  pose proof (chunkEnd_le_count count options
                (nth i (Download.offsets offset count options) 0)). lia.
Qed.

(** *** The transfers the ranged reads get wrong *)

(** C3 on the code: with [offset = 1], [count = 10] and blocks of 4 bytes,
    the three tasks copy into the regions [0, 4), [4, 8) and [8, 9) of the
    buffer: position 9 is not written. *)
Theorem regions_stop_short_when_offset_is_positive :
  let '(p, _, h) :=
    Download.DownloadBlobToBuffer
      service_constants (blob_of 20) (repeat 0%nat 6) 1 10 10
      (download_options (Some 4)) in
  p = Fulfilled Void /\
  regions (calls h) = [(0, 4); (4, 8); (8, 9)].
Proof.
  vm_compute. repeat split.
Qed.

(** C8 on the code: for a blob of 8 bytes read whole in blocks of 4 bytes,
    the count is resolved to 8 and two reads are issued, for the ranges
    [0, 5) and [4, 9): they overlap at position 4 and ask for 10 bytes. *)
Theorem ranged_reads_ask_for_one_byte_more :
  let '(p, _, h) :=
    Download.DownloadBlobToBuffer
      service_constants (blob_of 8) (repeat 0%nat 4) 0 0 8
      (download_options (Some 4)) in
  p = Fulfilled Void /\
  calls h = [getProperties; download 0 5; download 4 5;
             streamToBuffer 0 4; streamToBuffer 4 8] /\
  ranges (calls h) = [(0, 5); (4, 9)] /\
  transferProgress h = 8.
Proof.
  vm_compute. repeat split.
Qed.

(** C9 on the code: with [offset = 1] and [count = 10] every task succeeds
    and the progress ends at 9. *)
Theorem download_progress_stops_short_when_offset_is_positive :
  let '(p, _, h) :=
    Download.DownloadBlobToBuffer
      service_constants (blob_of 20) (repeat 0%nat 6) 1 10 10
      (download_options (Some 4)) in
  p = Fulfilled Void /\
  transferProgress h = 9.
Proof.
  vm_compute. repeat split.
Qed.

(** * Further properties of the code *)

(** ** The paths of the ranged upload *)

Ltac upload_configure_cases o :=
  destruct o as [[?b|] ?par ?pr [?hd|] [?ac|]];
  unfold Upload.configure, falsy, number,
    IUploadToBlockBlobOptions.set_blockSize,
    IUploadToBlockBlobOptions.set_blobHTTPHeaders,
    IUploadToBlockBlobOptions.set_blobAccessConditions;
  cbn -[Z.eqb Z.ltb Z.gtb Z.leb Z.mul].

(** The block count of line 125 is within [blocks] exactly when [blocks]
    blocks of the block size hold the size. *)
Lemma numBlocks_le (size blocks : Z) (options : IUploadToBlockBlobOptions.t) :
  0 < number (IUploadToBlockBlobOptions.blockSize options) ->
  (Upload.numBlocks size options <= blocks
   <-> size <= blocks * number (IUploadToBlockBlobOptions.blockSize options)).
Proof.
  intros Hb. unfold Upload.numBlocks, Math_floor_div.
  set (b := number (IUploadToBlockBlobOptions.blockSize options)) in *.
  pose proof (Z.mul_div_le (size - 1) b Hb).
  pose proof (Z.mul_succ_div_gt (size - 1) b Hb).
  split; intros H1; nia.
Qed.

(** For a positive size the block count is the size over the block size,
    rounded up. *)
Lemma numBlocks_ceil (size : Z) (options : IUploadToBlockBlobOptions.t) :
  0 < number (IUploadToBlockBlobOptions.blockSize options) ->
  Upload.numBlocks size options
  = Math_ceil_div size (number (IUploadToBlockBlobOptions.blockSize options)).
Proof.
  intros Hb.
  set (b := number (IUploadToBlockBlobOptions.blockSize options)) in *.
  apply Z.le_antisymm.
  - apply (numBlocks_le size _ options Hb). fold b.
    apply (ceil_div_le size b _ Hb). lia.
  - apply (ceil_div_le size b _ Hb).
    apply (numBlocks_le size _ options Hb). lia.
Qed.

(** X1. A size within the single-shot limit is sent with exactly one
    [upload] call, whatever block size within the limit the caller names:
    no block is staged, nothing is committed, the block size is left as it
    was, and the promise is that of the [upload] call. *)
Theorem small_upload_is_one_upload_call
  (K : Constants) (R : Remote) (sched : list nat) (size : Z)
  (options : IUploadToBlockBlobOptions.t) :
  0 <= number (IUploadToBlockBlobOptions.blockSize options)
    <= BLOCK_BLOB_MAX_UPLOAD_BLOB_BYTES K ->
  size <= BLOCK_BLOB_MAX_UPLOAD_BLOB_BYTES K ->
  size <= BLOCK_BLOB_MAX_STAGE_BLOCK_BYTES K * BLOCK_BLOB_MAX_BLOCKS K ->
  let '(p, o, h) := Upload.UploadFileToBlockBlob K R sched size options in
  p = settled BlockBlobUploadResponse (upload_settles R) /\
  calls h = [upload size] /\
  blockList h = [] /\
  number (IUploadToBlockBlobOptions.blockSize o)
  = number (IUploadToBlockBlobOptions.blockSize options).
Proof.
  intros Hbs Hsize Hmax.
  unfold Upload.UploadFileToBlockBlob, Upload.UploadResetableStreamToBlockBlob.
  revert Hbs.
  upload_configure_cases options; intros Hbs;
    try destruct (b =? 0) eqn:Eb; cbn -[Z.eqb Z.ltb Z.gtb Z.leb Z.mul];
    rewrite ?Eb;
    repeat (case_if; cbn -[Z.eqb Z.ltb Z.gtb Z.leb Z.mul]; rewrite ?Eb);
    comparisons; cbn -[Z.mul] in *;
    try lia; try discriminate; repeat split; try reflexivity; lia.
Qed.

Lemma small_upload_is_one_upload_call_example :
  let '(p, o, h) :=
    Upload.UploadFileToBlockBlob service_constants (blob_of 0) [] (256 * MB)
      (upload_options (Some (8 * MB))) in
  p = settled BlockBlobUploadResponse (upload_settles (blob_of 0)) /\
  calls h = [upload (256 * MB)] /\
  blockList h = [] /\
  number (IUploadToBlockBlobOptions.blockSize o) = 8 * MB.
Proof.
  apply (small_upload_is_one_upload_call service_constants (blob_of 0) []
           (256 * MB) (upload_options (Some (8 * MB)))); vm_compute;
    try split; discriminate.
Defined.

(** On the chunked path the call is never rejected for its block count. *)
Lemma chunked_not_too_many_blocks (K : Constants) (R : Remote) (sched : list nat)
  (size : Z) (options : IUploadToBlockBlobOptions.t) :
  Upload.chunked K size options ->
  fst (fst (Upload.UploadResetableStreamToBlockBlob K R sched size options))
  <> Rejected TooManyBlocks.
Proof.
  intros Hch. rewrite (chunked_call K R sched size options Hch). cbv zeta.
  destruct (Batch.outcome _) as [[]|e|] eqn:Ho; simpl.
  - intros H. destruct (settled_rejection _ _ _ H). discriminate.
  - destruct (rejected_batch _ _ R sched e Ho) as (i & code & _ & _ & ->).
    discriminate.
  - discriminate.
Qed.

(** X2. With a block size [b] named by the caller and a size over the
    single-shot limit, the call is rejected for its block count exactly
    when [BLOCK_BLOB_MAX_BLOCKS] blocks of [b] bytes cannot hold the size,
    and then before any call is made; otherwise the upload goes ahead in
    [ceil (size / b)] blocks of the caller's block size. *)
Theorem named_block_size_is_rejected_iff_blocks_cannot_hold_size
  (K : Constants) (R : Remote) (sched : list nat) (size b : Z)
  (options : IUploadToBlockBlobOptions.t) :
  IUploadToBlockBlobOptions.blockSize options = Some b ->
  0 < b <= BLOCK_BLOB_MAX_UPLOAD_BLOB_BYTES K ->
  BLOCK_BLOB_MAX_UPLOAD_BLOB_BYTES K < size ->
  let '(p, o, h) := Upload.UploadFileToBlockBlob K R sched size options in
  (BLOCK_BLOB_MAX_BLOCKS K * b < size ->
   p = Rejected TooManyBlocks /\ calls h = []) /\
  (size <= BLOCK_BLOB_MAX_BLOCKS K * b ->
   p <> Rejected TooManyBlocks /\
   Upload.chunked K size options /\
   IUploadToBlockBlobOptions.blockSize o = Some b /\
   Upload.numBlocks size o = Math_ceil_div size b).
Proof.
  intros Hb Hrange Hsize. unfold Upload.UploadFileToBlockBlob.
  destruct (block_size_up_to_upload_limit_is_accepted K size b options Hb Hrange)
    as [Hacc Hkept].
  pose proof (upload_returns_configured K R sched size options) as Hret.
  pose proof (chunked_not_too_many_blocks K R sched size options) as Hnot.
  assert (Hpos : 0 < number (IUploadToBlockBlobOptions.blockSize
                               (fst (Upload.configure K size options))))
    by (rewrite Hkept; simpl; lia).
  pose proof (numBlocks_le size (BLOCK_BLOB_MAX_BLOCKS K) _ Hpos) as Hle.
  pose proof (numBlocks_ceil size _ Hpos) as Hceil.
  rewrite Hkept in Hle, Hceil. simpl in Hle, Hceil.
  unfold Upload.chunked in *.
  unfold Upload.UploadResetableStreamToBlockBlob in *.
  destruct (Upload.configure K size options) as [o thrown]. simpl in *. subst thrown.
  destruct (Z.leb_spec size (BLOCK_BLOB_MAX_UPLOAD_BLOB_BYTES K)) as [Hs|Hs]; [lia|].
  rewrite Z.gtb_ltb in *.
  destruct (Z.ltb_spec (BLOCK_BLOB_MAX_BLOCKS K) (Upload.numBlocks size o))
    as [Hmany|Hfew]; cbv iota in *.
  - split.
    + intros _. split; reflexivity.
    + intros H1. apply Hle in H1. lia.
  - assert (Hch : @None Error = None /\ BLOCK_BLOB_MAX_UPLOAD_BLOB_BYTES K < size /\
                  Upload.numBlocks size o <= BLOCK_BLOB_MAX_BLOCKS K)
      by (repeat split; assumption).
    specialize (Hnot Hch).
    destruct (Batch.outcome _) as [[]|e|]; simpl in *;
      (split; [intros H1; exfalso; apply Hle in Hfew; lia|]); intros _;
      (split; [exact Hnot | split; [exact Hch | split; [exact Hkept | exact Hceil]]]).
Qed.

Lemma named_block_size_example :
  let '(p, o, h) :=
    Upload.UploadFileToBlockBlob service_constants (blob_of 0) [] (300 * MB)
      (upload_options (Some 4096)) in
  (BLOCK_BLOB_MAX_BLOCKS service_constants * 4096 < 300 * MB ->
   p = Rejected TooManyBlocks /\ calls h = []) /\
  (300 * MB <= BLOCK_BLOB_MAX_BLOCKS service_constants * 4096 ->
   p <> Rejected TooManyBlocks /\
   Upload.chunked service_constants (300 * MB) (upload_options (Some 4096)) /\
   IUploadToBlockBlobOptions.blockSize o = Some 4096 /\
   Upload.numBlocks (300 * MB) o = Math_ceil_div (300 * MB) 4096).
Proof.
  apply (named_block_size_is_rejected_iff_blocks_cannot_hold_size
           service_constants (blob_of 0) [] (300 * MB) 4096
           (upload_options (Some 4096)));
    [reflexivity | vm_compute; split; [reflexivity | discriminate] | reflexivity].
Defined.

(** X3. When the caller names no block size and the size is over the
    single-shot limit but within [BLOCK_BLOB_MAX_STAGE_BLOCK_BYTES *
    BLOCK_BLOB_MAX_BLOCKS], the block size the code computes always passes
    the check of the block count: the call is never rejected for too many
    blocks, and the block size is at most the larger of the staged block
    limit and the default block size. *)
Theorem computed_block_size_passes_block_count
  (K : Constants) (R : Remote) (sched : list nat) (size : Z)
  (options : IUploadToBlockBlobOptions.t) :
  positive_constants K ->
  falsy (IUploadToBlockBlobOptions.blockSize options) = true ->
  BLOCK_BLOB_MAX_UPLOAD_BLOB_BYTES K < size ->
  size <= BLOCK_BLOB_MAX_STAGE_BLOCK_BYTES K * BLOCK_BLOB_MAX_BLOCKS K ->
  let '(p, o, h) := Upload.UploadFileToBlockBlob K R sched size options in
  Upload.chunked K size options /\
  p <> Rejected TooManyBlocks /\
  Upload.numBlocks size o <= BLOCK_BLOB_MAX_BLOCKS K /\
  0 < number (IUploadToBlockBlobOptions.blockSize o)
    <= Z.max (BLOCK_BLOB_MAX_STAGE_BLOCK_BYTES K) (BLOB_DEFAULT_DOWNLOAD_BLOCK_BYTES K).
Proof.
  intros HK Hf Hsize Hmax. unfold Upload.UploadFileToBlockBlob.
  destruct (configure_unspecified K size options HK Hf Hsize) as [_ Hfit].
  destruct (Hfit Hmax) as [Hacc Hbs]. clear Hfit.
  pose proof (upload_returns_configured K R sched size options) as Hret.
  pose proof (chunked_not_too_many_blocks K R sched size options) as Hnot.
  destruct HK as (Hd & Hb & Hs & Hu).
  destruct (ceil_div_least size (BLOCK_BLOB_MAX_BLOCKS K) Hb ltac:(lia))
    as (Hleast & _ & _).
  assert (Hstage : Math_ceil_div size (BLOCK_BLOB_MAX_BLOCKS K)
                   <= BLOCK_BLOB_MAX_STAGE_BLOCK_BYTES K)
    by (apply ceil_div_le; lia).
  assert (Hhold : size <= Math_ceil_div size (BLOCK_BLOB_MAX_BLOCKS K)
                          * BLOCK_BLOB_MAX_BLOCKS K)
    by (apply (ceil_div_le size (BLOCK_BLOB_MAX_BLOCKS K) _ Hb); lia).
  assert (Hch : Upload.chunked K size options).
  { unfold Upload.chunked. repeat split; [assumption | assumption |].
    apply numBlocks_le; rewrite Hbs; simpl; nia. }
  destruct (Upload.UploadResetableStreamToBlockBlob K R sched size options)
    as [[p o] h].
  destruct Hret as [-> _]. simpl in Hnot.
  split; [exact Hch|]. split; [exact (Hnot Hch)|].
  split; [apply Hch|]. rewrite Hbs. simpl. lia.
Qed.

Lemma computed_block_size_example :
  let '(p, o, h) :=
    Upload.UploadFileToBlockBlob service_constants (blob_of 0) [] (300000 * MB)
      (upload_options None) in
  Upload.chunked service_constants (300000 * MB) (upload_options None) /\
  p <> Rejected TooManyBlocks /\
  Upload.numBlocks (300000 * MB) o <= BLOCK_BLOB_MAX_BLOCKS service_constants /\
  0 < number (IUploadToBlockBlobOptions.blockSize o)
    <= Z.max (BLOCK_BLOB_MAX_STAGE_BLOCK_BYTES service_constants)
             (BLOB_DEFAULT_DOWNLOAD_BLOCK_BYTES service_constants).
Proof.
  apply (computed_block_size_passes_block_count service_constants (blob_of 0) []
           (300000 * MB) (upload_options None));
    [vm_compute; repeat split | reflexivity | reflexivity | vm_compute; discriminate].
Defined.

(** ** The calls of the chunk tasks of the ranged upload *)

Lemma stages_app (cs cs' : list Call) : stages (cs ++ cs') = stages cs ++ stages cs'.
Proof.
  induction cs as [|c cs IH]; [reflexivity|].
  destruct c; simpl; rewrite IH; reflexivity.
Qed.

Lemma reports_app (cs cs' : list Call) :
  reports (cs ++ cs') = reports cs ++ reports cs'.
Proof.
  induction cs as [|c cs IH]; [reflexivity|].
  destruct c; simpl; rewrite IH; reflexivity.
Qed.

Lemma map_seq_S (A : Type) (f : nat -> A) (n : nat) :
  map f (seq 0 (S n)) = map f (seq 0 n) ++ [f n].
Proof.
  rewrite seq_S, map_app. reflexivity.
Qed.

Lemma last_cons_default (A : Type) (l : list A) (y d : A) :
  last (y :: l) d = last l y.
Proof.
  revert y d. induction l as [|z l IH]; intros y d; [reflexivity|].
  change (last (y :: z :: l) d) with (last (z :: l) d).
  rewrite (IH z d), (IH z y). reflexivity.
Qed.

Lemma increasing_app (lo x : Z) (l : list Z) :
  increasing lo l -> last l lo < x -> increasing lo (l ++ [x]).
Proof.
  revert lo. induction l as [|y l IH]; intros lo Hl Hx.
  - simpl in *. now split.
  - destruct Hl as [Hy Hl]. rewrite last_cons_default in Hx.
    split; [assumption|]. apply IH; assumption.
Qed.

Lemma increasing_bounds (lo : Z) (l : list Z) :
  increasing lo l -> lo <= last l lo /\ Forall (fun x => lo < x <= last l lo) l.
Proof.
  revert lo. induction l as [|y l IH]; intros lo Hl;
    [simpl; split; [lia | constructor]|].
  destruct Hl as [Hy Hl]. destruct (IH y Hl) as [Hle Hall].
  rewrite last_cons_default. split; [lia|]. constructor; [lia|].
  eapply Forall_impl; [|exact Hall]. simpl. intros; lia.
Qed.

Section UploadLog.

Variable K : Constants.
Variable R : Remote.
Variable size : Z.
Variable options : IUploadToBlockBlobOptions.t.

Local Abbreviation ops := (Upload.operations size options).
Local Abbreviation conc := (Upload.concurrency K options).
Local Abbreviation stage_settles := (fun (i _ : nat) => failure (stageBlock_settles R i)).

Hypothesis blockSize_pos : 0 < number (IUploadToBlockBlobOptions.blockSize options).
Hypothesis size_pos : 0 < size.

Lemma upload_logging_preserved :
  Batch.preserved ops conc stage_settles
    (fun j => Batch.wf ops stage_settles j /\ logging size options j).
Proof.
  split.
  - intros j [Hwf (H1 & H2 & H3)] Hs. split; [eapply wf_start; eassumption|].
    destruct (can_start_true _ _ _ Hs) as (_ & _ & op & Eop).
    pose proof (upload_nth _ _ _ _ Eop) as ->.
    unfold logging, Batch.start_next. rewrite Eop. job_simpl.
    rewrite map_seq_S. simpl.
    rewrite stages_app, reports_app, H1. simpl. rewrite app_nil_r.
    split; [reflexivity|]. split; [exact H2 | exact H3].
  - intros j a pre post [Hwf (H1 & H2 & H3)] Ea.
    split; [eapply wf_resume; eassumption|].
    destruct (active_in_range _ _ _ _ _ _ Hwf Ea) as (_ & Hlt & Hl).
    assert (Eop : nth (Batch.a_index a) ops []
                  = Upload.stageTask size options (Z.of_nat (Batch.a_index a))).
    { apply upload_nth. now apply nth_error_nth'. }
    destruct (rest_of_two _ _ _ _ _ Hl Eop) as [E0 Er].
    unfold logging, Batch.resume. rewrite Er.
    destruct (failure _); job_simpl;
      [split; [assumption | split; assumption]|].
    rewrite upload_operations_length in Hlt.
    pose proof (contentLength_pos size options blockSize_pos size_pos _ Hlt) as Hpos.
    unfold report.
    destruct (IUploadToBlockBlobOptions.progress options) eqn:Epr; simpl.
    + rewrite stages_app, reports_app, map_app. simpl. rewrite app_nil_r.
      destruct (H2 eq_refl) as (L1 & L2 & L3 & L4).
      split; [assumption|]. split; [|discriminate]. intros _.
      rewrite !length_app, L1, last_last. simpl.
      repeat split; try reflexivity.
      * apply increasing_app; [assumption | lia].
      * apply Forall_app. split; [assumption | now repeat constructor].
    + split; [assumption|]. split; [discriminate | assumption].
Qed.

Lemma upload_batch_logging (sched : list nat) :
  Batch.wf ops stage_settles (Upload.batch K R sched size options) /\
  logging size options (Upload.batch K R sched size options).
Proof.
  unfold Upload.batch.
  apply (do_preserves ops conc stage_settles
           (fun j => Batch.wf ops stage_settles j /\ logging size options j));
    [exact upload_logging_preserved|].
  split; [apply wf_init|]. unfold logging. simpl.
  repeat split; try reflexivity; constructor.
Qed.

End UploadLog.

(** The bytes of chunk [i]: it starts where block [i] of the size starts
    and ends where it ends, and it is never empty. *)
Lemma chunk_is_tile (size : Z) (options : IUploadToBlockBlobOptions.t) (i : nat) :
  0 < number (IUploadToBlockBlobOptions.blockSize options) -> 0 < size ->
  (i < Z.to_nat (Upload.numBlocks size options))%nat ->
  let bs := number (IUploadToBlockBlobOptions.blockSize options) in
  let n := Upload.contentLength size options (Z.of_nat i) in
  0 < n <= bs /\
  (bs * Z.of_nat i, bs * Z.of_nat i + n) = tile bs size i.
Proof.
  intros Hbs Hsize Hi. cbv zeta. rewrite numBlocks_eq in Hi by assumption.
  rewrite contentLength_cases by (assumption || lia).
  destruct (full_blocks_fit size options Hbs Hsize) as (Hq & Hlo & Hhi).
  unfold tile.
  set (bs := number (IUploadToBlockBlobOptions.blockSize options)) in *.
  destruct (Nat.eqb_spec i (Z.to_nat ((size - 1) / bs))) as [E|E].
  - assert (Ei : Z.of_nat i = (size - 1) / bs) by lia. rewrite Ei.
    split; [lia|]. f_equal; lia.
  - assert (Ei : Z.of_nat i + 1 <= (size - 1) / bs) by lia.
    split; [lia|]. f_equal; nia.
Qed.

Lemma chunked_size_positive (K : Constants) (size : Z)
  (options : IUploadToBlockBlobOptions.t) :
  positive_constants K -> Upload.chunked K size options -> 0 < size.
Proof.
  intros (_ & _ & _ & Hu) (_ & Hs & _). lia.
Qed.

(** The heap a call on the chunked path returns is that of its batch, with
    the [commitBlockList] call at the end of the log when the batch is
    fulfilled; it is then that a commit is in the log. *)
Lemma chunked_heap (K : Constants) (R : Remote) (sched : list nat) (size : Z)
  (options : IUploadToBlockBlobOptions.t) :
  Upload.chunked K size options ->
  let o := fst (Upload.configure K size options) in
  let job := Upload.batch K R sched size o in
  let '(p, o', h) := Upload.UploadResetableStreamToBlockBlob K R sched size options in
  o' = o /\
  transferProgress h = transferProgress (Batch.store job) /\
  stages (calls h) = stages (calls (Batch.store job)) /\
  reports (calls h) = reports (calls (Batch.store job)) /\
  (commits (calls h) <> [] ->
   Batch.cursor job = Upload.chunks K size options /\
   Permutation (Batch.completed job) (seq 0 (Upload.chunks K size options))).
Proof.
  intros Hch. rewrite (chunked_call K R sched size options Hch). cbv zeta.
  unfold Upload.chunks.
  set (o := fst (Upload.configure K size options)).
  destruct (upload_batch_staging K R size o sched) as (_ & _ & Hc & _).
  rewrite <- (upload_operations_length size o).
  destruct (Batch.outcome _) as [[]|e|] eqn:Ho.
  - simpl. rewrite stages_app, reports_app. simpl. rewrite !app_nil_r.
    do 4 (split; [reflexivity|]). intros _.
    apply outcome_fulfilled in Ho. destruct Ho as [Ea Er].
    unfold Upload.batch in *.
    exact (rest_all_completed _ _ _ _ (wf_do _ _ _ sched empty_heap)
             (do_saturated _ _ _ sched empty_heap) Ea Er).
  - do 4 (split; [reflexivity|]). intros Hne. contradiction.
  - do 4 (split; [reflexivity|]). intros Hne. contradiction.
Qed.

(** X4. On the chunked path, at every moment and under every schedule, the
    [stageBlock] calls made are those of the chunks [0 .. c-1] for some
    [c] up to the block count, in index order and once each: chunk [i] is
    staged under the id of [i] with the stream of [contentLength] bytes
    from [blockSize * i]. When the block list is committed, every chunk
    has been staged. *)
Theorem stage_calls_follow_chunk_order
  (K : Constants) (R : Remote) (sched : list nat) (size : Z)
  (options : IUploadToBlockBlobOptions.t) :
  positive_constants K ->
  Upload.chunked K size options ->
  let '(p, o, h) := Upload.UploadFileToBlockBlob K R sched size options in
  exists c, (c <= Upload.chunks K size options)%nat /\
    stages (calls h) = map (stage_of size o) (seq 0 c) /\
    (commits (calls h) <> [] -> c = Upload.chunks K size options).
Proof.
  intros HK Hch. unfold Upload.UploadFileToBlockBlob.
  pose proof (chunked_heap K R sched size options Hch) as H. cbv zeta in H.
  pose proof (chunked_block_size_positive K size options HK Hch) as Hbs.
  pose proof (chunked_size_positive K size options HK Hch) as Hsize.
  destruct (upload_batch_logging K R size _ Hbs Hsize sched) as [Hwf (L1 & _)].
  destruct (Upload.UploadResetableStreamToBlockBlob K R sched size options)
    as [[p o] h].
  destruct H as (-> & _ & Hst & _ & Hcommit).
  exists (Batch.cursor (Upload.batch K R sched size
                          (fst (Upload.configure K size options)))).
  split; [|split].
  - destruct Hwf as (Hc & _). rewrite upload_operations_length in Hc. exact Hc.
  - now rewrite Hst.
  - intros Hne. exact (proj1 (Hcommit Hne)).
Qed.

Lemma stage_calls_follow_chunk_order_example :
  let '(p, o, h) :=
    Upload.UploadFileToBlockBlob service_constants (blob_of 0) [1; 0; 0]%nat
      (300 * MB) (upload_options (Some (128 * MB))) in
  exists c, (c <= Upload.chunks service_constants (300 * MB)%Z
                    (upload_options (Some (128 * MB)%Z)))%nat /\
    stages (calls h) = map (stage_of (300 * MB) o) (seq 0 c) /\
    (commits (calls h) <> [] ->
     c = Upload.chunks service_constants (300 * MB) (upload_options (Some (128 * MB)))).
Proof.
  apply (stage_calls_follow_chunk_order service_constants (blob_of 0) [1; 0; 0]%nat
           (300 * MB) (upload_options (Some (128 * MB))));
    vm_compute; repeat split; discriminate.
Defined.

(** X5. No chunk of a file is ever read with an empty count, which would
    make the stream factory read on to the end of the file: every
    [stageBlock] call of the chunked path is given a stream of exactly its
    content length, between 1 byte and the block size. When the block list
    is committed, the streams read, in call order, the consecutive blocks
    of the block size that tile the file from byte 0 to its last byte. *)
Theorem chunk_streams_tile_the_file
  (K : Constants) (R : Remote) (sched : list nat) (size : Z)
  (options : IUploadToBlockBlobOptions.t) :
  positive_constants K ->
  Upload.chunked K size options ->
  let '(p, o, h) := Upload.UploadFileToBlockBlob K R sched size options in
  let bs := number (IUploadToBlockBlobOptions.blockSize o) in
  let n := Upload.chunks K size options in
  Forall (fun s => 0 < snd s <= bs /\
                   exists a, body_stream (snd (fst s)) = Some (a, Some (a + snd s - 1)))
         (stages (calls h)) /\
  (commits (calls h) <> [] ->
   map (fun s => body_stream (snd (fst s))) (stages (calls h))
   = map (fun i => Some (fst (tile bs size i), Some (snd (tile bs size i) - 1)))
         (seq 0 n) /\
   tiles 0 size (map (tile bs size) (seq 0 n))).
Proof.
  intros HK Hch. unfold Upload.UploadFileToBlockBlob.
  pose proof (chunked_heap K R sched size options Hch) as H. cbv zeta in H.
  pose proof (chunked_block_size_positive K size options HK Hch) as Hbs.
  pose proof (chunked_size_positive K size options HK Hch) as Hsize.
  destruct (upload_batch_logging K R size _ Hbs Hsize sched) as [Hwf (L1 & _)].
  destruct (Upload.UploadResetableStreamToBlockBlob K R sched size options)
    as [[p o] h].
  destruct H as (-> & _ & Hst & _ & Hcommit). cbv zeta.
  unfold Upload.chunks in *.
  set (o := fst (Upload.configure K size options)) in *.
  set (job := Upload.batch K R sched size o) in *.
  assert (Hstream : forall i, (i < Z.to_nat (Upload.numBlocks size o))%nat ->
            0 < snd (stage_of size o i)
              <= number (IUploadToBlockBlobOptions.blockSize o) /\
            body_stream (snd (fst (stage_of size o i)))
            = Some (fst (tile (number (IUploadToBlockBlobOptions.blockSize o)) size i),
                    Some (snd (tile (number (IUploadToBlockBlobOptions.blockSize o))
                                    size i) - 1))).
  { intros i Hi. destruct (chunk_is_tile size o i Hbs Hsize Hi) as [Hn Ht].
    cbv zeta in Hn, Ht. rewrite <- Ht.
    unfold stage_of, body_stream, fileStreamFactory, falsy, number. simpl.
    split; [exact Hn|].
    destruct (Z.eqb_spec (Upload.contentLength size o (Z.of_nat i)) 0); [lia|].
    do 3 f_equal. }
  rewrite Hst, L1. split.
  - apply Forall_forall. intros s Hs. apply in_map_iff in Hs.
    destruct Hs as (i & <- & Hi). apply in_seq in Hi.
    destruct Hwf as (Hc & _). rewrite upload_operations_length in Hc.
    destruct (Hstream i ltac:(lia)) as [Hn Hb]. split; [exact Hn|].
    exists (fst (tile (number (IUploadToBlockBlobOptions.blockSize o)) size i)).
    rewrite Hb. do 2 f_equal.
    destruct (chunk_is_tile size o i Hbs Hsize ltac:(lia)) as [_ Ht].
    cbv zeta in Ht. rewrite <- Ht. unfold stage_of. simpl. reflexivity.
  - intros Hne. destruct (Hcommit Hne) as [-> _]. split.
    + rewrite map_map. apply map_ext_in. intros i Hi. apply in_seq in Hi.
      exact (proj2 (Hstream i ltac:(lia))).
    + rewrite (numBlocks_ceil size o Hbs).
      apply tiles_all; [assumption | lia].
Qed.

Lemma chunk_streams_tile_the_file_example :
  let '(p, o, h) :=
    Upload.UploadFileToBlockBlob service_constants (blob_of 0) [1; 0; 0]%nat
      (300 * MB) (upload_options (Some (128 * MB))) in
  let bs := number (IUploadToBlockBlobOptions.blockSize o) in
  let n := Upload.chunks service_constants (300 * MB)
             (upload_options (Some (128 * MB))) in
  Forall (fun s => 0 < snd s <= bs /\
                   exists a, body_stream (snd (fst s)) = Some (a, Some (a + snd s - 1)))
         (stages (calls h)) /\
  (commits (calls h) <> [] ->
   map (fun s => body_stream (snd (fst s))) (stages (calls h))
   = map (fun i => Some (fst (tile bs (300 * MB) i),
                         Some (snd (tile bs (300 * MB) i) - 1)))
         (seq 0 n) /\
   tiles 0 (300 * MB) (map (tile bs (300 * MB)) (seq 0 n))).
Proof.
  apply (chunk_streams_tile_the_file service_constants (blob_of 0) [1; 0; 0]%nat
           (300 * MB) (upload_options (Some (128 * MB))));
    vm_compute; repeat split; discriminate.
Defined.

(** ** The progress callbacks of the ranged upload *)

Lemma upload_configure_progress (K : Constants) (size : Z)
  (o : IUploadToBlockBlobOptions.t) :
  IUploadToBlockBlobOptions.progress (fst (Upload.configure K size o))
  = IUploadToBlockBlobOptions.progress o /\
  IUploadToBlockBlobOptions.parallelism (fst (Upload.configure K size o))
  = IUploadToBlockBlobOptions.parallelism o.
Proof.
  upload_configure_cases o;
    try destruct (b =? 0) eqn:Eb; cbn -[Z.eqb Z.ltb Z.gtb Z.leb Z.mul];
    rewrite ?Eb;
    repeat (case_if; cbn -[Z.eqb Z.ltb Z.gtb Z.leb Z.mul]; rewrite ?Eb);
    split; reflexivity.
Qed.

Lemma total_nonneg (f : nat -> Z) (l : list nat) :
  (forall i, In i l -> 0 <= f i) -> 0 <= total f l.
Proof.
  unfold total. induction l as [|i l IH]; intros H; simpl; [lia|].
  pose proof (H i (or_introl eq_refl)).
  assert (0 <= fold_right (fun i acc => f i + acc) 0 l)
    by (apply IH; intros k Hk; apply H; now right).
  lia.
Qed.

(** The chunks completed at a moment of a batch are some of the chunks of
    the upload: they are at most the block count and hold at most the size. *)
Lemma completed_within_size (size : Z) (options : IUploadToBlockBlobOptions.t)
  (settles : nat -> nat -> option Error) (j : @Batch.Job Heap) :
  0 < number (IUploadToBlockBlobOptions.blockSize options) -> 0 < size ->
  Batch.wf (Upload.operations size options) settles j ->
  (length (Batch.completed j) <= Z.to_nat (Upload.numBlocks size options))%nat /\
  total (fun i => Upload.contentLength size options (Z.of_nat i)) (Batch.completed j)
  <= size.
Proof.
  intros Hbs Hsize (Hc & Hp & _). rewrite upload_operations_length in Hc.
  set (len := fun i : nat => Upload.contentLength size options (Z.of_nat i)).
  set (n := Z.to_nat (Upload.numBlocks size options)) in *.
  assert (Hpos : forall i, (i < n)%nat -> 0 <= len i).
  { intros i Hi. pose proof (contentLength_pos size options Hbs Hsize i Hi).
    unfold len. lia. }
  split.
  - apply Permutation_length in Hp. rewrite length_app, length_seq in Hp. lia.
  - pose proof (total_perm len _ _ Hp) as Ht. rewrite total_app in Ht.
    pose proof (contentLength_total size options Hbs Hsize) as Hall.
    fold len n in Hall.
    replace n with (Batch.cursor j + (n - Batch.cursor j))%nat in Hall by lia.
    rewrite seq_app, total_app in Hall.
    assert (0 <= total len (map fst (Batch.rejected j)
                            ++ map Batch.a_index (Batch.actives j))).
    { apply total_nonneg. intros i Hi. apply Hpos.
      assert (Hin : In i (seq 0 (Batch.cursor j))).
      { eapply Permutation_in; [exact Hp|]. apply in_or_app. now right. }
      apply in_seq in Hin. lia. }
    assert (0 <= total len (seq (0 + Batch.cursor j) (n - Batch.cursor j))).
    { apply total_nonneg. intros i Hi. apply Hpos. apply in_seq in Hi. lia. }
    lia.
Qed.

(** X6. The progress callback of a chunked upload is called at most once
    per chunk, with the size as [totalBytes] and with values of
    [loadedBytes] that increase strictly, stay within the size and end at
    the progress accumulator; when the block list is committed there was
    one callback per chunk and the last one reported the size. Without a
    callback nothing is reported. *)
Theorem progress_callbacks_increase_to_the_size
  (K : Constants) (R : Remote) (sched : list nat) (size : Z)
  (options : IUploadToBlockBlobOptions.t) :
  positive_constants K ->
  Upload.chunked K size options ->
  let '(p, o, h) := Upload.UploadFileToBlockBlob K R sched size options in
  let loaded := map fst (reports (calls h)) in
  let n := Upload.chunks K size options in
  (IUploadToBlockBlobOptions.progress options = false -> reports (calls h) = []) /\
  (IUploadToBlockBlobOptions.progress options = true ->
   increasing 0 loaded /\
   Forall (fun r => 0 < fst r <= size /\ snd r = Some size) (reports (calls h)) /\
   last loaded 0 = transferProgress h /\
   (length loaded <= n)%nat /\
   (commits (calls h) <> [] -> length loaded = n /\ last loaded 0 = size)).
Proof.
  intros HK Hch. unfold Upload.UploadFileToBlockBlob.
  pose proof (chunked_heap K R sched size options Hch) as H. cbv zeta in H.
  pose proof (chunked_block_size_positive K size options HK Hch) as Hbs.
  pose proof (chunked_size_positive K size options HK Hch) as Hsize.
  destruct (upload_batch_logging K R size _ Hbs Hsize sched) as [Hwf (_ & L2 & L3)].
  destruct (upload_batch_staging K R size
              (fst (Upload.configure K size options)) sched) as (_ & Htp & _).
  destruct (completed_within_size size _ _ _ Hbs Hsize Hwf) as [Hlen Hle].
  pose proof (contentLength_total size _ Hbs Hsize) as Hall.
  destruct (upload_configure_progress K size options) as [Epr _].
  rewrite Epr in L2, L3.
  destruct (Upload.UploadResetableStreamToBlockBlob K R sched size options)
    as [[p o] h].
  destruct H as (-> & Hp & _ & Hrep & Hcommit). cbv zeta.
  unfold Upload.chunks in *.
  set (o := fst (Upload.configure K size options)) in *.
  set (job := Upload.batch K R sched size o) in *.
  rewrite Hrep, Hp. split; [exact L3|]. intros Hpr.
  destruct (L2 Hpr) as (M1 & M2 & M3 & M4).
  destruct (increasing_bounds 0 _ M2) as [_ Hin].
  split; [exact M2|]. split; [|split; [exact M3|split]].
  - apply Forall_forall. intros r Hr. split.
    + rewrite Forall_forall in Hin.
      specialize (Hin (fst r) (in_map fst _ _ Hr)). rewrite M3, Htp in Hin. lia.
    + rewrite Forall_forall in M4. exact (M4 r Hr).
  - rewrite length_map, M1. exact Hlen.
  - intros Hne. destruct (Hcommit Hne) as [_ Hperm].
    rewrite length_map, M1, M3, Htp. split.
    + apply Permutation_length in Hperm. now rewrite length_seq in Hperm.
    + rewrite (total_perm _ _ _ Hperm). exact Hall.
Qed.

Lemma progress_callbacks_example :
  let '(p, o, h) :=
    Upload.UploadFileToBlockBlob service_constants (blob_of 0) [1; 0; 0]%nat
      (300 * MB)
      (IUploadToBlockBlobOptions.mk (Some (128 * MB)) None true None None) in
  let loaded := map fst (reports (calls h)) in
  let n := Upload.chunks service_constants (300 * MB)
             (IUploadToBlockBlobOptions.mk (Some (128 * MB)) None true None None) in
  (true = false -> reports (calls h) = []) /\
  (true = true ->
   increasing 0 loaded /\
   Forall (fun r => 0 < fst r <= 300 * MB /\ snd r = Some (300 * MB))
          (reports (calls h)) /\
   last loaded 0 = transferProgress h /\
   (length loaded <= n)%nat /\
   (commits (calls h) <> [] -> length loaded = n /\ last loaded 0 = 300 * MB)).
Proof.
  apply (progress_callbacks_increase_to_the_size service_constants (blob_of 0)
           [1; 0; 0]%nat (300 * MB)
           (IUploadToBlockBlobOptions.mk (Some (128 * MB)) None true None None));
    vm_compute; repeat split; discriminate.
Defined.

(** ** Two runs of a batch from related stores *)

Section BatchSimulation.

Context {St : Type}.
Variable operations : list (@Batch.Operation St).
Variable concurrency : positive.
Variable settles : nat -> nat -> option Error.
Variable related : St -> St -> Prop.

(** Every segment of every operation keeps the stores related. *)
Hypothesis segments_keep :
  forall op s, In op operations -> In s op ->
  forall st st', related st st' -> related (s st) (s st').

Lemma alike_can_start (j j' : @Batch.Job St) :
  alike related j j' ->
  Batch.can_start operations concurrency j = Batch.can_start operations concurrency j'.
Proof.
  intros (Hc & Ha & _ & Hr & _). unfold Batch.can_start. now rewrite Hc, Ha, Hr.
Qed.

Lemma alike_start (j j' : @Batch.Job St) :
  alike related j j' ->
  alike related (Batch.start_next operations j) (Batch.start_next operations j').
Proof.
  intros (Hc & Ha & Hd & Hr & Hs & Hk). unfold Batch.start_next. rewrite <- Hc.
  destruct (nth_error operations (Batch.cursor j)) as [op|] eqn:Eop;
    [|repeat split; assumption].
  pose proof (nth_error_In _ _ Eop) as Hin.
  unfold alike. job_simpl. rewrite <- Ha.
  repeat split; try assumption; try congruence.
  - destruct op as [|s op]; [assumption|].
    apply (segments_keep (s :: op) s Hin); [now left | assumption].
  - apply Forall_app. split; [assumption|]. constructor; [|constructor].
    job_simpl. intros s Hs'. apply (segments_keep op s Hin).
    destruct op; [contradiction | now right].
Qed.

Lemma alike_fill (fuel : nat) (j j' : @Batch.Job St) :
  alike related j j' ->
  alike related (Batch.fill operations concurrency fuel j)
        (Batch.fill operations concurrency fuel j').
Proof.
  revert j j'. induction fuel as [|fuel IH]; intros j j' H; simpl; [assumption|].
  rewrite <- (alike_can_start j j' H).
  destruct (Batch.can_start operations concurrency j); [|assumption].
  apply IH. now apply alike_start.
Qed.

Lemma alike_deliver (pick : nat) (j j' : @Batch.Job St) :
  alike related j j' ->
  alike related (Batch.deliver settles pick j) (Batch.deliver settles pick j').
Proof.
  intros (Hc & Ha & Hd & Hr & Hs & Hk). unfold Batch.deliver. rewrite <- Ha.
  set (p := (pick mod length (Batch.actives j))%nat).
  destruct (nth_error (Batch.actives j) p) as [a|] eqn:Ea;
    [|repeat split; assumption].
  assert (Hmid : Forall (fun a => forall s, In s (Batch.a_rest a) ->
                           forall st st', related st st' -> related (s st) (s st'))
                   (firstn p (Batch.actives j) ++ a :: skipn (S p) (Batch.actives j)))
    by (rewrite (firstn_skipn_middle _ _ Ea); exact Hk).
  apply Forall_app in Hmid. destruct Hmid as [Hpre Hpost].
  inversion Hpost as [|a' l' Hka Hpost']; subst.
  assert (Hko : Forall (fun a => forall s, In s (Batch.a_rest a) ->
                          forall st st', related st st' -> related (s st) (s st'))
                  (firstn p (Batch.actives j) ++ skipn (S p) (Batch.actives j)))
    by (apply Forall_app; now split).
  unfold Batch.resume, alike.
  destruct (settles _ _); job_simpl; [repeat split; try assumption; congruence|].
  destruct (Batch.a_rest a) as [|s [|s' rest]] eqn:Er; job_simpl.
  - repeat split; try assumption; congruence.
  - repeat split; try assumption; try congruence.
    apply Hka; [now left | assumption].
  - repeat split; try assumption; try congruence.
    + apply Hka; [now left | assumption].
    + apply Forall_app. split; [assumption|]. constructor; [|constructor].
      job_simpl. intros s0 Hs0. apply Hka. now right.
Qed.

Lemma alike_drive (sched : list nat) (j j' : @Batch.Job St) :
  alike related j j' ->
  alike related (Batch.drive operations concurrency settles sched j)
        (Batch.drive operations concurrency settles sched j').
Proof.
  revert j j'. induction sched as [|pick sched IH]; intros j j' H; simpl;
    [assumption|].
  pose proof H as (_ & Ha & _). rewrite <- Ha.
  destruct (Batch.actives j); [assumption|].
  apply IH. unfold Batch.parallelExecute. apply alike_fill. now apply alike_deliver.
Qed.

Lemma alike_do (sched : list nat) (st st' : St) :
  related st st' ->
  alike related (Batch.do operations concurrency settles sched st)
        (Batch.do operations concurrency settles sched st').
Proof.
  intros H. unfold Batch.do, Batch.parallelExecute.
  apply alike_drive, alike_fill. unfold alike, Batch.init. simpl.
  repeat split; try assumption. constructor.
Qed.

Lemma alike_outcome (j j' : @Batch.Job St) :
  alike related j j' -> Batch.outcome j = Batch.outcome j'.
Proof.
  intros (_ & Ha & _ & Hr & _). unfold Batch.outcome. now rewrite Ha, Hr.
Qed.

End BatchSimulation.

(** ** A download with [count = 0] *)

Lemma download_configure_count (K : Constants) (offset count : Z)
  (o : IDownloadFromBlobOptions.t) :
  0 <= count ->
  Download.configure K offset count o = Download.configure K offset 0 o.
Proof.
  intros Hc. unfold Download.configure.
  destruct (Z.ltb_spec count 0); [lia|]. reflexivity.
Qed.

Lemma range_task_behind (cs : list Call) (offset count : Z)
  (options : IDownloadFromBlobOptions.t) (op : Batch.Operation) (s : Heap -> Heap) :
  In op (Download.operations offset count options) -> In s op ->
  forall h h', behind cs h h' -> behind cs (s h) (s h').
Proof.
  unfold Download.operations. intros Hop Hs h h' (H1 & H2 & H3 & H4).
  apply in_map_iff in Hop. destruct Hop as (off & <- & _).
  unfold behind, Download.rangeTask, report, add_progress, call in *.
  destruct Hs as [<-|[<-|[<-|[]]]]; simpl;
    try (destruct (IDownloadFromBlobOptions.progress options); simpl);
    rewrite ?H1, ?H2, ?H3, ?H4, <- ?app_assoc; repeat split; reflexivity.
Qed.

(** The transfer from a heap with earlier calls in its log goes as the
    transfer from the heap without them. *)
Lemma transfer_behind (K : Constants) (R : Remote) (sched : list nat)
  (offset count bufferLength : Z) (options : IDownloadFromBlobOptions.t)
  (cs : list Call) (h h' : Heap) :
  behind cs h h' ->
  fst (Download.transfer K R sched offset count bufferLength options h)
  = fst (Download.transfer K R sched offset count bufferLength options h') /\
  behind cs
    (snd (Download.transfer K R sched offset count bufferLength options h))
    (snd (Download.transfer K R sched offset count bufferLength options h')).
Proof.
  intros Hb. unfold Download.transfer.
  destruct (bufferLength <? count); [now split|]. simpl.
  pose proof (alike_do (Download.operations offset count options)
                (Download.concurrency K options) (Download.range_settles R)
                (behind cs) (range_task_behind cs offset count options)
                sched h h' Hb) as Hsim.
  rewrite (alike_outcome _ _ _ Hsim). split; [reflexivity|]. apply Hsim.
Qed.

(** X7. A download called with [count = 0] from an offset within a blob of
    [L] bytes goes exactly as the call with [count = L - offset]: the same
    promise, the same options object, the same progress and the same calls
    in the same order, after the one [getProperties] call that resolves
    the count. *)
Theorem zero_count_downloads_the_rest_of_the_blob
  (K : Constants) (R : Remote) (sched : list nat) (offset L bufferLength : Z)
  (options : IDownloadFromBlobOptions.t) :
  0 <= number (IDownloadFromBlobOptions.blockSize options) ->
  0 <= offset < L ->
  getProperties_settles R = inr L ->
  let '(p, o, h) :=
    Download.DownloadBlobToBuffer K R sched offset 0 bufferLength options in
  let '(p', o', h') :=
    Download.DownloadBlobToBuffer K R sched offset (L - offset) bufferLength options in
  p = p' /\ o = o' /\
  calls h = getProperties :: calls h' /\
  transferProgress h = transferProgress h'.
Proof.
  intros Hbs Hoff Hget. unfold Download.DownloadBlobToBuffer.
  rewrite (download_configure_count K offset (L - offset) options) by lia.
  assert (Hacc : snd (Download.configure K offset 0 options) = None).
  { revert Hbs. destruct options as [[b|] par pr [ac|]];
      try destruct (b =? 0) eqn:Eb;
      unfold Download.configure, falsy, number,
        IDownloadFromBlobOptions.set_blockSize,
        IDownloadFromBlobOptions.set_blobAccessConditions;
      cbn -[Z.eqb Z.ltb Z.gtb Z.mul]; rewrite ?Eb; intros Hbs;
      repeat (case_if; cbn -[Z.eqb Z.ltb Z.gtb Z.mul]; rewrite ?Eb);
      comparisons; cbn -[Z.mul] in *; try reflexivity; lia. }
  destruct (Download.configure K offset 0 options) as [o thrown].
  simpl in Hacc. subst thrown. rewrite Hget. cbn -[Z.eqb Z.ltb Z.sub].
  destruct (Z.ltb_spec (L - offset) 0); [lia|].
  destruct (Z.eqb_spec (L - offset) 0); [lia|].
  destruct (transfer_behind K R sched offset (L - offset) bufferLength o
              [getProperties] (call getProperties empty_heap) empty_heap)
    as [Hp (_ & _ & Htp & Hcalls)];
    [repeat split|].
  destruct (Download.transfer K R sched offset (L - offset) bufferLength o
              (call getProperties empty_heap)) as [p h].
  destruct (Download.transfer K R sched offset (L - offset) bufferLength o
              empty_heap) as [p' h'].
  simpl in *. now repeat split.
Qed.

Lemma zero_count_download_example :
  let '(p, o, h) :=
    Download.DownloadBlobToBuffer service_constants (blob_of 20)
      (repeat 0%nat 10) 3 0 32 (download_options (Some 4)) in
  let '(p', o', h') :=
    Download.DownloadBlobToBuffer service_constants (blob_of 20)
      (repeat 0%nat 10) 3 (20 - 3) 32 (download_options (Some 4)) in
  p = p' /\ o = o' /\
  calls h = getProperties :: calls h' /\
  transferProgress h = transferProgress h'.
Proof.
  apply (zero_count_downloads_the_rest_of_the_blob service_constants (blob_of 20)
           (repeat 0%nat 10) 3 20 32 (download_options (Some 4)));
    [vm_compute; discriminate | lia | reflexivity].
Defined.

(** ** The ranged reads of a download, for every offset *)

Section DownloadRuns.

Variable K : Constants.
Variable R : Remote.
Variable offset count : Z.
Variable options : IDownloadFromBlobOptions.t.

Local Abbreviation bs := (number (IDownloadFromBlobOptions.blockSize options)).
Local Abbreviation n := (Z.to_nat (Math_ceil_div count bs)).
Local Abbreviation ops := (Download.operations offset count options).
Local Abbreviation conc := (Download.concurrency K options).
Local Abbreviation settles := (Download.range_settles R).

Hypothesis blockSize_pos : 0 < bs.

Lemma download_operations_length : length ops = n.
Proof.
  unfold Download.operations.
  rewrite length_map, offsets_closed_form, length_map, length_seq by assumption.
  reflexivity.
Qed.

Lemma nth_block_offset (i : nat) :
  (i < n)%nat ->
  nth i (Download.offsets offset count options) 0 = offset + Z.of_nat i * bs.
Proof.
  intros Hi. rewrite offsets_closed_form by assumption.
  erewrite nth_error_nth; [reflexivity|].
  rewrite nth_error_map, nth_error_seq.
  destruct (Nat.ltb_spec i n); [reflexivity | lia].
Qed.

Lemma range_task_weight (i : nat) :
  (i < length ops)%nat -> Batch.weight (tl (nth i ops [])) = 2%nat.
Proof.
  intros Hi.
  rewrite (download_nth offset count options i _ (nth_error_nth' ops [] Hi)).
  reflexivity.
Qed.

(** The tasks of a job are tasks of the batch. *)
Lemma rejected_in_range (j : @Batch.Job Heap) (i : nat) (e : Error) :
  Batch.wf ops settles j -> In (i, e) (Batch.rejected j) -> (i < length ops)%nat.
Proof.
  intros (Hc & Hp & _) Hin.
  assert (H : In i (seq 0 (Batch.cursor j))).
  { eapply Permutation_in; [exact Hp|]. apply in_or_app. right.
    apply in_or_app. left. exact (in_map fst _ _ Hin). }
  apply in_seq in H. lia.
Qed.

(** The reads a transfer has issued are those of the first tasks, in task
    order, from the offsets [offset + k * blockSize]. *)
Lemma transfer_reads (sched : list nat) (bufferLength : Z) (h0 : Heap) :
  ranges (calls h0) = [] -> regions (calls h0) = [] -> transferProgress h0 = 0 ->
  let '(p, h) := Download.transfer K R sched offset count bufferLength options h0 in
  exists c, (c <= n)%nat /\
    map fst (ranges (calls h)) = map (fun k => offset + Z.of_nat k * bs) (seq 0 c) /\
    (p = Fulfilled Void -> count <= bufferLength /\ c = n).
Proof.
  intros Hr Hg Hp. unfold Download.transfer.
  destruct (Z.ltb_spec bufferLength count) as [Hlt|Hge].
  - exists 0%nat. rewrite Hr. split; [lia|]. split; [reflexivity | discriminate].
  - destruct (download_batch_reading K R offset count options sched h0 Hr Hg Hp)
      as (H1 & _).
    pose proof (wf_do ops conc settles sched h0) as Hwf.
    pose proof (do_saturated ops conc settles sched h0) as Hs.
    set (j := Batch.do ops conc settles sched h0) in *.
    exists (Batch.cursor j). split; [|split].
    + destruct Hwf as (Hc & _). rewrite download_operations_length in Hc. exact Hc.
    + cbn [snd]. rewrite H1, map_map. apply map_ext_in. intros i Hi.
      apply in_seq in Hi. destruct Hwf as (Hc & _).
      rewrite download_operations_length in Hc.
      unfold Download.range_of. cbn [fst]. apply nth_block_offset. lia.
    + cbn [fst]. intros Hf. split; [assumption|].
      destruct (Batch.outcome j) as [[]|e|] eqn:Ho; try discriminate.
      apply outcome_fulfilled in Ho. destruct Ho as [Ea Er].
      rewrite <- download_operations_length.
      exact (proj1 (rest_all_completed _ _ _ _ Hwf Hs Ea Er)).
Qed.

(** A transfer is fulfilled exactly when the read and the copy of every
    task succeed; a rejected one carries the failure of a read or a copy. *)
Lemma transfer_outcome (sched : list nat) (bufferLength : Z) (h0 : Heap) :
  count <= bufferLength ->
  (2 * n <= length sched)%nat ->
  let p := fst (Download.transfer K R sched offset count bufferLength options h0) in
  (p = Fulfilled Void <->
   forall i, (i < n)%nat ->
     download_settles R i = None /\ streamToBuffer_settles R i = None) /\
  (forall e, p = Rejected e ->
   exists i code, (i < n)%nat /\ e = TransferFailure code /\
     (download_settles R i = Some code \/ streamToBuffer_settles R i = Some code)).
Proof.
  intros Hbuf Hsched. unfold Download.transfer.
  destruct (Z.ltb_spec bufferLength count) as [Hlt|_]; [lia|]. cbn [fst].
  pose proof (wf_do ops conc settles sched h0) as Hwf.
  pose proof (do_saturated ops conc settles sched h0) as Hs.
  pose proof (reads_settle K R offset count options sched h0) as Hsettle.
  rewrite download_operations_length in Hsettle. specialize (Hsettle Hsched).
  set (j := Batch.do ops conc settles sched h0) in *.
  assert (Hrej : forall i e, In (i, e) (Batch.rejected j) ->
            exists code, (i < n)%nat /\ e = TransferFailure code /\
              (download_settles R i = Some code
               \/ streamToBuffer_settles R i = Some code)).
  { intros i e Hin. pose proof (rejected_in_range j i e Hwf Hin) as Hi.
    rewrite download_operations_length in Hi.
    destruct Hwf as (_ & _ & _ & Hr & _). destruct (Hr i e Hin) as [k Hk].
    unfold Download.range_settles, failure in Hk.
    destruct k;
      [destruct (download_settles R i) as [code|] eqn:E
      |destruct (streamToBuffer_settles R i) as [code|] eqn:E];
      inversion Hk; subst; exists code; auto. }
  split; [split|].
  - intros Hf. destruct (Batch.outcome j) as [[]|e|] eqn:Ho; try discriminate.
    apply outcome_fulfilled in Ho. destruct Ho as [Ea Er].
    destruct (rest_all_completed _ _ _ _ Hwf Hs Ea Er) as [_ Hperm].
    intros i Hi. rewrite <- download_operations_length in Hi.
    assert (Hin : In i (Batch.completed j))
      by (eapply Permutation_in; [apply Permutation_sym; exact Hperm
                                 | apply in_seq; lia]).
    destruct Hwf as (_ & _ & _ & _ & Hd).
    pose proof (Hd i Hin 0%nat) as H0. pose proof (Hd i Hin 1%nat) as H1.
    rewrite range_task_weight in H0, H1 by assumption.
    specialize (H0 ltac:(lia)). specialize (H1 ltac:(lia)).
    unfold Download.range_settles, failure in H0, H1.
    destruct (download_settles R i), (streamToBuffer_settles R i);
      try discriminate. now split.
  - intros Hall. destruct (Batch.outcome j) as [[]|e|] eqn:Ho;
      [reflexivity | | contradiction].
    exfalso. apply outcome_rejected in Ho. destruct Ho as (_ & i & l & Er).
    destruct (Hrej i e) as (code & Hi & _ & Hc); [rewrite Er; now left|].
    destruct (Hall i Hi) as [Hd Hb]. rewrite Hd, Hb in Hc.
    destruct Hc; discriminate.
  - intros e He. destruct (Batch.outcome j) as [[]|e'|] eqn:Ho; try discriminate.
    simpl in He. inversion He; subst e'.
    apply outcome_rejected in Ho. destruct Ho as (_ & i & l & Er).
    destruct (Hrej i e) as (code & H); [rewrite Er; now left|].
    exists i, code. exact H.
Qed.

End DownloadRuns.

(** A call with a count goes straight to the transfer. *)
Lemma download_with_count (K : Constants) (R : Remote) (sched : list nat)
  (offset count bufferLength : Z) (o : IDownloadFromBlobOptions.t) :
  positive_constants K ->
  0 <= number (IDownloadFromBlobOptions.blockSize o) -> 0 <= offset -> 0 < count ->
  let o' := fst (Download.configure K offset count o) in
  0 < number (IDownloadFromBlobOptions.blockSize o') /\
  Download.DownloadBlobToBuffer K R sched offset count bufferLength o
  = (fst (Download.transfer K R sched offset count bufferLength o' empty_heap), o',
     snd (Download.transfer K R sched offset count bufferLength o' empty_heap)).
Proof.
  intros HK Hbs Hoff Hcount.
  destruct (download_configure_accepts K offset count o HK Hbs Hoff ltac:(lia))
    as [Hacc Hpos].
  cbv zeta. split; [exact Hpos|]. unfold Download.DownloadBlobToBuffer.
  destruct (Download.configure K offset count o) as [o' thrown].
  simpl in *. subst thrown.
  destruct (Z.eqb_spec count 0); [lia|].
  now destruct (Download.transfer K R sched offset count bufferLength o' empty_heap).
Qed.

(** X8. For every offset, a download of [count > 0] bytes issues its
    ranged reads in task order from the positions [offset],
    [offset + blockSize], [offset + 2 * blockSize], ... of the blob: at
    every moment and under every schedule the reads issued are the first
    [c] of them for some [c] up to [ceil (count / blockSize)], and a
    fulfilled download has issued exactly [ceil (count / blockSize)]. *)
Theorem ranged_reads_start_at_block_offsets
  (K : Constants) (R : Remote) (sched : list nat)
  (offset count bufferLength : Z) (options : IDownloadFromBlobOptions.t) :
  positive_constants K ->
  0 <= number (IDownloadFromBlobOptions.blockSize options) ->
  0 <= offset -> 0 < count ->
  let '(p, o, h) :=
    Download.DownloadBlobToBuffer K R sched offset count bufferLength options in
  let bs := number (IDownloadFromBlobOptions.blockSize o) in
  let n := Z.to_nat (Math_ceil_div count bs) in
  exists c, (c <= n)%nat /\
    map fst (ranges (calls h)) = map (fun k => offset + Z.of_nat k * bs) (seq 0 c) /\
    (p = Fulfilled Void -> count <= bufferLength /\ c = n).
Proof.
  intros HK Hbs Hoff Hcount.
  destruct (download_with_count K R sched offset count bufferLength options
              HK Hbs Hoff Hcount) as [Hpos ->].
  pose proof (transfer_reads K R offset count _ Hpos sched bufferLength empty_heap
                eq_refl eq_refl eq_refl) as H.
  destruct (Download.transfer _ _ _ _ _ _ _ _) as [p h]. exact H.
Qed.

Lemma ranged_reads_start_at_block_offsets_example :
  let '(p, o, h) :=
    Download.DownloadBlobToBuffer service_constants (blob_of 20)
      (repeat 0%nat 6) 1 10 10 (download_options (Some 4)) in
  let bs := number (IDownloadFromBlobOptions.blockSize o) in
  let n := Z.to_nat (Math_ceil_div 10 bs) in
  exists c, (c <= n)%nat /\
    map fst (ranges (calls h)) = map (fun k => 1 + Z.of_nat k * bs) (seq 0 c) /\
    (p = Fulfilled Void -> 10 <= 10 /\ c = n).
Proof.
  apply (ranged_reads_start_at_block_offsets service_constants (blob_of 20)
           (repeat 0%nat 6) 1 10 10 (download_options (Some 4)));
    [vm_compute; repeat split | vm_compute; discriminate | lia | lia].
Defined.

(** X9. For every offset, under a schedule that lets every task settle, a
    download of [count > 0] bytes into a buffer that holds them is
    fulfilled exactly when the ranged read and the copy into the buffer
    succeed for every one of its [ceil (count / blockSize)] tasks;
    otherwise it is rejected with the failure of the read or the copy of
    one of its tasks. *)
Theorem download_is_fulfilled_iff_every_read_and_copy_succeeds
  (K : Constants) (R : Remote) (sched : list nat)
  (offset count bufferLength : Z) (options : IDownloadFromBlobOptions.t) :
  positive_constants K ->
  0 <= number (IDownloadFromBlobOptions.blockSize options) ->
  0 <= offset -> 0 < count <= bufferLength ->
  let n := Z.to_nat (Math_ceil_div count
             (number (IDownloadFromBlobOptions.blockSize
                        (fst (Download.configure K offset count options))))) in
  (2 * n <= length sched)%nat ->
  let '(p, o, h) :=
    Download.DownloadBlobToBuffer K R sched offset count bufferLength options in
  (p = Fulfilled Void <->
   forall i, (i < n)%nat ->
     download_settles R i = None /\ streamToBuffer_settles R i = None) /\
  (p <> Fulfilled Void ->
   exists i code, (i < n)%nat /\ p = Rejected (TransferFailure code) /\
     (download_settles R i = Some code \/ streamToBuffer_settles R i = Some code)).
Proof.
  intros HK Hbs Hoff Hcount n Hsched. subst n.
  destruct (download_with_count K R sched offset count bufferLength options
              HK Hbs Hoff ltac:(lia)) as [Hpos ->].
  set (o := fst (Download.configure K offset count options)) in *.
  destruct (transfer_outcome K R offset count o Hpos sched bufferLength empty_heap
              ltac:(lia) Hsched) as [Hiff Hrej].
  split; [exact Hiff|]. intros Hnot.
  pose proof (reads_settle K R offset count o sched empty_heap) as Hsettle.
  rewrite (download_operations_length offset count o Hpos) in Hsettle.
  specialize (Hsettle Hsched).
  unfold Download.transfer in *.
  destruct (Z.ltb_spec bufferLength count); [lia|]. cbn [fst] in *.
  destruct (Batch.outcome _) as [[]|e|]; simpl in *;
    [now contradiction Hnot | | contradiction].
  destruct (Hrej e eq_refl) as (i & code & Hi & -> & Hc).
  exists i, code. now repeat split.
Qed.

Lemma download_is_fulfilled_example :
  let n := Z.to_nat (Math_ceil_div 10
             (number (IDownloadFromBlobOptions.blockSize
                        (fst (Download.configure service_constants 1 10
                                (download_options (Some 4))))))) in
  let R := mkRemote None (fun _ => None) None (inr 20)
             (fun i => if (i =? 1)%nat then Some 503%nat else None) (fun _ => None) in
  let '(p, o, h) :=
    Download.DownloadBlobToBuffer service_constants R (repeat 0%nat 6) 1 10 10
      (download_options (Some 4)) in
  (p = Fulfilled Void <->
   forall i, (i < n)%nat ->
     download_settles R i = None /\ streamToBuffer_settles R i = None) /\
  (p <> Fulfilled Void ->
   exists i code, (i < n)%nat /\ p = Rejected (TransferFailure code) /\
     (download_settles R i = Some code \/ streamToBuffer_settles R i = Some code)).
Proof.
  apply (download_is_fulfilled_iff_every_read_and_copy_succeeds service_constants
           (mkRemote None (fun _ => None) None (inr 20)
              (fun i => if (i =? 1)%nat then Some 503%nat else None) (fun _ => None))
           (repeat 0%nat 6) 1 10 10 (download_options (Some 4)));
    [vm_compute; repeat split | vm_compute; discriminate | lia | lia
    | vm_compute; lia].
Defined.

(** X10. Downloads from offset 0, with a count or with [count = 0] for the
    whole blob: when every read and copy succeeds, under a schedule that
    lets every task settle, the regions of the buffer written are the
    consecutive blocks of the block size that tile [0, c), where [c] is the
    count or, for [count = 0], the length of the blob, and the progress
    ends at [c]. *)
Theorem download_from_offset_zero_fills_the_buffer
  (K : Constants) (R : Remote) (sched : list nat)
  (count c bufferLength : Z) (options : IDownloadFromBlobOptions.t) :
  positive_constants K ->
  0 <= number (IDownloadFromBlobOptions.blockSize options) ->
  (0 < count /\ c = count) \/
  (count = 0 /\ getProperties_settles R = inr c /\ 0 < c) ->
  c <= bufferLength ->
  (forall i, download_settles R i = None /\ streamToBuffer_settles R i = None) ->
  let bs := number (IDownloadFromBlobOptions.blockSize
                      (fst (Download.configure K 0 count options))) in
  let n := Z.to_nat (Math_ceil_div c bs) in
  (2 * n <= length sched)%nat ->
  let '(p, _, h) :=
    Download.DownloadBlobToBuffer K R sched 0 count bufferLength options in
  p = Fulfilled Void /\
  length (ranges (calls h)) = n /\
  Permutation (regions (calls h)) (map (tile bs c) (seq 0 n)) /\
  tiles 0 c (map (tile bs c) (seq 0 n)) /\
  transferProgress h = c.
Proof.
  intros HK Hbs [[Hcount ->]|(-> & Hget & Hc)] Hbuf Hok bs n Hsched.
  - pose proof (download_from_zero K R sched count bufferLength options
                  HK Hbs Hcount Hbuf Hok Hsched) as H.
    destruct (download_with_count K R sched 0 count bufferLength options
                HK Hbs ltac:(lia) Hcount) as [Hpos E].
    pose proof (transfer_reads K R 0 count _ Hpos sched bufferLength empty_heap
                  eq_refl eq_refl eq_refl) as Hreads.
    rewrite E in *.
    destruct (Download.transfer _ _ _ _ _ _ _ _) as [p h].
    destruct H as (Hp & Hg & Ht & Hprog).
    destruct Hreads as (m & _ & Hm & Hfull). destruct (Hfull Hp) as [_ ->].
    repeat split; try assumption.
    apply (f_equal (@length Z)) in Hm.
    now rewrite !length_map, length_seq in Hm.
  - pose proof (download_whole_blob K R sched c bufferLength options
                  HK Hbs Hget Hc Hbuf Hok Hsched) as H.
    destruct (Download.DownloadBlobToBuffer _ _ _ _ _ _ _) as [[p o] h].
    destruct H as (Hp & Hlen & _ & Hg & Ht & Hprog). now repeat split.
Qed.

Lemma download_from_offset_zero_example :
  let bs := number (IDownloadFromBlobOptions.blockSize
                      (fst (Download.configure service_constants 0 0
                              (download_options (Some 4))))) in
  let n := Z.to_nat (Math_ceil_div 10 bs) in
  let '(p, _, h) :=
    Download.DownloadBlobToBuffer service_constants (blob_of 10)
      [2; 0; 1; 0; 0; 0]%nat 0 0 16 (download_options (Some 4)) in
  p = Fulfilled Void /\
  length (ranges (calls h)) = n /\
  Permutation (regions (calls h)) (map (tile bs 10) (seq 0 n)) /\
  tiles 0 10 (map (tile bs 10) (seq 0 n)) /\
  transferProgress h = 10.
Proof.
  apply (download_from_offset_zero_fills_the_buffer service_constants (blob_of 10)
           [2; 0; 1; 0; 0; 0]%nat 0 10 16 (download_options (Some 4)));
    [vm_compute; repeat split | vm_compute; discriminate
    | right; repeat split | lia | intros i; split; reflexivity
    | vm_compute; lia].
Defined.

(** ** The parallelism of the streaming upload *)

(** X11. For [maxBuffers >= 1] the parallelism line 354 passes to the
    scheduler is [ceil (3 * maxBuffers / 4)]: it is at least 1 and at most
    [maxBuffers], and it is smaller than [maxBuffers], as the comment above
    the line asks, exactly when [maxBuffers] is 4 or more. *)
Theorem outgoing_parallelism_is_below_maxBuffers_from_four (maxBuffers : Z) :
  1 <= maxBuffers ->
  let parallelism := Z.pos (UploadStream.outgoingConcurrency maxBuffers) in
  parallelism = Math_ceil_div (maxBuffers * 3) 4 /\
  4 * parallelism - 4 < 3 * maxBuffers <= 4 * parallelism /\
  1 <= parallelism <= maxBuffers /\
  (parallelism < maxBuffers <-> 4 <= maxBuffers).
Proof.
  intros Hm. cbv zeta. unfold UploadStream.outgoingConcurrency.
  assert (Hpos : 0 < Math_ceil_div (maxBuffers * 3) 4)
    by (apply ceil_div_pos; lia).
  rewrite Z2Pos.id by assumption.
  unfold Math_ceil_div in *.
  pose proof (Z.mul_div_le (- (maxBuffers * 3)) 4 ltac:(lia)).
  pose proof (Z.mul_succ_div_gt (- (maxBuffers * 3)) 4 ltac:(lia)).
  repeat split; lia.
Qed.

Lemma outgoing_parallelism_example :
  let parallelism := Z.pos (UploadStream.outgoingConcurrency 3) in
  parallelism = Math_ceil_div (3 * 3) 4 /\
  4 * parallelism - 4 < 3 * 3 <= 4 * parallelism /\
  1 <= parallelism <= 3 /\
  (parallelism < 3 <-> 4 <= 3).
Proof.
  apply (outgoing_parallelism_is_below_maxBuffers_from_four 3). lia.
Defined.

(** ** How an upload is rejected *)

(** X12. A ranged upload is only ever rejected for its block size, its
    size or its block count, or with the failure of a remote call. The
    first three are raised before any call: the log of calls and the block
    list are then empty. After a first call the only rejections are
    failures of remote calls. *)
Theorem upload_is_rejected_before_any_call_or_by_a_remote_failure
  (K : Constants) (R : Remote) (sched : list nat) (size : Z)
  (options : IUploadToBlockBlobOptions.t) :
  let '(p, o, h) := Upload.UploadFileToBlockBlob K R sched size options in
  (forall e, p = Rejected e ->
     e = BlockSizeOutOfRange \/ e = SizeTooLarge size \/ e = TooManyBlocks
     \/ exists code, e = TransferFailure code) /\
  (p = Rejected BlockSizeOutOfRange \/ p = Rejected (SizeTooLarge size)
   \/ p = Rejected TooManyBlocks ->
   calls h = [] /\ blockList h = [] /\ transferProgress h = 0) /\
  (calls h <> [] ->
   forall e, p = Rejected e -> exists code, e = TransferFailure code).
Proof.
  unfold Upload.UploadFileToBlockBlob.
  pose proof (upload_configure_fields K size options) as Hf. cbv zeta in Hf.
  destruct Hf as (_ & _ & _ & _ & Herr).
  pose proof (upload_rejection K R sched size options) as Hrej.
  unfold Upload.UploadResetableStreamToBlockBlob in *.
  destruct (Upload.configure K size options) as [o [e0|]]; simpl in *.
  - split; [|split].
    + intros e He. inversion He; subst.
      destruct (Herr e eq_refl) as [->| ->]; auto.
    + intros _. now repeat split.
    + intros Hne. now contradiction Hne.
  - specialize (Hrej eq_refl).
    destruct (size <=? _); simpl in *.
    + split; [|split].
      * intros e He. destruct (Hrej e He) as [->|Hc]; auto.
      * intros [H|[H|H]]; destruct (settled_rejection _ _ _ H); discriminate.
      * intros _ e He. exact (settled_rejection _ _ _ He).
    + destruct (_ >? _); simpl in *.
      * split; [|split].
        -- intros e He. inversion He; auto.
        -- intros _. now repeat split.
        -- intros Hne. now contradiction Hne.
      * destruct (Batch.outcome _) as [[]|e'|] eqn:Ho; simpl in *.
        -- split; [|split].
           ++ intros e He. destruct (Hrej e He) as [->|Hc]; auto.
           ++ intros [H|[H|H]]; destruct (settled_rejection _ _ _ H); discriminate.
           ++ intros _ e He. exact (settled_rejection _ _ _ He).
        -- destruct (rejected_batch (Upload.operations size o)
                       (Upload.concurrency K o) R sched e' Ho)
             as (i & code & _ & _ & ->).
           split; [|split].
           ++ intros e He. inversion He; subst. eauto.
           ++ intros [H|[H|H]]; discriminate.
           ++ intros _ e He. inversion He; subst. eauto.
        -- split; [|split].
           ++ discriminate.
           ++ intros [H|[H|H]]; discriminate.
           ++ discriminate.
Qed.

(** ** The copies into the caller's buffer *)

Section BufferBounds.

Variable K : Constants.
Variable R : Remote.
Variable offset count : Z.
Variable options : IDownloadFromBlobOptions.t.

Local Abbreviation bs := (number (IDownloadFromBlobOptions.blockSize options)).
Local Abbreviation ops := (Download.operations offset count options).
Local Abbreviation conc := (Download.concurrency K options).
Local Abbreviation settles := (Download.range_settles R).
Local Abbreviation inside :=
  (Forall (fun r : Z * Z => 0 <= fst r < count /\ snd r <= count - offset)).

Hypothesis blockSize_pos : 0 < bs.

Lemma copies_inside_preserved :
  Batch.preserved ops conc settles
    (fun j => Batch.wf ops settles j /\ inside (regions (calls (Batch.store j)))).
Proof.
  split.
  - intros j [Hwf Hin] Hs. split; [eapply wf_start; eassumption|].
    destruct (can_start_true _ _ _ Hs) as (_ & _ & op & Eop).
    pose proof (download_nth _ _ _ _ _ Eop) as ->.
    unfold Batch.start_next. rewrite Eop. job_simpl. simpl.
    rewrite regions_app. simpl. now rewrite app_nil_r.
  - intros j a pre post [Hwf Hin] Ea. split; [eapply wf_resume; eassumption|].
    destruct (active_in_range _ _ _ _ _ _ Hwf Ea) as (_ & Hlt & Hl).
    assert (Eop : nth (Batch.a_index a) ops []
                  = Download.rangeTask offset count options
                      (nth (Batch.a_index a) (Download.offsets offset count options) 0)).
    { apply download_nth. now apply nth_error_nth'. }
    rewrite (download_operations_length offset count options blockSize_pos) in Hlt.
    pose proof (nth_block_offset offset count options blockSize_pos _ Hlt) as Hoff.
    unfold Batch.resume.
    destruct (rest_of_three _ _ _ _ _ _ Hl Eop) as [[E0 Er]|[E1 Er]]; rewrite Er.
    + destruct (settles _ _); job_simpl; [assumption|].
      simpl. rewrite regions_app. apply Forall_app. split; [assumption|].
      simpl. constructor; [|constructor]. simpl. rewrite Hoff.
      pose proof (chunkEnd_le_count count options
                    (offset + Z.of_nat (Batch.a_index a) * bs)).
      pose proof (blocks_needed bs count blockSize_pos _ Hlt).
      split; nia.
    + destruct (settles _ _); job_simpl; [assumption|].
      match goal with
      | |- context [report ?cb ?t ?h] =>
          destruct (report_heap cb t h) as (_ & _ & _ & _ & _ & _ & ->)
      end.
      assumption.
Qed.

Lemma transfer_copies_inside (sched : list nat) (bufferLength : Z) (h0 : Heap) :
  regions (calls h0) = [] ->
  inside (regions (calls
    (snd (Download.transfer K R sched offset count bufferLength options h0)))).
Proof.
  intros Hg. unfold Download.transfer.
  destruct (bufferLength <? count); cbn [snd]; [rewrite Hg; constructor|].
  apply (do_preserves_wf ops conc settles
           (fun j => inside (regions (calls (Batch.store j)))));
    [exact copies_inside_preserved|].
  simpl. rewrite Hg. constructor.
Qed.

End BufferBounds.

(** X13. A download never copies outside the caller's buffer: for every
    offset, under every schedule and whichever remote calls fail, each
    [streamToBuffer] call of a download of [count > 0] bytes targets a
    region of the buffer that starts at a position within [0, count) and
    ends by [count - offset], and a copy is only made when the buffer
    holds [count] bytes. *)
Theorem copies_stay_inside_the_buffer
  (K : Constants) (R : Remote) (sched : list nat)
  (offset count bufferLength : Z) (options : IDownloadFromBlobOptions.t) :
  positive_constants K ->
  0 <= number (IDownloadFromBlobOptions.blockSize options) ->
  0 <= offset -> 0 < count ->
  let '(p, o, h) :=
    Download.DownloadBlobToBuffer K R sched offset count bufferLength options in
  Forall (fun r => 0 <= fst r < count /\ snd r <= count - offset /\ count <= bufferLength)
         (regions (calls h)) /\
  (bufferLength < count -> calls h = []).
Proof.
  intros HK Hbs Hoff Hcount.
  destruct (download_with_count K R sched offset count bufferLength options
              HK Hbs Hoff Hcount) as [Hpos ->].
  pose proof (transfer_copies_inside K R offset count _ Hpos sched bufferLength
                empty_heap eq_refl) as H.
  unfold Download.transfer in *.
  destruct (Z.ltb_spec bufferLength count) as [Hlt|Hge]; cbn [snd] in *.
  - split; [constructor | reflexivity].
  - split; [|lia]. eapply Forall_impl; [|exact H]. cbv beta. intros r [H1 H2].
    repeat split; lia.
Qed.

Lemma copies_stay_inside_the_buffer_example :
  let '(p, o, h) :=
    Download.DownloadBlobToBuffer service_constants (blob_of 20)
      (repeat 0%nat 6) 1 10 10 (download_options (Some 4)) in
  Forall (fun r => 0 <= fst r < 10 /\ snd r <= 10 - 1 /\ 10 <= 10)
         (regions (calls h)) /\
  (10 < 10 -> calls h = []).
Proof.
  apply (copies_stay_inside_the_buffer service_constants (blob_of 20)
           (repeat 0%nat 6) 1 10 10 (download_options (Some 4)));
    [vm_compute; repeat split | vm_compute; discriminate | lia | lia].
Defined.

(** ** The blocks of the streaming upload *)

Lemma total_nth (l : list Z) :
  total (fun i => nth i l 0) (seq 0 (length l)) = fold_right Z.add 0 l.
Proof.
  induction l as [|x l IH] using rev_ind; [reflexivity|].
  rewrite length_app, Nat.add_1_r, seq_S, total_app.
  rewrite (total_ext_in _ (fun i => nth i l 0) (seq 0 (length l)))
    by (intros i Hi; apply in_seq in Hi; apply app_nth1; lia).
  rewrite IH. unfold total. cbn [fold_right Nat.add]. rewrite nth_middle.
  clear IH. induction l as [|y l IH]; simpl in *; lia.
Qed.

Lemma buffers_total (streamLength bufferSize : Z) :
  0 < bufferSize -> 0 <= streamLength ->
  fold_right Z.add 0 (BufferScheduler.buffers streamLength bufferSize) = streamLength.
Proof.
  intros Hb Hs. unfold BufferScheduler.buffers. rewrite fold_right_app.
  pose proof (Z.div_mod streamLength bufferSize ltac:(lia)) as Hdm.
  pose proof (Z.mod_pos_bound streamLength bufferSize Hb) as Hr.
  pose proof (Z.div_pos streamLength bufferSize Hs Hb) as Hq.
  assert (Hrep : forall (m : nat) (acc : Z),
            fold_right Z.add acc (repeat bufferSize m) = bufferSize * Z.of_nat m + acc).
  { induction m as [|m IH]; intros acc; [simpl; lia|].
    cbn [repeat fold_right]. rewrite IH. lia. }
  rewrite Hrep, Z2Nat.id by assumption.
  destruct (Z.ltb_spec 0 (streamLength mod bufferSize)); simpl; lia.
Qed.

Section StreamLog.

Variable R : Remote.
Variable streamLength bufferSize maxBuffers : Z.
Variable options : IUploadStreamToBlockBlobOptions.t.

Local Abbreviation bufs := (BufferScheduler.buffers streamLength bufferSize).
Local Abbreviation ops := (map (UploadStream.outgoingHandler options) bufs).
Local Abbreviation conc := (UploadStream.outgoingConcurrency maxBuffers).
Local Abbreviation stage_settles := (fun (i _ : nat) => failure (stageBlock_settles R i)).
Local Abbreviation block :=
  (fun k : nat => (generateBlockID (Z.of_nat k), Buffer (nth k bufs 0), nth k bufs 0)).

Lemma stream_blocks_preserved :
  Batch.preserved ops conc stage_settles
    (fun j => Batch.wf ops stage_settles j /\ numbered j /\
              stages (calls (Batch.store j)) = map block (seq 0 (Batch.cursor j))).
Proof.
  split.
  - intros j (Hwf & H4 & H1) Hs. split; [eapply wf_start; eassumption|].
    destruct (can_start_true _ _ _ Hs) as (_ & _ & op & Eop).
    pose proof (stream_nth _ _ _ _ _ Eop) as ->.
    unfold numbered, Batch.start_next in *. rewrite Eop. job_simpl.
    rewrite map_seq_S. simpl. rewrite stages_app, H1, H4. simpl.
    split; [lia | reflexivity].
  - intros j a pre post (Hwf & H4 & H1) Ea.
    split; [eapply wf_resume; eassumption|].
    destruct (active_in_range _ _ _ _ _ _ Hwf Ea) as (_ & Hlt & Hl).
    assert (Eop : nth (Batch.a_index a) ops []
                  = UploadStream.outgoingHandler options (nth (Batch.a_index a) bufs 0)).
    { apply stream_nth. now apply nth_error_nth'. }
    destruct (rest_of_two _ _ _ _ _ Hl Eop) as [E0 Er].
    unfold numbered, Batch.resume in *. rewrite Er.
    destruct (failure _); job_simpl; [split; assumption|].
    unfold report.
    destruct (IUploadStreamToBlockBlobOptions.progress options); simpl;
      rewrite ?stages_app; simpl; rewrite ?app_nil_r; split; assumption.
Qed.

Lemma stream_scheduler_blocks (sched : list nat) :
  let j := UploadStream.scheduler R sched streamLength bufferSize maxBuffers options in
  Batch.wf ops stage_settles j /\ numbered j /\
  stages (calls (Batch.store j)) = map block (seq 0 (Batch.cursor j)).
Proof.
  unfold UploadStream.scheduler, BufferScheduler.do.
  apply (do_preserves ops conc stage_settles
           (fun j => Batch.wf ops stage_settles j /\ numbered j /\
                     stages (calls (Batch.store j)) = map block (seq 0 (Batch.cursor j))));
    [exact stream_blocks_preserved|].
  split; [apply wf_init | now split].
Qed.

End StreamLog.

(** X14. The blocks of a streaming upload are numbered in dispatch order:
    although the handlers run concurrently and share one counter, at every
    moment and under every schedule the [stageBlock] calls made are those
    of the first [c] buffers, in order, the [k]-th under the id of [k]
    with its buffer and the length of its buffer, and the counter stands
    at [c]. When the block list is committed every buffer has been staged
    and the progress is the sum of the lengths of the buffers, the length
    of the stream for the buffers of a scheduler that cuts the stream into
    buffers of [bufferSize] bytes. *)
Theorem stream_blocks_are_numbered_in_dispatch_order
  (R : Remote) (sched : list nat) (streamLength bufferSize maxBuffers : Z)
  (options : IUploadStreamToBlockBlobOptions.t) :
  let bufs := BufferScheduler.buffers streamLength bufferSize in
  let '(p, o, h) :=
    UploadStream.UploadStreamToBlockBlob R sched streamLength bufferSize maxBuffers
      options in
  exists c, (c <= length bufs)%nat /\
    stages (calls h)
    = map (fun k => (generateBlockID (Z.of_nat k), Buffer (nth k bufs 0), nth k bufs 0))
          (seq 0 c) /\
    blockNum h = Z.of_nat c /\
    (commits (calls h) <> [] ->
     c = length bufs /\
     transferProgress h = fold_right Z.add 0 bufs /\
     (0 < bufferSize -> 0 <= streamLength -> transferProgress h = streamLength)).
Proof.
  cbv zeta. unfold UploadStream.UploadStreamToBlockBlob.
  set (o := UploadStream.configure options).
  destruct (stream_scheduler_blocks R streamLength bufferSize maxBuffers o sched)
    as (Hwf & Hnum & Hst).
  destruct (stream_scheduler_staging R streamLength bufferSize maxBuffers o sched)
    as [Hstaging _].
  pose proof (fulfilled_batch
                (map (UploadStream.outgoingHandler o)
                     (BufferScheduler.buffers streamLength bufferSize))
                (UploadStream.outgoingConcurrency maxBuffers) R
                (fun i => nth i (BufferScheduler.buffers streamLength bufferSize) 0)
                (stream_one_await streamLength bufferSize o) sched) as Hfull.
  cbv zeta in Hfull. unfold UploadStream.scheduler, BufferScheduler.do in *.
  specialize (Hfull Hstaging).
  set (j := Batch.do _ _ _ sched empty_heap) in *.
  unfold numbered in Hnum.
  assert (Hc : (Batch.cursor j <= length (BufferScheduler.buffers streamLength bufferSize))%nat)
    by (destruct Hwf as (Hc & _); now rewrite length_map in Hc).
  destruct Hstaging as (_ & _ & Hcommits & _).
  destruct (Batch.outcome j) as [[]|e|] eqn:Ho; exists (Batch.cursor j).
  - cbn [calls call blockNum transferProgress]. rewrite stages_app. simpl.
    rewrite app_nil_r. split; [exact Hc|]. split; [exact Hst|].
    split; [exact Hnum|]. intros _.
    destruct (Hfull eq_refl) as (_ & _ & Hp & _).
    rewrite length_map, total_nth in Hp.
    apply outcome_fulfilled in Ho. destruct Ho as [Ea Er].
    destruct (rest_all_completed _ _ _ _ Hwf (do_saturated _ _ _ sched empty_heap)
                Ea Er) as [Ec _].
    fold j in Ec. rewrite length_map in Ec.
    split; [exact Ec|]. split; [exact Hp|]. intros Hb Hs.
    rewrite Hp. now apply buffers_total.
  - split; [exact Hc|]. split; [exact Hst|]. split; [exact Hnum|].
    intros Hne. contradiction.
  - split; [exact Hc|]. split; [exact Hst|]. split; [exact Hnum|].
    intros Hne. contradiction.
Qed.
